(** * Aggregation, statistics, series transforms and CSV export of the
    analytics dashboard (Treatment, Factors and Performance views).

    The views are JavaScript: every number is an IEEE 754 binary64 value.
    Numbers are therefore embedded as Rocq's primitive [float]s, which are
    the same format with the same rounding (to nearest, ties to even), and
    the not-a-number sentinel is [nan].  Strings are [string]s whose
    characters stand for the code units U+0000..U+00FF.  The numbers the
    selectors hold (Top N, SMA window, point cap) are integers and are
    embedded as [Z].

    Layout: [JS] holds the built-in conversions ([Number], [String],
    truthiness); [Data] rows, insertion-ordered maps, [sort] and [join];
    [Treatment], [Factors] and [Performance] the three views, function by
    function; [Spec], [Shadow] and [Samples] what the properties are
    stated against; the modules after them the properties.  What depends
    on the host (collation, case mapping, date parsing) is a [Variable] of
    a [Section], so every property holds whatever the host does. *)

From Stdlib Require Import ZArith PArith List String Ascii Bool Lia Floats Permutation.
Import ListNotations.

Set Implicit Arguments.
Local Open Scope string_scope.
Local Open Scope Z_scope.

(** ** The JavaScript values and built-in conversions the views rely on *)

Module JS.

(** A cell of a fetched row: what [JSON.parse] can put in a flat record,
    plus [Undefined] for a key the record does not have. *)
Inductive cell : Type :=
| Undefined
| Null
| Bool (b : bool)
| Num (x : float)
| Str (s : string).

Definition NaN : float := nan.
Definition Infinity : float := infinity.

(** [isNaN] and [isFinite] on a number. *)
Definition isNaN (x : float) : bool := PrimFloat.is_nan x.
Definition isFinite (x : float) : bool := PrimFloat.is_finite x.

(** ToBoolean on a number: [0], [-0] and [NaN] are falsy. *)
Definition truthy (x : float) : bool := negb (PrimFloat.is_zero x || isNaN x).

(** ToBoolean on a string: only the empty string is falsy. *)
Definition nonempty (s : string) : bool :=
  match s with EmptyString => false | String _ _ => true end.

(** The number nearest to an integer (array lengths, counts, literals). *)
Definition ofZ (z : Z) : float := SF2Prim (binary_normalize prec emax z 0 false).
Definition ofNat (n : nat) : float := ofZ (Z.of_nat n).

(** *** StringToNumber *)

Definition isWhite (c : ascii) : bool :=
  let n := nat_of_ascii c in
  ((9 <=? n) && (n <=? 13) || (n =? 32) || (n =? 160))%nat.

Fixpoint trimStart (s : string) : string :=
  match s with
  | String c r => if isWhite c then trimStart r else s
  | EmptyString => EmptyString
  end.

Fixpoint revOnto (s acc : string) : string :=
  match s with
  | EmptyString => acc
  | String c r => revOnto r (String c acc)
  end.

Definition trim (s : string) : string :=
  revOnto (trimStart (revOnto (trimStart s) EmptyString)) EmptyString.

(** Value of a digit in a radix up to 16, when the character is one. *)
Definition digitOf (radix : Z) (c : ascii) : option Z :=
  let n := Z.of_nat (nat_of_ascii c) in
  let v := if (48 <=? n) && (n <=? 57) then n - 48
           else if (97 <=? n) && (n <=? 102) then n - 87
           else if (65 <=? n) && (n <=? 70) then n - 55
           else 16 in
  if v <? radix then Some v else None.

(** Reads the longest run of digits: the accumulated value, how many
    digits were read, and the rest of the string. *)
Fixpoint digits (radix : Z) (s : string) (acc : Z) (n : Z) : Z * Z * string :=
  match s with
  | String c r =>
      match digitOf radix c with
      | Some d => digits radix r (radix * acc + d) (n + 1)
      | None => (acc, n, s)
      end
  | EmptyString => (acc, n, s)
  end.

(** The binary64 value nearest to [m * 10 ^ e], for [m > 0]. *)
Definition decimalSF (m : positive) (e : Z) : spec_float :=
  if 0 <=? e then
    if 400 <? e then S754_infinity false
    else binary_normalize prec emax (Z.pos m * 10 ^ e) 0 false
  else if e + (Z.log2 (Z.pos m) + 1) <? -330 then S754_zero false
  else
    let '(q, e', l) := SFdiv_core_binary prec emax (Z.pos m) 0 (10 ^ (- e)) 0 in
    binary_round_aux prec emax false q e' l.

Definition decimal (neg : bool) (m : Z) (e : Z) : float :=
  let r := match m with
           | Z.pos p => decimalSF p e
           | _ => S754_zero false
           end in
  SF2Prim (if neg then SFopp r else r).

(** The exponent part of a decimal literal: nothing, or [e]/[E], an
    optional sign and at least one digit, up to the end of the string. *)
Definition exponentPart (s : string) : option Z :=
  match s with
  | EmptyString => Some 0
  | String c r =>
      if (Ascii.eqb c "e" || Ascii.eqb c "E")%char then
        let '(neg, r') :=
          match r with
          | String "-" r' => (true, r')
          | String "+" r' => (false, r')
          | _ => (false, r)
          end in
        match digits 10 r' 0 0 with
        | (v, n, EmptyString) =>
            if 0 <? n then Some (if neg then - v else v) else None
        | _ => None
        end
      else None
  end.

(** StrUnsignedDecimalLiteral other than [Infinity]: digits with an
    optional fraction and exponent, at least one digit in all. *)
Definition unsignedDecimal (neg : bool) (s : string) : float :=
  let '(ip, ni, r1) := digits 10 s 0 0 in
  let '(m, nf, r2) :=
    match r1 with
    | String "." r => digits 10 r ip 0
    | _ => (ip, 0, r1)
    end in
  if ni + nf =? 0 then NaN
  else match exponentPart r2 with
       | Some e => decimal neg m (e - nf)
       | None => NaN
       end.

Definition strDecimal (neg : bool) (s : string) : float :=
  if String.eqb s "Infinity" then (if neg then neg_infinity else infinity)
  else unsignedDecimal neg s.

(** A non-decimal integer literal: all of [s] in the radix, one digit at least. *)
Definition nonDecimal (radix : Z) (s : string) : float :=
  match digits radix s 0 0 with
  | (v, n, EmptyString) => if 0 <? n then ofZ v else NaN
  | _ => NaN
  end.

Definition StringToNumber (s : string) : float :=
  match trim s with
  | EmptyString => ofZ 0
  | String "0" (String c r) as t =>
      if (Ascii.eqb c "x" || Ascii.eqb c "X")%char then nonDecimal 16 r
      else if (Ascii.eqb c "o" || Ascii.eqb c "O")%char then nonDecimal 8 r
      else if (Ascii.eqb c "b" || Ascii.eqb c "B")%char then nonDecimal 2 r
      else strDecimal false t
  | String "-" r => strDecimal true r
  | String "+" r => strDecimal false r
  | t => strDecimal false t
  end.

(** [Number(v)] *)
Definition Number (v : cell) : float :=
  match v with
  | Undefined => NaN
  | Null => ofZ 0
  | Bool b => if b then ofZ 1 else ofZ 0
  | Num x => x
  | Str s => StringToNumber s
  end.

(** *** Number::toString (radix 10) *)

Fixpoint showDec (fuel : nat) (z : Z) (acc : string) : string :=
  match fuel with
  | O => acc
  | S f =>
      let acc' := String (ascii_of_nat (48 + Z.to_nat (z mod 10))) acc in
      if z <? 10 then acc' else showDec f (z / 10) acc'
  end.

(** The decimal digits of a natural number. *)
Definition showNat (z : Z) : string := showDec (S (Z.to_nat (Z.log2 z))) z "".

Fixpoint zeros (n : nat) : string :=
  match n with O => "" | S m => String "0" (zeros m) end.

(** The least [n], from [n0] upwards, with [num / den < 10 ^ n]. *)
Fixpoint magnitude (fuel : nat) (num den n0 : Z) : Z :=
  match fuel with
  | O => n0
  | S f =>
      if (if 0 <=? n0 then num <? 10 ^ n0 * den else num * 10 ^ (- n0) <? den)
      then n0 else magnitude f num den (n0 + 1)
  end.

(** The shortest digit string [s] of [k] digits with [s * 10 ^ (n - k)]
    mapping back to the number; of two such, the one nearer to it,
    and the even one when both are as near. *)
Fixpoint shortest (fuel : nat) (x : float) (num den n k : Z) : Z * Z * Z :=
  let p := k - n in
  let lo := if 0 <=? p then (num * 10 ^ p) / den else num / (den * 10 ^ (- p)) in
  let hi := lo + 1 in
  let okLo := (0 <? lo) && PrimFloat.Leibniz.eqb (decimal false lo (n - k)) x in
  let okHi := PrimFloat.Leibniz.eqb (decimal false hi (n - k)) x in
  (* twice the distances to the number, on a common denominator *)
  let '(dLo, dHi) :=
    if 0 <=? p then (num * 10 ^ p - lo * den, hi * den - num * 10 ^ p)
    else (num - lo * (den * 10 ^ (- p)), hi * (den * 10 ^ (- p)) - num) in
  let pick (s : Z) := if s =? 10 ^ k then (n + 1, 1, 1) else (n, k, s) in
  let best :=
    if okLo && okHi then
      Some (if dLo <? dHi then lo else if dHi <? dLo then hi
            else if Z.even lo then lo else hi)
    else if okLo then Some lo
    else if okHi then Some hi
    else None in
  match best, fuel with
  | Some s, _ => pick s
  | None, S f => shortest f x num den n (k + 1)
  | None, O => pick lo
  end.

Definition layout (n k s : Z) : string :=
  let d := showNat s in
  if (k <=? n) && (n <=? 21) then d ++ zeros (Z.to_nat (n - k))
  else if (0 <? n) && (n <=? 21) then
    substring 0 (Z.to_nat n) d ++ "." ++ substring (Z.to_nat n) (Z.to_nat (k - n)) d
  else if (-6 <? n) && (n <=? 0) then "0." ++ zeros (Z.to_nat (- n)) ++ d
  else
    let e := n - 1 in
    let es := (if e <? 0 then "-" else "+") ++ showNat (Z.abs e) in
    if k =? 1 then d ++ "e" ++ es
    else substring 0 1 d ++ "." ++ substring 1 (Z.to_nat (k - 1)) d ++ "e" ++ es.

Definition NumberToString (x : float) : string :=
  match Prim2SF x with
  | S754_nan => "NaN"
  | S754_zero _ => "0"
  | S754_infinity neg => if neg then "-Infinity" else "Infinity"
  | S754_finite neg m e =>
      let num := if 0 <=? e then Z.pos m * 2 ^ e else Z.pos m in
      let den := if 0 <=? e then 1 else 2 ^ (- e) in
      (* [2 ^ b <= x], so [10 ^ start <= x]: the search starts below *)
      let b := Z.log2 (Z.pos m) + e in
      let start := (b * (if 0 <=? b then 30102 else 30103)) / 100000 in
      let n := magnitude 8 num den start in
      let '(n', k, s) := shortest 20 (abs x) num den n 1 in
      (if neg then "-" else "") ++ layout n' k s
  end.

(** [String(v)] *)
Definition ToString (v : cell) : string :=
  match v with
  | Undefined => "undefined"
  | Null => "null"
  | Bool b => if b then "true" else "false"
  | Num x => NumberToString x
  | Str s => s
  end.

(** [v == null]: the value is [null] or [undefined]. *)
Definition isNullish (v : cell) : bool :=
  match v with Undefined | Null => true | _ => false end.

(** [v === ""] *)
Definition isEmptyStr (v : cell) : bool :=
  match v with Str EmptyString => true | _ => false end.

End JS.

(** ** Rows, arrays and insertion-ordered maps *)

Module Data.
Import JS.

(** A row is a JavaScript object: its own properties in the order of
    their creation.  [get r k] is [r[k]] for a key the row holds, and
    [Undefined] for an absent key, which is what [r[k]] is for every name
    that objects do not inherit; the rows of a table hold the keys of its
    first row. *)
Definition row := list (string * cell).

Fixpoint get (r : row) (k : string) : cell :=
  match r with
  | [] => Undefined
  | (k', v) :: r' => if String.eqb k' k then v else get r' k
  end.

(** [arr.includes(k)] on an array of strings. *)
Definition includes (l : list string) (k : string) : bool :=
  existsb (String.eqb k) l.

(** [Object.hasOwn(r, k)] *)
Definition own (r : row) (k : string) : bool := includes (map fst r) k.

(** The array index a property name is, when it is one: the canonical
    numeral of an integer below [2 ^ 32 - 1]. *)
Definition arrayIndex (k : string) : option Z :=
  match k with
  | "" => None
  | String c _ =>
      match digits 10 k 0 0 with
      | (v, _, "") =>
          if (negb (Ascii.eqb c "0") || String.eqb k "0") && (v <? 4294967295)
          then Some v else None
      | _ => None
      end
  end.

Section Entries.
Variable V : Type.

(** [Object.entries] of an object whose properties were created in the
    order of [m]: the array indices first, in ascending order, then the
    other names in the order of their creation. *)
Fixpoint insertIndex (i : Z) (kv : string * V) (l : list (Z * (string * V)))
  : list (Z * (string * V)) :=
  match l with
  | [] => [(i, kv)]
  | h :: t => if i <? fst h then (i, kv) :: l else h :: insertIndex i kv t
  end.

Definition indexEntries (m : list (string * V)) : list (Z * (string * V)) :=
  fold_right
    (fun kv acc => match arrayIndex (fst kv) with
                   | Some i => insertIndex i kv acc
                   | None => acc
                   end)
    [] m.

Definition entries (m : list (string * V)) : list (string * V) :=
  (map snd (indexEntries m)
   ++ filter (fun kv => match arrayIndex (fst kv) with None => true | Some _ => false end) m)%list.
End Entries.

(** [Object.keys(r)] *)
Definition keys (r : row) : list string := map fst (entries r).

(** [arr.join(sep)] on an array of strings. *)
Fixpoint join (sep : string) (l : list string) : string :=
  match l with
  | [] => ""
  | [s] => s
  | s :: l' => s ++ sep ++ join sep l'
  end.

(** A [Map] (or an object used as one) keeps its keys in insertion
    order; [set] on a present key replaces the value in place. *)
Section OrderedMap.
Variable V : Type.

Fixpoint mapGet (m : list (string * V)) (k : string) : option V :=
  match m with
  | [] => None
  | (k', v) :: m' => if String.eqb k' k then Some v else mapGet m' k
  end.

Fixpoint mapSet (m : list (string * V)) (k : string) (v : V) : list (string * V) :=
  match m with
  | [] => [(k, v)]
  | (k', v') :: m' =>
      if String.eqb k' k then (k, v) :: m' else (k', v') :: mapSet m' k v
  end.
End OrderedMap.

(** [r[k] = v] on an object literal, for a value [v] that is neither an
    object nor [null].  The name [__proto__] is not stored unless the
    object has a property of that name of its own: the assignment reaches
    the setter that every object inherits, and the setter ignores such a
    value. *)
Definition ignored (r : row) (k : string) : bool :=
  String.eqb k "__proto__" && negb (own r k).

Definition assign (r : row) (k : string) (v : cell) : row :=
  if ignored r k then r else mapSet r k v.

(** [m.get(k) || 0] *)
Definition getOrZero (m : list (string * float)) (k : string) : float :=
  match mapGet m k with
  | Some v => if truthy v then v else 0%float
  | None => 0%float
  end.

(** [Array.prototype.sort] with a comparator: stable, an element [a]
    ends after [b] when [cmp a b > 0]; a [NaN] result counts as [0]. *)
Section Sort.
Variable A : Type.
Variable cmp : A -> A -> float.

Fixpoint insert (x : A) (l : list A) : list A :=
  match l with
  | [] => [x]
  | y :: l' => if (0 <? cmp x y)%float then y :: insert x l' else x :: l
  end.

Definition sort (l : list A) : list A := fold_right insert [] l.
End Sort.

(** The default [sort()] of an array of strings compares code units; it
    also serves as the collation of a host whose [localeCompare] is
    ordinal. *)
Definition codeUnitOrder (a b : string) : float :=
  match String.compare a b with
  | Lt => (-1)%float
  | Eq => 0%float
  | Gt => 1%float
  end.

(** Upper-casing of the letters [a] to [z], all that [toUpperCase] does on
    such text. *)
Fixpoint asciiUpper (s : string) : string :=
  match s with
  | "" => ""
  | String c r =>
      let n := nat_of_ascii c in
      String (if ((97 <=? n) && (n <=? 122))%nat then ascii_of_nat (n - 32) else c)
             (asciiUpper r)
  end.

(** [sum] of an array of numbers as [reduce((a, b) => a + b, 0)]. *)
Definition sum (l : list float) : float :=
  fold_left (fun a b => (a + b)%float) l 0%float.

(** The line feed, and the characters CSV quoting looks for. *)
Definition LF : string := String "010" "".
Definition quote : ascii := "034"%char.

(** The test of [csvSafe]'s regular expression: the string holds a double
    quote, a comma or a line feed. *)
Fixpoint needsQuotes (v : string) : bool :=
  match v with
  | "" => false
  | String c r =>
      (Ascii.eqb c quote || Ascii.eqb c "," || Ascii.eqb c "010")%char || needsQuotes r
  end.

(** The replacement in [csvSafe]: every double quote is written twice. *)
Fixpoint doubleQuotes (v : string) : string :=
  match v with
  | "" => ""
  | String c r =>
      if Ascii.eqb c quote then String quote (String quote (doubleQuotes r))
      else String c (doubleQuotes r)
  end.

(** The body shared by the views' [csvSafe] once the value is a string. *)
Definition csvField (v : string) : string :=
  if needsQuotes v then String quote (doubleQuotes v ++ String quote "") else v.

(** [arr.slice(0, n)]: a negative [n] counts from the end. *)
Definition slice0 (A : Type) (n : Z) (l : list A) : list A :=
  if 0 <=? n then firstn (Z.to_nat n) l
  else firstn (List.length l - Z.to_nat (- n)) l.


(** The names every object inherits on a standard host. *)
Definition objectPrototype (k : string) : bool :=
  includes
    ["constructor"; "hasOwnProperty"; "isPrototypeOf"; "propertyIsEnumerable";
     "toLocaleString"; "toString"; "valueOf"; "__proto__";
     "__defineGetter__"; "__defineSetter__"; "__lookupGetter__"; "__lookupSetter__"]
    k.

End Data.

(** ** The Treatment view: column classification, aggregation, export *)

Module Treatment.
Import JS Data.

Definition toNum (v : cell) : float :=
  let n := Number v in if isNaN n then NaN else n.

Definition isFiniteNum (n : float) : bool := isFinite n.

Definition safeCat (v : cell) : string :=
  if isNullish v || isEmptyStr v then "Unknown" else ToString v.

Definition csvSafe (s : cell) : string :=
  csvField (if isNullish s then "" else ToString s).

(** The test a key passes in every row to count as numeric. *)
Definition numericCell (v : cell) : bool :=
  isEmptyStr v || negb (isNaN (Number v)).

(** [numericCols] and [catCols], in this order. *)
Definition columns (rows : list row) : list string * list string :=
  match rows with
  | [] => ([], [])
  | r0 :: _ =>
      let ks := keys r0 in
      let numeric := filter (fun k => forallb (fun r => numericCell (get r k)) rows) ks in
      let categorical := filter (fun k => negb (includes numeric k)) ks in
      (numeric, categorical)
  end.

Definition numericCols (rows : list row) : list string := fst (columns rows).
Definition catCols (rows : list row) : list string := snd (columns rows).

Record bucket : Type := { name : string; value : float }.

(** What one row adds to its group. *)
Definition contribution (metric : string) (r : row) : float :=
  let addVal := if String.eqb metric "count" then 1%float else toNum (get r metric) in
  if isFiniteNum addVal then addVal else 0%float.

(** The [Map] that the loop of [baseAgg] over the rows fills. *)
Definition grouped (cat metric : string) (rows : list row) : list (string * float) :=
  fold_left
    (fun m r =>
       let key := safeCat (get r cat) in
       let curr := getOrZero m key in
       mapSet m key (curr + contribution metric r)%float)
    rows [].

(** [entries.reduce((a, b) => a + b.value, 0)] *)
Definition sumValues (entries : list bucket) : float :=
  fold_left (fun a b => (a + value b)%float) entries 0%float.

Section Host.

(** [a.localeCompare(b)] depends on the host's locale, and
    [s.toUpperCase()] on Unicode case mapping: both are left open. *)
Variable localeCompare : string -> string -> float.
Variable toUpperCase : string -> string.

(** The comparator [baseAgg] sorts with. *)
Definition comparator (sortBy : string) (a b : bucket) : float :=
  if String.eqb sortBy "name" then localeCompare (name a) (name b)
  else (value b - value a)%float.

(** [baseAgg]; [topN] is the integer the Top N selector holds. *)
Definition baseAgg (rows : list row) (cat metric sortBy : string) (topN : Z)
  : list bucket :=
  if negb (nonempty cat) then []
  else
    let m := grouped cat metric rows in
    let entries := map (fun kv => {| name := fst kv; value := snd kv |}) m in
    let entries := sort (comparator sortBy) entries in
    if (0 <? topN) && (topN <? Z.of_nat (List.length entries)) then
      let head := firstn (Z.to_nat topN) entries in
      let tail := skipn (Z.to_nat topN) entries in
      let otherSum := sumValues tail in
      (head ++ [{| name := "Other"; value := otherSum |}])%list
    else entries.

Definition totalValue (rows : list row) (cat metric sortBy : string) (topN : Z) : float :=
  sumValues (baseAgg rows cat metric sortBy topN).

(** One category of the two-dimension aggregation. *)
Record catRow : Type :=
  { cname : string; total : float; parts : list (string * float) }.

(** [Set.add] *)
Definition setAdd (s : list string) (g : string) : list string :=
  if includes s g then s else (s ++ [g])%list.

(** [groupedAgg], when it is the object [{ data, groups }]; [None] stands
    for the empty array it is without a category or a group column. *)
Definition groupedAgg (rows : list row) (cat groupBy metric : string) (topN : Z)
  : option (list row * list string) :=
  if negb (nonempty cat) || negb (nonempty groupBy) then None
  else
    let '(m, groupsSet) :=
      fold_left
        (fun st r =>
           let '(m, groupsSet) := st in
           let key := safeCat (get r cat) in
           let grp := safeCat (get r groupBy) in
           let groupsSet := setAdd groupsSet grp in
           let rowMap := match mapGet m key with Some rm => rm | None => [] end in
           let curr := getOrZero rowMap grp in
           let rowMap := mapSet rowMap grp (curr + contribution metric r)%float in
           (mapSet m key rowMap, groupsSet))
        rows ([], []) in
    let cats :=
      sort (fun a b => (total b - total a)%float)
        (map (fun kv => {| cname := fst kv; total := sum (map snd (snd kv)); parts := snd kv |}) m) in
    let cats :=
      if (0 <? topN) && (topN <? Z.of_nat (List.length cats)) then
        let head := firstn (Z.to_nat topN) cats in
        let tail := skipn (Z.to_nat topN) cats in
        let otherMap :=
          fold_left
            (fun om t =>
               fold_left (fun om gv => mapSet om (fst gv) (getOrZero om (fst gv) + snd gv)%float)
                 (parts t) om)
            tail [] in
        (head ++ [{| cname := "Other"; total := sum (map snd otherMap); parts := otherMap |}])%list
      else cats in
    let groups := sort codeUnitOrder groupsSet in
    let rowsOut :=
      map (fun c =>
             fold_left (fun (rw : row) g => assign rw g (Num (getOrZero (parts c) g)))
               groups [(cat, Str (cname c))])
          cats in
    Some (rowsOut, groups).

(** [exportCSV]: the text handed to [downloadText], [None] when the
    function returns without a download. *)
Definition exportCSV (rows : list row) (cat metric groupBy sortBy : string) (topN : Z)
  : option string :=
  if negb (nonempty cat) then None
  else
    let csv := "" in
    if negb (nonempty groupBy) then
      let csv := csv ++ (join "," ["Category"; toUpperCase metric] ++ LF) in
      Some (fold_left
              (fun csv r => csv ++ (join "," [csvSafe (Str (name r)); csvSafe (Num (value r))] ++ LF))
              (baseAgg rows cat metric sortBy topN) csv)
    else
      let '(data, groups) :=
        match groupedAgg rows cat groupBy metric topN with
        | Some dg => dg
        | None => ([], [])
        end in
      let hdr := cat :: groups in
      let csv := csv ++ (join "," hdr ++ LF) in
      Some (fold_left
              (fun csv r =>
                 let line := csvSafe (get r cat) :: map (fun g => csvSafe (get r g)) groups in
                 csv ++ (join "," line ++ LF))
              data csv).

End Host.

End Treatment.

(** ** The Factors view: scatter points, regression statistics, export *)

Module Factors.
Import JS Data.

Definition toNum (v : cell) : float :=
  let n := Number v in if isNaN n then NaN else n.

Definition isFiniteNum (n : float) : bool := isFinite n.

Definition safeStr (v : cell) : string :=
  match v with
  | Null | Undefined => "Unknown"
  | _ => ToString v
  end.

Definition csvSafe (s : cell) : string :=
  csvField (match s with Null | Undefined => "" | _ => ToString s end).

(** A scatter point; [p_x], [p_y], [p_z], [p_c] are its fields [x], [y],
    [z] and [c]. *)
Record point : Type :=
  { p_x : float; p_y : float; p_z : float; p_c : string; raw : row }.

Definition basePoints (rows : list row) (x y z colorBy : string) : list point :=
  if negb (nonempty x && nonempty y) then []
  else
    filter (fun p => isFiniteNum (p_x p) && isFiniteNum (p_y p))
      (map (fun r =>
              {| p_x := toNum (get r x);
                 p_y := toNum (get r y);
                 p_z := if nonempty z
                        then (let n := toNum (get r z) in if truthy n then n else 1%float)
                        else 1%float;
                 p_c := if nonempty colorBy then safeStr (get r colorBy) else "All";
                 raw := r |})
         rows).

(** The range filters hold the text of their inputs. *)
Definition filtered (pts : list point) (xMin xMax yMin yMax : string) : list point :=
  let xmin := Number (Str xMin) in
  let xmax := Number (Str xMax) in
  let ymin := Number (Str yMin) in
  let ymax := Number (Str yMax) in
  filter (fun p =>
            (isNaN xmin || (xmin <=? p_x p)%float) &&
            (isNaN xmax || (p_x p <=? xmax)%float) &&
            (isNaN ymin || (ymin <=? p_y p)%float) &&
            (isNaN ymax || (p_y p <=? ymax)%float))
    pts.

Record stats : Type := { r : float; slope : float; intercept : float }.

Definition linearStats (points : list (float * float)) : stats :=
  let pts := filter (fun p => isFiniteNum (fst p) && isFiniteNum (snd p)) points in
  let n := List.length pts in
  if (n <? 2)%nat then {| r := NaN; slope := NaN; intercept := NaN |}
  else
   (let n := ofNat n in
    let sx := fold_left (fun a p => a + fst p) pts 0 in
    let sy := fold_left (fun a p => a + snd p) pts 0 in
    let sxx := fold_left (fun a p => a + fst p * fst p) pts 0 in
    let syy := fold_left (fun a p => a + snd p * snd p) pts 0 in
    let sxy := fold_left (fun a p => a + fst p * snd p) pts 0 in
    let numR := n * sxy - sx * sy in
    let denR := sqrt ((n * sxx - sx * sx) * (n * syy - sy * sy)) in
    let r := if denR =? 0 then NaN else numR / denR in
    let den := n * sxx - sx * sx in
    let slope := (n * sxy - sx * sy) / (if truthy den then den else NaN) in
    let intercept := (sy - slope * sx) / n in
    {| r := r; slope := slope; intercept := intercept |})%float.

(** The statistics shown by the view. *)
Definition viewStats (pts : list point) : stats :=
  linearStats (map (fun p => (p_x p, p_y p)) pts).

(** The trend line: its two end points, or nothing. *)
Definition trendline (slope intercept : float) (xMin xMax : string)
  : list (float * float) :=
  if negb (isFiniteNum slope) || negb (isFiniteNum intercept) then []
  else
    let xmin := Number (Str xMin) in
    let xmax := Number (Str xMax) in
    if isNaN xmin || isNaN xmax then []
    else [ (xmin, slope * xmin + intercept); (xmax, slope * xmax + intercept) ]%float.

(** [exportCSV]: the text handed to [downloadText]. *)
Definition exportCSV (rows : list row) (x y z colorBy xMin xMax yMin yMax : string)
  : string :=
  let headers :=
    ([x; y] ++ (if nonempty z then [z] else [])
            ++ (if nonempty colorBy then [colorBy] else []))%list in
  let lines := [join "," headers] in
  let lines :=
    fold_left
      (fun lines p =>
         let row := [get (raw p) x; get (raw p) y] in
         let row := if nonempty z then (row ++ [get (raw p) z])%list else row in
         let row := if nonempty colorBy then (row ++ [get (raw p) colorBy])%list else row in
         (lines ++ [join "," (map csvSafe row)])%list)
      (filtered (basePoints rows x y z colorBy) xMin xMax yMin yMax) lines in
  join LF lines.

Definition finiteMin (arr : list float) : float :=
  fold_left (fun m v => if isFiniteNum v && (v <? m)%float then v else m) arr infinity.

Definition finiteMax (arr : list float) : float :=
  fold_left (fun m v => if isFiniteNum v && (m <? v)%float then v else m) arr neg_infinity.

(** [domains]: the least and greatest coordinates of the base points. *)
Record domain : Type := { xMin : float; xMax : float; yMin : float; yMax : float }.

Definition domains (basePoints : list point) : domain :=
  let xs := map p_x basePoints in
  let ys := map p_y basePoints in
  {| xMin := finiteMin xs; xMax := finiteMax xs;
     yMin := finiteMin ys; yMax := finiteMax ys |}.

(** A group of the scatter chart. *)
Record group : Type := { name : string; pts : list point }.

Section Host.
(** The names an empty object literal inherits from [Object.prototype]
    depend on the host. *)
Variable inherited : string -> bool.

(** [groups], for the points no colour of which is a name that objects
    inherit. For such a name the look-up [counts[p.c]] finds the
    inherited property, not a count, and [buckets[key]] one that has no
    [push]; [None] stands for these inputs, which the model leaves out. *)
Definition groups (filtered : list point) (colorBy : string) : option (list group) :=
  if nonempty colorBy && existsb (fun p => inherited (p_c p)) filtered then None
  else
    let counts :=
      fold_left
        (fun (counts : list (string * float)) p =>
           mapSet counts (p_c p) (getOrZero counts (p_c p) + 1)%float)
        filtered [] in
    let top :=
      map fst (slice0 8 (sort (fun a b => (snd b - snd a)%float) (entries counts))) in
    let buckets :=
      fold_left
        (fun (buckets : list (string * list point)) p =>
           let key :=
             if nonempty colorBy then (if includes top (p_c p) then p_c p else "Other")
             else "All" in
           mapSet buckets key
             ((match mapGet buckets key with Some l => l | None => [] end) ++ [p])%list)
        filtered [] in
    Some (map (fun kv => {| name := fst kv; pts := snd kv |}) (entries buckets)).
End Host.

End Factors.

(** ** The Performance view: series transforms and export *)

Module Performance.
Import JS Data.

Definition toNum (v : cell) : float :=
  let n := Number v in if isNaN n then NaN else n.

Definition isFiniteNum (n : float) : bool := isFinite n.

Definition csvSafe (s : cell) : string :=
  csvField (match s with Null | Undefined => "" | _ => ToString s end).

Definition finiteMin (arr : list float) : float :=
  fold_left (fun m v => if isFiniteNum v && (v <? m)%float then v else m) arr infinity.

Definition finiteMax (arr : list float) : float :=
  fold_left (fun m v => if isFiniteNum v && (m <? v)%float then v else m) arr neg_infinity.

Fixpoint firstFinite (arr : list float) : float :=
  match arr with
  | [] => NaN
  | v :: rest => if isFiniteNum v then v else firstFinite rest
  end.

(** [out[i] = v] on an array that has the index. *)
Fixpoint setAt (out : list float) (i : nat) (v : float) : list float :=
  match out, i with
  | [], _ => []
  | _ :: t, O => v :: t
  | h :: t, S j => h :: setAt t j v
  end.

(** The loop of [movingAvg] from index [i] on, over the samples still to
    be read. *)
Fixpoint movingAvgLoop (win : Z) (rest : list float) (i : nat)
  (sum : float) (q out : list float) : list float :=
  match rest with
  | [] => out
  | v :: rest' =>
      let q := (q ++ [if isFiniteNum v then v else NaN])%list in
      let '(q, sum) :=
        if win <? Z.of_nat (List.length q) then
          match q with
          | drop :: q' => (q', if isFiniteNum drop then (sum - drop)%float else sum)
          | [] => (q, sum)
          end
        else (q, sum) in
      let sum := if isFiniteNum v then (sum + v)%float else sum in
      let valid := filter isFiniteNum q in
      let o :=
        if Z.of_nat (List.length valid) =? win
        then (Data.sum valid / ofZ win)%float
        else NaN in
      movingAvgLoop win rest' (S i) sum q (setAt out i o)
  end.

(** [movingAvg]; [win] is the integer the SMA selector holds. *)
Definition movingAvg (arr : list float) (win : Z) : list float :=
  let out := repeat NaN (List.length arr) in
  if win <=? 1 then arr
  else movingAvgLoop win arr 0 0%float [] out.

(** [seriesData[key]] *)
Definition series (sd : list (string * list float)) (key : string) : list float :=
  match mapGet sd key with Some arr => arr | None => [] end.

(** The index and min-max rescalings of one series. *)
Definition indexed (base : float) (arr : list float) : list float :=
  map (fun v => if isFiniteNum v then (v / base * 100)%float else NaN) arr.

Definition minmaxed (arr : list float) : list float :=
  let mn := finiteMin arr in
  let mx := finiteMax arr in
  let rng := (mx - mn)%float in
  map (fun v => if isFiniteNum v && (0 <? rng)%float then ((v - mn) / rng)%float else NaN) arr.

(** [seriesData] as it stands when the chart rows are built.  The object
    is read back under the names it was written under, and is read under
    no other: the name [__proto__] too gives back the array written under
    it, which the object keeps as its prototype. *)
Definition seriesData (limited : list row) (ys : list string) (smooth : Z)
  (normalize : string) : list (string * list float) :=
  let sd :=
    fold_left (fun sd key => mapSet sd key (map (fun r => toNum (get r key)) limited))
      ys [] in
  let sd :=
    if 0 <? smooth then
      fold_left (fun sd key => mapSet sd key (movingAvg (series sd key) smooth)) ys sd
    else sd in
  if String.eqb normalize "index" then
    fold_left
      (fun sd key =>
         let arr := series sd key in
         let base := firstFinite arr in
         if isFiniteNum base then mapSet sd key (indexed base arr) else sd)
      ys sd
  else if String.eqb normalize "minmax" then
    fold_left (fun sd key => mapSet sd key (minmaxed (series sd key))) ys sd
  else sd.

Section Host.

(** [new Date(s)] reads dates as the host does: [dateISO s] is the first
    ten characters of [toISOString()] when the date is valid. *)
Variable dateISO : string -> option string.

Definition parseX (v : cell) : cell :=
  let s := ToString v in
  match dateISO s with
  | Some d => Str d
  | None => let n := Number v in if isNaN n then Str s else Num n
  end.

Fixpoint attach (limited : list row) (i : nat) (x : string) (ys : list string)
  (sd : list (string * list float)) : list row :=
  match limited with
  | [] => []
  | r :: rest =>
      let d : row := mapSet [("__i", Num (ofNat i))] x (parseX (get r x)) in
      let d :=
        fold_left
          (fun (d : row) key =>
             assign d key
               (match nth_error (series sd key) i with
                | Some v => Num v
                | None => Undefined
                end))
          ys d in
      d :: attach rest (S i) x ys sd
  end.

Definition processed (rows : list row) (x : string) (ys : list string)
  (smooth : Z) (normalize : string) (cap : Z) : list row :=
  if negb (nonempty x) || (List.length ys =? 0)%nat then []
  else
    let limited := if 0 <? cap then firstn (Z.to_nat cap) rows else rows in
    attach limited 0 x ys (seriesData limited ys smooth normalize).

(** [exportCSV]: the text handed to [downloadText], [None] when the
    function returns without a download. *)
Definition exportCSV (rows : list row) (x : string) (ys : list string)
  (smooth : Z) (normalize : string) (cap : Z) : option string :=
  let processed := processed rows x ys smooth normalize cap in
  if (List.length processed =? 0)%nat then None
  else
    let headers := x :: ys in
    let lines := [join "," headers] in
    let lines :=
      fold_left
        (fun lines d =>
           let row := csvSafe (get d x) :: map (fun k => csvSafe (get d k)) ys in
           (lines ++ [join "," row])%list)
        processed lines in
    Some (join LF lines).

End Host.

End Performance.

(** ** The dashboard: trend chart and top groups *)

Module Dashboard.
Import JS Data.



(** A group as the server counts it. *)
Record groupCount : Type := { key : string; count : float }.

(** The groups that [TopGroups] charts for a field, from the server's
    answer [data]; none without a field. *)
Definition topGroups (field : string) (data : list groupCount) : list groupCount :=
  if negb (nonempty field) then []
  else slice0 12 (sort (fun a b => (count b - count a)%float) data).

End Dashboard.

(** ** Reference definitions the properties are stated against *)

Module Spec.
Import JS Data.

(** [s] holds the character [c]. *)
Fixpoint contains (c : ascii) (s : string) : bool :=
  match s with
  | "" => false
  | String c' r => Ascii.eqb c' c || contains c r
  end.

(** A CSV reader on the text that follows an opening quote: a doubled
    quote is one quote of the field, a single one closes it. *)
Fixpoint unquoteBody (s : string) : string :=
  match s with
  | "" => ""
  | String c r =>
      if Ascii.eqb c quote then
        match r with
        | String c' r' => if Ascii.eqb c' quote then String quote (unquoteBody r') else ""
        | "" => ""
        end
      else String c (unquoteBody r)
  end.

(** A CSV reader on one serialized field. *)
Definition csvUnquote (s : string) : string :=
  match s with
  | String c r => if Ascii.eqb c quote then unquoteBody r else s
  | "" => ""
  end.

(** A sample as the queue of [movingAvg] stores it. *)
Definition san (v : float) : float := if isFinite v then v else NaN.

(** The trailing window of [w] samples that ends at index [i]. *)
Definition window (arr : list float) (w i : nat) : list float :=
  firstn w (skipn (i + 1 - w) arr).

(** The mean of the [w] samples ending at index [i] when there are [w] of
    them and all are finite, the sentinel otherwise. *)
Definition trailingMean (arr : list float) (w : Z) (i : nat) : float :=
  let win := window arr (Z.to_nat w) i in
  if (w <=? Z.of_nat i + 1) && forallb isFinite win
  then (sum win / ofZ w)%float
  else NaN.

(** The pairs a regression is computed over, and the sums of its
    formulas, each added up from the left starting at 0. *)
Definition validPairs (points : list (float * float)) : list (float * float) :=
  filter (fun p => isFinite (fst p) && isFinite (snd p)) points.

Definition sigma (f : float * float -> float) (pts : list (float * float)) : float :=
  sum (map f pts).

(** [n * sum xy - sum x * sum y], [n * sum x^2 - (sum x)^2] and
    [n * sum y^2 - (sum y)^2], with [n] the number of pairs. *)
Definition covN (pts : list (float * float)) : float :=
  (ofNat (List.length pts) * sigma (fun p => fst p * snd p) pts
   - sigma fst pts * sigma snd pts)%float.

Definition varNX (pts : list (float * float)) : float :=
  (ofNat (List.length pts) * sigma (fun p => fst p * fst p) pts
   - sigma fst pts * sigma fst pts)%float.

Definition varNY (pts : list (float * float)) : float :=
  (ofNat (List.length pts) * sigma (fun p => snd p * snd p) pts
   - sigma snd pts * sigma snd pts)%float.

(** The series of column [key] as index normalization finds it: the
    column's numbers, smoothed when a window is set. *)
Definition smoothed (limited : list row) (smooth : Z) (key : string) : list float :=
  let col := map (fun r => Performance.toNum (get r key)) limited in
  if 0 <? smooth then Performance.movingAvg col smooth else col.

(** What the index step does to the series it is given. *)
Definition indexStep (arr : list float) : list float :=
  if Performance.isFiniteNum (Performance.firstFinite arr)
  then Performance.indexed (Performance.firstFinite arr) arr
  else arr.

(** Every sample over the base, times 100; the sentinel for a sample that
    is not finite. *)
Definition overBase (base : float) (arr : list float) : list float :=
  map (fun v => if isFinite v then (v / base * 100)%float else NaN) arr.

(** The rows a chart is built from. *)
Definition capped (rows : list row) (cap : Z) : list row :=
  if 0 <? cap then firstn (Z.to_nat cap) rows else rows.

(** Records written one per line, each followed by a line feed; and
    records joined by line feeds, with none after the last. *)
Fixpoint terminated (records : list string) : string :=
  match records with
  | [] => ""
  | rec :: rest => rec ++ LF ++ terminated rest
  end.

Definition separated (records : list string) : string := join LF records.

Section Exporters.
Variable localeCompare : string -> string -> float.
Variable toUpperCase : string -> string.
Variable dateISO : string -> option string.

(** The records of the three exporters: the header row, then one record
    per data row. *)
Definition aggregationRecords (rows : list row) (cat metric groupBy sortBy : string)
  (topN : Z) : list string :=
  if negb (nonempty groupBy) then
    join "," ["Category"; toUpperCase metric]
    :: map (fun b => join "," [Treatment.csvSafe (Str (Treatment.name b));
                               Treatment.csvSafe (Num (Treatment.value b))])
           (Treatment.baseAgg localeCompare rows cat metric sortBy topN)
  else
    let '(data, groups) :=
      match Treatment.groupedAgg rows cat groupBy metric topN with
      | Some dg => dg
      | None => ([], [])
      end in
    join "," (cat :: groups)
    :: map (fun d => join "," (Treatment.csvSafe (get d cat)
                               :: map (fun g => Treatment.csvSafe (get d g)) groups))
           data.

Definition seriesRecords (rows : list row) (x : string) (ys : list string)
  (smooth : Z) (normalize : string) (cap : Z) : list string :=
  join "," (x :: ys)
  :: map (fun d => join "," (Performance.csvSafe (get d x)
                             :: map (fun k => Performance.csvSafe (get d k)) ys))
         (Performance.processed dateISO rows x ys smooth normalize cap).

Definition pointsRecords (rows : list row) (x y z colorBy xMin xMax yMin yMax : string)
  : list string :=
  join "," ([x; y] ++ (if nonempty z then [z] else [])
                   ++ (if nonempty colorBy then [colorBy] else []))%list
  :: map (fun p =>
            join "," (map Factors.csvSafe
                        ([get (Factors.raw p) x; get (Factors.raw p) y]
                         ++ (if nonempty z then [get (Factors.raw p) z] else [])
                         ++ (if nonempty colorBy then [get (Factors.raw p) colorBy] else []))%list))
         (Factors.filtered (Factors.basePoints rows x y z colorBy) xMin xMax yMin yMax).

End Exporters.

(** The shape of a number that is finite. *)
Definition finiteSF (f : spec_float) : bool :=
  match f with S754_zero _ | S754_finite _ _ _ => true | _ => false end.

(** No element is followed by one the comparator puts before it. *)
Fixpoint ordered (A : Type) (cmp : A -> A -> float) (l : list A) : bool :=
  match l with
  | a :: (b :: _) as t => negb (0 <? cmp a b)%float && ordered cmp t
  | _ => true
  end.

(** The first [topN] elements under a limit, all of them without one. *)
Definition shown (A : Type) (topN : Z) (l : list A) : list A :=
  if 0 <? topN then firstn (Z.to_nat topN) l else l.

(** The rows that give a scatter point. *)
Definition plottable (x y : string) (rw : row) : bool :=
  isFinite (Number (get rw x)) && isFinite (Number (get rw y)).

(** A float above zero, and a float of a given sign that is neither zero
    nor the sentinel. *)
Definition positiveSF (f : spec_float) : bool := SFltb (S754_zero false) f.

Definition signedSF (sx : bool) (f : spec_float) : bool :=
  match f with
  | S754_finite s _ _ | S754_infinity s => Bool.eqb s sx
  | _ => false
  end.

End Spec.

(** ** Integer shadows of the aggregation *)

Module Shadow.
Import JS Data.

(** The category a row falls in. *)
Definition category (cat : string) (r : row) : string :=
  Treatment.safeCat (get r cat).

(** The grouping loop on integers: [c r] is what row [r] adds. *)
Definition getZ (m : list (string * Z)) (k : string) : Z :=
  match mapGet m k with Some v => v | None => 0 end.

Definition groupedZ (c : row -> Z) (cat : string) (rows : list row) (m : list (string * Z))
  : list (string * Z) :=
  fold_left (fun m r => mapSet m (category cat r) (getZ m (category cat r) + c r)) rows m.

(** The buckets of an integer map, its total, and the total of what the
    rows add. *)
Definition bucketZ (kv : string * Z) : Treatment.bucket :=
  {| Treatment.name := fst kv; Treatment.value := ofZ (snd kv) |}.

Fixpoint totalZ (m : list (string * Z)) : Z :=
  match m with
  | [] => 0
  | kv :: m' => snd kv + totalZ m'
  end.

Fixpoint sumOf (c : row -> Z) (rows : list row) : Z :=
  match rows with
  | [] => 0
  | r :: rows' => c r + sumOf c rows'
  end.

(** The map of numbers that stands for a map of integers, and maps whose
    integers are natural numbers. *)
Definition lift (m : list (string * Z)) : list (string * float) :=
  map (fun kv => (fst kv, ofZ (snd kv))) m.

Definition nonneg (m : list (string * Z)) : Prop := Forall (fun kv => 0 <= snd kv) m.

(** [p] shifted left by [n] bits, the number of bits of [p], and the
    binary64 number of a positive integer below [2 ^ 53]. *)
Definition shl (p : positive) (n : nat) : positive := Nat.iter n xO p.

Definition dig (p : positive) : Z := Z.pos (digits2_pos p).

Definition canon (s : positive) : spec_float :=
  S754_finite false (shl s (Z.to_nat (53 - dig s))) (dig s - 53).

(** The rows of one category. *)
Definition rowsOf (cat k : string) (rows : list row) : list row :=
  filter (fun r => String.eqb (category cat r) k) rows.

End Shadow.

(** ** The parts of the two-dimension aggregation *)

Module Pivot.
Import JS Data Treatment.

(** The two things the loop of [groupedAgg] fills: the map from a
    category to the map of its groups, and the set of group labels. *)
Definition nested (cat groupBy metric : string) (rows : list row)
  (m : list (string * list (string * float))) : list (string * list (string * float)) :=
  fold_left
    (fun m r =>
       let rowMap := match mapGet m (Shadow.category cat r) with Some rm => rm | None => [] end in
       mapSet m (Shadow.category cat r)
         (mapSet rowMap (Shadow.category groupBy r)
            (getOrZero rowMap (Shadow.category groupBy r) + contribution metric r)%float))
    rows m.

Definition groupLabels (groupBy : string) (rows : list row) (s : list string) : list string :=
  fold_left (fun s r => setAdd s (Shadow.category groupBy r)) rows s.

(** The one-dimension grouping loop started from a given map. *)
Definition groupedFrom (cat metric : string) (rows : list row) (m : list (string * float))
  : list (string * float) :=
  fold_left
    (fun m r => mapSet m (Shadow.category cat r)
                  (getOrZero m (Shadow.category cat r) + contribution metric r)%float)
    rows m.

(** The categories before the limit, and the row written for one. *)
Definition catsOf (m : list (string * list (string * float))) : list catRow :=
  sort (fun a b => (total b - total a)%float)
    (map (fun kv => {| cname := fst kv; total := sum (map snd (snd kv)); parts := snd kv |}) m).

Definition rowOf (cat : string) (groups : list string) (c : catRow) : row :=
  fold_left (fun (rw : row) g => assign rw g (Num (getOrZero (parts c) g)))
    groups [(cat, Str (cname c))].

End Pivot.

(** ** The parts of the colour groups of the scatter chart *)

Module Palette.
Import JS Data Factors Shadow.

(** The bucket a point goes to. *)
Definition bucketKey (top : list string) (colorBy : string) (p : point) : string :=
  if nonempty colorBy then (if includes top (p_c p) then p_c p else "Other") else "All".

(** The parts of [groups] where it returns: the counts of the colours,
    and the colours that keep a bucket of their own, for points none of
    whose colours is a name that objects inherit.  For such a name the
    object [counts] holds no count of its own. *)
Definition colourCounts (pts : list point) : list (string * float) :=
  fold_left
    (fun (counts : list (string * float)) p =>
       mapSet counts (p_c p) (getOrZero counts (p_c p) + 1)%float)
    pts [].

Definition topColours (pts : list point) : list string :=
  map fst (slice0 8 (sort (fun a b => (snd b - snd a)%float) (entries (colourCounts pts)))).

(** The loop that fills the buckets, for a given choice of bucket, and
    the points that choose the bucket [k]. *)
Definition fill (key : point -> string) (pts : list point) (b : list (string * list point))
  : list (string * list point) :=
  fold_left
    (fun (buckets : list (string * list point)) p =>
       mapSet buckets (key p)
         ((match mapGet buckets (key p) with Some l => l | None => [] end) ++ [p])%list)
    pts b.

Definition keyed (key : point -> string) (k : string) (pts : list point) : list point :=
  filter (fun p => String.eqb (key p) k) pts.



End Palette.

(** ** A reader of CSV texts *)

Module Reader.
Import JS Data.

(** Where the reader stands in the field it reads. *)
Inductive mode : Type := FieldStart | Bare | Quoted | QuoteSeen.

(** [cur] is the field read so far and [rec] the fields of the record read
    so far.  Outside quotes a comma ends the field and a line feed the
    record; inside quotes a doubled quote is one quote of the field and a
    single one closes the quotes. *)
Fixpoint readCSV (s : string) (m : mode) (cur : string) (rec : list string)
  : list (list string) :=
  match s with
  | "" => [(rec ++ [cur])%list]
  | String c r =>
      match m with
      | Quoted =>
          if Ascii.eqb c quote then readCSV r QuoteSeen cur rec
          else readCSV r Quoted (cur ++ String c "") rec
      | _ =>
          if Ascii.eqb c "," then readCSV r FieldStart "" (rec ++ [cur])%list
          else if Ascii.eqb c "010" then (rec ++ [cur])%list :: readCSV r FieldStart "" []
          else if Ascii.eqb c quote then
            match m with
            | FieldStart => readCSV r Quoted cur rec
            | QuoteSeen => readCSV r Quoted (cur ++ String quote "") rec
            | _ => readCSV r Bare (cur ++ String c "") rec
            end
          else readCSV r Bare (cur ++ String c "") rec
      end
  end.

Definition parseCSV (s : string) : list (list string) := readCSV s FieldStart "" [].

(** What follows a field: the end of the text, a comma or a line feed;
    and what follows a record: the end of the text or a line feed. *)
Definition atBreak (rest : string) : Prop :=
  match rest with
  | "" => True
  | String c _ => c = ","%char \/ c = "010"%char
  end.

Definition atRecordEnd (rest : string) : Prop :=
  match rest with
  | "" => True
  | String c _ => c = "010"%char
  end.

(** A record as the exporters write it, and the text of a cell as
    [csvSafe] takes it. *)
Definition recordText (fields : list string) : string := join "," (map csvField fields).

Definition cellText (c : cell) : string :=
  match c with Null | Undefined => "" | _ => ToString c end.

(** The fields a reader should find in an export: the header names, then
    the texts of the cells under them. *)
Definition table (A : Type) (cellOf : A -> string -> cell) (headers : list string)
  (data : list A) : list (list string) :=
  headers :: map (fun d => map (fun k => cellText (cellOf d k)) headers) data.

Definition pointsHeaders (x y z colorBy : string) : list string :=
  ([x; y] ++ (if nonempty z then [z] else [])
          ++ (if nonempty colorBy then [colorBy] else []))%list.

(** Names that are written as they are: no quote, comma or line feed. *)
Definition plain (names : list string) : Prop :=
  Forall (fun k => needsQuotes k = false) names.

End Reader.

(** ** Sample inputs *)

Module Samples.
Import JS Data.

(** Four rows with a size column that is missing, unreadable, zero, 7. *)
Definition threeSizes : list row :=
  [ [("a", Str "1"); ("b", Str "2")];
    [("a", Str "2"); ("b", Str "3"); ("s", Str "n/a")];
    [("a", Str "3"); ("b", Str "5"); ("s", Str "0")];
    [("a", Str "4"); ("b", Str "7"); ("s", Num 7)] ].

(** The two rows of the classification example, and a one-row table
    whose only cell reads Infinity. *)
Definition twoRows : list row :=
  [ [("a", Str "1"); ("b", Str "x")];
    [("a", Str "2"); ("b", Str "")] ].

Definition infinityRows : list row := [ [("a", Str "Infinity")] ].

(** Two rows of a series [v] over a label [t]; a host on which no label
    reads as a date. *)
Definition seriesRows : list row :=
  [ [("t", Str "a"); ("v", Str "2")];
    [("t", Str "b"); ("v", Str "4")] ].

Definition noDates (s : string) : option string := None.


(** One scatter point. *)
Definition onePoint : list row := [ [("a", Str "1"); ("b", Str "2")] ].

(** Three categories whose values are 0.3, 0.2 and 0.1. *)
Definition roundingRows : list row :=
  [ [("cat", Str "A"); ("v", Str "0.3")];
    [("cat", Str "B"); ("v", Str "0.2")];
    [("cat", Str "C"); ("v", Str "0.1")] ].

(** Four rows, two of them in a category that is itself called Other. *)
Definition otherRows : list row :=
  [ [("cat", Str "Other")];
    [("cat", Str "Other")];
    [("cat", Str "A")];
    [("cat", Str "B")] ].

(** Four rows over a category [c] and a group [g]. *)
Definition pivotRows : list row :=
  [ [("c", Str "A"); ("g", Str "x")];
    [("c", Str "A"); ("g", Str "y")];
    [("c", Str "B"); ("g", Str "x")];
    [("c", Str "A"); ("g", Str "x")] ].

(** Three categories whose values overflow: two to [Infinity], one to
    [-Infinity]. *)
Definition overflowRows : list row :=
  [ [("cat", Str "P1"); ("v", Str "1e308")]; [("cat", Str "P1"); ("v", Str "1e308")];
    [("cat", Str "P2"); ("v", Str "1e308")]; [("cat", Str "P2"); ("v", Str "1e308")];
    [("cat", Str "P3"); ("v", Str "-1e308")]; [("cat", Str "P3"); ("v", Str "-1e308")] ].

(** Three points of two colours. *)
Definition colouredPoints : list Factors.point :=
  map (fun c => {| Factors.p_x := 0; Factors.p_y := 0; Factors.p_z := 0;
                   Factors.p_c := c; Factors.raw := [] |})
    ["b"; "a"; "b"].

End Samples.

(** * Properties *)

(** ** Facts on binary64 arithmetic *)

Module FloatFacts.
Import JS.

Lemma Prim2SF_nan : Prim2SF nan = S754_nan.
Proof. reflexivity. Qed.

Lemma div_nan_r (x : float) : (x / nan)%float = nan.
Proof.
  apply Prim2SF_inj. rewrite div_spec, Prim2SF_nan.
  destruct (Prim2SF x); reflexivity.
Qed.

Lemma div_nan_l (x : float) : (nan / x)%float = nan.
Proof. apply Prim2SF_inj. rewrite div_spec, Prim2SF_nan. reflexivity. Qed.

Lemma mul_nan_l (x : float) : (nan * x)%float = nan.
Proof. apply Prim2SF_inj. rewrite mul_spec, Prim2SF_nan. reflexivity. Qed.

Lemma sub_nan_r (x : float) : (x - nan)%float = nan.
Proof.
  apply Prim2SF_inj. rewrite sub_spec, Prim2SF_nan.
  destruct (Prim2SF x); reflexivity.
Qed.

Lemma SFcompare_refl (x : spec_float) :
  x <> S754_nan -> SFcompare x x = Some Eq.
Proof.
  destruct x as [s|s| |s m e]; intros H; try congruence.
  - reflexivity.
  - destruct s; reflexivity.
  - cbn. rewrite Z.compare_refl.
    assert (Hm : Pos.compare_cont Eq m m = Eq) by apply Pos.compare_refl.
    rewrite Hm. destruct s; reflexivity.
Qed.

(** The only number that is not equal to itself is the sentinel. *)
Lemma isNaN_nan (x : float) : isNaN x = true -> x = nan.
Proof.
  unfold isNaN, is_nan. rewrite eqb_spec. unfold SFeqb. intros H.
  apply Prim2SF_inj. rewrite Prim2SF_nan.
  destruct (Prim2SF x) eqn:E; try reflexivity;
    rewrite SFcompare_refl in H by congruence; discriminate H.
Qed.

Lemma isNaN_false_not_nan (x : float) : isNaN x = false -> x <> nan.
Proof. intros H ->. discriminate H. Qed.

End FloatFacts.

(** ** Exact sums of counts *)

Module ExactFacts.
Import JS Shadow.

Lemma shl_S p n : shl p (S n) = xO (shl p n).
Proof. reflexivity. Qed.

Lemma shl_add p n m : shl (shl p n) m = shl p (n + m).
Proof. unfold shl. rewrite Nat.add_comm. symmetry. apply Nat.iter_add. Qed.

Lemma shl_Z p n : Z.pos (shl p n) = Z.pos p * 2 ^ Z.of_nat n.
Proof.
  induction n as [|n IH]; [cbn; lia|].
  rewrite shl_S, Nat2Z.inj_succ, Z.pow_succ_r by lia.
  rewrite Pos2Z.inj_xO, IH. lia.
Qed.

Lemma digits_shl p n :
  Z.pos (digits2_pos (shl p n)) = Z.pos (digits2_pos p) + Z.of_nat n.
Proof.
  induction n as [|n IH]; [cbn; lia|].
  rewrite shl_S. cbn [digits2_pos]. rewrite Pos2Z.inj_succ, IH. lia.
Qed.

Lemma Pos_iter_shl p k : Pos.iter xO p k = shl p (Pos.to_nat k).
Proof. unfold shl. apply Pos2Nat.inj_iter. Qed.

Lemma iter_pos_nat (A : Type) (f : A -> A) (n : positive) (x : A) :
  SpecFloat.iter_pos f n x = Nat.iter (Pos.to_nat n) f x.
Proof.
  revert x. induction n as [n IH|n IH|]; intros x; cbn [SpecFloat.iter_pos].
  - rewrite !IH, Pos2Nat.inj_xI.
    replace (S (2 * Pos.to_nat n)) with (Pos.to_nat n + (Pos.to_nat n + 1))%nat by lia.
    rewrite !Nat.iter_add. reflexivity.
  - rewrite !IH, Pos2Nat.inj_xO.
    replace (2 * Pos.to_nat n)%nat with (Pos.to_nat n + Pos.to_nat n)%nat by lia.
    rewrite Nat.iter_add. reflexivity.
  - reflexivity.
Qed.

Lemma shr_shl (q : positive) (n : nat) :
  Nat.iter n shr_1 {| shr_m := Z.pos (shl q n); shr_r := false; shr_s := false |}
  = {| shr_m := Z.pos q; shr_r := false; shr_s := false |}.
Proof.
  induction n as [|n IH]; [reflexivity|].
  rewrite Nat.iter_succ_r, shl_S. cbn [shr_1 orb]. exact IH.
Qed.

Lemma digits_bound (p : positive) :
  2 ^ (Z.pos (digits2_pos p) - 1) <= Z.pos p < 2 ^ Z.pos (digits2_pos p).
Proof.
  induction p as [p IH|p IH|]; cbn [digits2_pos]; [| |cbn; lia];
    rewrite Pos2Z.inj_succ;
    replace (Z.succ (Z.pos (digits2_pos p)) - 1) with (Z.succ (Z.pos (digits2_pos p) - 1)) by lia;
    rewrite !Z.pow_succ_r by lia; lia.
Qed.

Lemma digits_le_53 (p : positive) : Z.pos p < 2 ^ 53 -> Z.pos (digits2_pos p) <= 53.
Proof.
  intros H. destruct (Z.le_gt_cases (Z.pos (digits2_pos p)) 53) as [L|G]; [exact L|].
  pose proof (digits_bound p) as [Hlo _].
  assert (2 ^ 53 <= 2 ^ (Z.pos (digits2_pos p) - 1)) by (apply Z.pow_le_mono_r; lia).
  lia.
Qed.

Lemma dig_pos p : 1 <= dig p.
Proof. unfold dig. lia. Qed.

(** Rounding a mantissa of 53 bits followed by [n] zero bits is exact. *)
Lemma round_aux_exact (q : positive) (n : nat) (e : Z) :
  dig q = 53 -> -1074 <= e + Z.of_nat n <= 971 ->
  binary_round_aux prec emax false (Z.pos (shl q n)) e loc_Exact
  = S754_finite false q (e + Z.of_nat n).
Proof.
  intros Hd He. unfold dig in Hd.
  unfold binary_round_aux, shr_fexp. cbn [Zdigits2 shr_record_of_loc].
  rewrite digits_shl, Hd.
  replace (fexp prec emax (53 + Z.of_nat n + e) - e) with (Z.of_nat n)
    by (unfold fexp, SpecFloat.emin, prec, emax; lia).
  assert (Hs : shr {| shr_m := Z.pos (shl q n); shr_r := false; shr_s := false |} e (Z.of_nat n)
               = ({| shr_m := Z.pos q; shr_r := false; shr_s := false |}, e + Z.of_nat n)).
  { destruct n as [|n'].
    - cbn. f_equal. lia.
    - rewrite Nat2Z.inj_succ, <- Zpos_P_of_succ_nat. cbn [shr].
      rewrite iter_pos_nat, SuccNat2Pos.id_succ, shr_shl. reflexivity. }
  rewrite Hs. cbn [shr_m loc_of_shr_record round_nearest_even Zdigits2 shr_record_of_loc].
  rewrite Hd.
  replace (fexp prec emax (53 + (e + Z.of_nat n)) - (e + Z.of_nat n)) with 0
    by (unfold fexp, SpecFloat.emin, prec, emax; lia).
  cbn [shr shr_m].
  replace (e + Z.of_nat n <=? emax - prec) with true
    by (symmetry; apply Z.leb_le; unfold prec, emax; lia).
  reflexivity.
Qed.

Lemma round_aux_canonical (q : positive) (e : Z) :
  dig q = 53 -> -1074 <= e <= 971 ->
  binary_round_aux prec emax false (Z.pos q) e loc_Exact = S754_finite false q e.
Proof.
  intros Hd He. pose proof (@round_aux_exact q 0 e Hd ltac:(cbn; lia)) as R.
  change (shl q 0) with q in R. rewrite R. f_equal. cbn. lia.
Qed.

Lemma shl_align_shl (m : positive) (e e' : Z) :
  e' <= e -> shl_align m e e' = (shl m (Z.to_nat (e - e')), Z.min e e').
Proof.
  intros H. unfold shl_align. destruct (e' - e) as [|d|d] eqn:E; try lia.
  - replace (e - e') with 0 by lia. cbn. f_equal. lia.
  - rewrite Pos_iter_shl. f_equal; [|lia]. f_equal. lia.
Qed.

Lemma shl_align_id (m : positive) (e e' : Z) :
  e <= e' -> shl_align m e e' = (m, e).
Proof.
  intros H. unfold shl_align. destruct (e' - e) as [|d|d] eqn:E; try lia; reflexivity.
Qed.

Lemma round_shl (s : positive) (k : nat) :
  dig s <= 53 ->
  binary_round prec emax false (shl s k) (- Z.of_nat k) = canon s.
Proof.
  intros Hd. pose proof (dig_pos s) as Hp. unfold canon.
  unfold binary_round. rewrite digits_shl. fold (dig s).
  replace (fexp prec emax (dig s + Z.of_nat k + - Z.of_nat k)) with (dig s - 53)
    by (unfold fexp, SpecFloat.emin, prec, emax; lia).
  destruct (Z.le_gt_cases (dig s - 53) (- Z.of_nat k)) as [L|G].
  - (* fewer than 53 bits so far: the mantissa is shifted left *)
    rewrite shl_align_shl by exact L. rewrite shl_add.
    replace (k + Z.to_nat (- Z.of_nat k - (dig s - 53)))%nat with (Z.to_nat (53 - dig s)) by lia.
    replace (Z.min (- Z.of_nat k) (dig s - 53)) with (dig s - 53) by lia.
    rewrite round_aux_canonical.
    + reflexivity.
    + unfold dig. rewrite digits_shl. fold (dig s). lia.
    + lia.
  - rewrite shl_align_id by lia.
    replace (shl s k) with (shl (shl s (Z.to_nat (53 - dig s))) (k - Z.to_nat (53 - dig s)))
      by (rewrite shl_add; f_equal; lia).
    rewrite round_aux_exact.
    + f_equal. lia.
    + unfold dig. rewrite digits_shl. fold (dig s). lia.
    + lia.
Qed.

Lemma normalize_canon (p : positive) :
  Z.pos p < 2 ^ 53 -> binary_normalize prec emax (Z.pos p) 0 false = canon p.
Proof.
  intros H. apply digits_le_53 in H. cbn [binary_normalize].
  exact (@round_shl p 0 H).
Qed.

Lemma canon_valid (p : positive) : dig p <= 53 -> valid_binary (canon p) = true.
Proof.
  intros H. pose proof (dig_pos p). unfold canon. cbn [SpecFloat.valid_binary].
  unfold bounded, canonical_mantissa. rewrite digits_shl. fold (dig p).
  apply andb_true_intro. split.
  - apply Z.eqb_eq. unfold fexp, SpecFloat.emin, prec, emax. lia.
  - apply Z.leb_le. unfold prec, emax. lia.
Qed.

Lemma SFadd_canon (a b : positive) :
  Z.pos a + Z.pos b < 2 ^ 53 ->
  SFadd prec emax (canon a) (canon b) = canon (a + b).
Proof.
  intros H.
  assert (Ha : dig a <= 53) by (apply digits_le_53; lia).
  assert (Hb : dig b <= 53) by (apply digits_le_53; lia).
  assert (Hs : dig (a + b) <= 53) by (apply digits_le_53; lia).
  pose proof (dig_pos a). pose proof (dig_pos b).
  unfold canon at 1 2. cbn [SFadd cond_Zopp]. cbv zeta.
  rewrite !shl_align_shl by lia. cbn [fst]. rewrite !shl_add.
  set (ez := Z.min (dig a - 53) (dig b - 53)).
  replace (Z.to_nat (53 - dig a) + Z.to_nat (dig a - 53 - ez))%nat with (Z.to_nat (- ez)) by lia.
  replace (Z.to_nat (53 - dig b) + Z.to_nat (dig b - 53 - ez))%nat with (Z.to_nat (- ez)) by lia.
  assert (E : Z.pos (shl a (Z.to_nat (- ez))) + Z.pos (shl b (Z.to_nat (- ez)))
              = Z.pos (shl (a + b) (Z.to_nat (- ez)))).
  { rewrite !shl_Z, Pos2Z.inj_add. lia. }
  rewrite E. cbn [binary_normalize].
  replace ez with (- Z.of_nat (Z.to_nat (- ez))) at 2 by lia.
  now apply round_shl.
Qed.

(** Addition of two naturals whose sum is below [2 ^ 53] is exact. *)
Lemma ofZ_add (a b : Z) :
  0 <= a -> 0 <= b -> a + b < 2 ^ 53 -> (ofZ a + ofZ b)%float = ofZ (a + b).
Proof.
  intros Ha Hb H. apply Prim2SF_inj. rewrite add_spec. unfold ofZ.
  assert (V : forall z, 0 <= z < 2 ^ 53 ->
              Prim2SF (SF2Prim (binary_normalize prec emax z 0 false))
              = binary_normalize prec emax z 0 false).
  { intros z Hz. apply Prim2SF_SF2Prim. destruct z as [|p|p]; [reflexivity| |lia].
    rewrite normalize_canon by lia. apply canon_valid, digits_le_53. lia. }
  rewrite !V by lia. unfold SF64add.
  destruct a as [|pa|pa], b as [|pb|pb]; try lia.
  - reflexivity.
  - cbn [Z.add]. rewrite normalize_canon by lia. reflexivity.
  - rewrite Z.add_0_r. rewrite normalize_canon by lia. reflexivity.
  - rewrite <- Pos2Z.inj_add. rewrite !normalize_canon by lia. now apply SFadd_canon.
Qed.

Lemma Prim2SF_ofZ_pos (p : positive) :
  Z.pos p < 2 ^ 53 -> Prim2SF (ofZ (Z.pos p)) = canon p.
Proof.
  intros H. unfold ofZ. rewrite normalize_canon by exact H.
  apply Prim2SF_SF2Prim, canon_valid, digits_le_53, H.
Qed.

(** A positive count is truthy. *)
Lemma truthy_ofZ (z : Z) : 0 < z < 2 ^ 53 -> truthy (ofZ z) = true.
Proof.
  intros H. destruct z as [|p|p]; try lia.
  unfold truthy, isNaN, is_zero, is_nan. rewrite !eqb_spec, Prim2SF_ofZ_pos by lia.
  change (Prim2SF zero) with (S754_zero false).
  unfold SFeqb. rewrite FloatFacts.SFcompare_refl by (unfold canon; discriminate).
  reflexivity.
Qed.

End ExactFacts.

(** ** Insertion-ordered maps *)

Module MapFacts.
Import JS Data.

Section Maps.
Variable V : Type.
Implicit Types (m : list (string * V)) (k : string) (v : V).

Lemma mapGet_mapSet_eq m k v : mapGet (mapSet m k v) k = Some v.
Proof.
  induction m as [|[k' v'] m IH]; cbn.
  - now rewrite String.eqb_refl.
  - destruct (String.eqb k' k) eqn:E; cbn.
    + now rewrite String.eqb_refl.
    + now rewrite E.
Qed.

Lemma mapGet_mapSet_neq m k k2 v : k <> k2 -> mapGet (mapSet m k v) k2 = mapGet m k2.
Proof.
  intros Hne. apply String.eqb_neq in Hne.
  induction m as [|[k' v'] m IH]; cbn.
  - now rewrite Hne.
  - destruct (String.eqb k' k) eqn:E; cbn.
    + apply String.eqb_eq in E. subst k'. now rewrite Hne.
    + now rewrite IH.
Qed.

Lemma mapSet_keys_in m k v k2 :
  In k2 (map fst (mapSet m k v)) <-> k2 = k \/ In k2 (map fst m).
Proof.
  induction m as [|[k' v'] m IH]; cbn.
  - intuition congruence.
  - destruct (String.eqb k' k) eqn:E; cbn.
    + apply String.eqb_eq in E. subst k'. intuition congruence.
    + rewrite IH. intuition congruence.
Qed.

Lemma mapGet_None m k : mapGet m k = None <-> ~ In k (map fst m).
Proof.
  induction m as [|[k' v'] m IH]; cbn; [tauto|].
  destruct (String.eqb k' k) eqn:E.
  - apply String.eqb_eq in E. subst k'. split; [discriminate | tauto].
  - apply String.eqb_neq in E. rewrite IH. tauto.
Qed.

Lemma mapSet_keys_NoDup m k v : NoDup (map fst m) -> NoDup (map fst (mapSet m k v)).
Proof.
  induction m as [|[k' v'] m IH]; cbn; intros H.
  - constructor; [intros [] | constructor].
  - inversion H as [|? ? Hn Hd]; subst.
    destruct (String.eqb k' k) eqn:E; cbn.
    + apply String.eqb_eq in E. subst k'. now constructor.
    + constructor; [|now apply IH].
      rewrite mapSet_keys_in. apply String.eqb_neq in E. intuition congruence.
Qed.

End Maps.

Lemma get_mapSet_eq (d : row) (k : string) (v : cell) : get (mapSet d k v) k = v.
Proof.
  induction d as [|[k' v'] d IH]; cbn.
  - now rewrite String.eqb_refl.
  - destruct (String.eqb k' k) eqn:E; cbn.
    + now rewrite String.eqb_refl.
    + now rewrite E.
Qed.

Lemma get_mapSet_neq (d : row) (k k2 : string) (v : cell) :
  k <> k2 -> get (mapSet d k v) k2 = get d k2.
Proof.
  intros Hne. apply String.eqb_neq in Hne.
  induction d as [|[k' v'] d IH]; cbn.
  - now rewrite Hne.
  - destruct (String.eqb k' k) eqn:E; cbn.
    + apply String.eqb_eq in E. subst k'. now rewrite Hne.
    + now rewrite IH.
Qed.

(** A loop that sets one key after the other leaves, at a key it went
    through, what was set there, and the rest as it was. *)
Lemma get_fold_mapSet (f : string -> cell) (ys : list string) (key : string) :
  forall d : row,
    get (fold_left (fun d k => mapSet d k (f k)) ys d) key
    = if includes ys key then f key else get d key.
Proof.
  induction ys as [|a ys IH]; intros d; [reflexivity|].
  cbn [fold_left]. rewrite IH. unfold includes. cbn [existsb].
  fold (includes ys key). destruct (includes ys key); [now rewrite orb_true_r|].
  rewrite orb_false_r. destruct (String.eqb key a) eqn:E.
  - apply String.eqb_eq in E. subst a. apply get_mapSet_eq.
  - apply String.eqb_neq in E. apply get_mapSet_neq. congruence.
Qed.

Lemma own_mapSet (d : row) (k k2 : string) (v : cell) :
  own (mapSet d k v) k2 = String.eqb k2 k || own d k2.
Proof.
  unfold own, includes. induction d as [|[k' v'] d IH]; cbn [mapSet map fst existsb].
  - reflexivity.
  - destruct (String.eqb k' k) eqn:E; cbn [map fst existsb].
    + apply String.eqb_eq in E. subst k'. now destruct (String.eqb k2 k).
    + rewrite IH. destruct (String.eqb k2 k'), (String.eqb k2 k); reflexivity.
Qed.

(** Whether a name is stored does not change with what is assigned. *)
Lemma ignored_assign (d : row) (k k2 : string) (v : cell) :
  ignored (assign d k v) k2 = ignored d k2.
Proof.
  unfold assign. destruct (ignored d k) eqn:Ek; [reflexivity|].
  unfold ignored in *. rewrite own_mapSet.
  destruct (String.eqb_spec k2 k) as [-> | Hne]; cbn [orb negb]; [|reflexivity].
  rewrite andb_false_r. now rewrite Ek.
Qed.

Lemma get_assign_eq (d : row) (k : string) (v : cell) :
  get (assign d k v) k = if ignored d k then get d k else v.
Proof. unfold assign. destruct (ignored d k); [reflexivity | apply get_mapSet_eq]. Qed.

Lemma get_assign_neq (d : row) (k k2 : string) (v : cell) :
  k <> k2 -> get (assign d k v) k2 = get d k2.
Proof.
  intros Hne. unfold assign. destruct (ignored d k); [reflexivity | now apply get_mapSet_neq].
Qed.

(** A loop that assigns one key after the other leaves, at a key it went
    through and that is stored, what was assigned there, and the rest as
    it was. *)
Lemma get_fold_assign (f : string -> cell) (ys : list string) (key : string) :
  forall d : row,
    get (fold_left (fun d k => assign d k (f k)) ys d) key
    = if includes ys key && negb (ignored d key) then f key else get d key.
Proof.
  induction ys as [|a ys IH]; intros d; [reflexivity|].
  cbn [fold_left]. rewrite IH, ignored_assign. unfold includes. cbn [existsb].
  fold (includes ys key).
  destruct (String.eqb_spec key a) as [<- | Hne]; cbn [orb].
  - rewrite get_assign_eq. destruct (ignored d key); cbn [negb];
      [now rewrite !andb_false_r | now rewrite !andb_true_r; destruct (includes ys key)].
  - rewrite get_assign_neq by congruence. reflexivity.
Qed.

Lemma own_fold_assign (f : string -> cell) (ys : list string) (key : string) :
  forall d : row,
    own (fold_left (fun d k => assign d k (f k)) ys d) key
    = own d key || (includes ys key && negb (ignored d key)).
Proof.
  induction ys as [|a ys IH]; intros d.
  - cbn. now rewrite orb_false_r.
  - cbn [fold_left]. rewrite IH, ignored_assign. unfold includes. cbn [existsb].
    fold (includes ys key). unfold assign at 1.
    destruct (ignored d a) eqn:Ea.
    + destruct (String.eqb_spec key a) as [-> | Hne]; cbn [orb]; [|reflexivity].
      rewrite Ea. cbn [negb]. now rewrite !andb_false_r.
    + rewrite own_mapSet.
      destruct (String.eqb_spec key a) as [-> | Hne]; cbn [orb]; [|reflexivity].
      rewrite Ea. cbn [negb]. rewrite andb_true_r. now destruct (own d a).
Qed.

Lemma not_proto_stored (d : row) (k : string) : k <> "__proto__" -> ignored d k = false.
Proof. intros H. unfold ignored. apply String.eqb_neq in H. now rewrite H. Qed.

End MapFacts.

(** ** Aggregation *)

Module AggFacts.
Import JS Data Spec Shadow Treatment MapFacts ExactFacts.

Lemma insert_perm (A : Type) (cmp : A -> A -> float) (x : A) (l : list A) :
  Permutation (insert cmp x l) (x :: l).
Proof.
  induction l as [|y l IH]; cbn [insert]; [reflexivity|].
  destruct (0 <? cmp x y)%float; [|reflexivity].
  eapply perm_trans; [apply perm_skip, IH | apply perm_swap].
Qed.

Lemma sort_perm (A : Type) (cmp : A -> A -> float) (l : list A) :
  Permutation (sort cmp l) l.
Proof.
  induction l as [|x l IH]; cbn [sort fold_right]; [constructor|].
  eapply perm_trans; [apply insert_perm | apply perm_skip, IH].
Qed.

(** *** The keys of the grouping map *)

Lemma grouped_keys_gen (cat metric : string) (rows : list row) (m : list (string * float)) :
  NoDup (map fst m) ->
  let m' := fold_left
              (fun m r => mapSet m (category cat r)
                            (getOrZero m (category cat r) + contribution metric r)%float)
              rows m in
  NoDup (map fst m')
  /\ forall k, In k (map fst m') <-> In k (map fst m) \/ In k (map (category cat) rows).
Proof.
  revert m. induction rows as [|r rows IH]; intros m Hnd; cbn [fold_left map].
  - split; [exact Hnd | intros k; cbn; tauto].
  - destruct (IH (mapSet m (category cat r)
                    (getOrZero m (category cat r) + contribution metric r)%float)
                 (mapSet_keys_NoDup _ _ _ Hnd)) as [H1 H2].
    split; [exact H1|]. intros k. rewrite H2, mapSet_keys_in. cbn [In].
    intuition congruence.
Qed.

Lemma grouped_keys (cat metric : string) (rows : list row) :
  NoDup (map fst (grouped cat metric rows))
  /\ forall k, In k (map fst (grouped cat metric rows)) <-> In k (map (category cat) rows).
Proof.
  destruct (@grouped_keys_gen cat metric rows [] (NoDup_nil _)) as [H1 H2].
  split; [exact H1|]. intros k. rewrite (H2 k). cbn. tauto.
Qed.

(** *** Integer contributions *)

Lemma lift_mapSet (m : list (string * Z)) (k : string) (v : Z) :
  mapSet (lift m) k (ofZ v) = lift (mapSet m k v).
Proof.
  induction m as [|[k' v'] m IH]; [reflexivity|].
  cbn [lift map mapSet fst snd]. destruct (String.eqb k' k); [reflexivity|].
  cbn [map fst snd]. f_equal. exact IH.
Qed.

Lemma mapGet_lift (m : list (string * Z)) (k : string) :
  mapGet (lift m) k = option_map ofZ (mapGet m k).
Proof.
  induction m as [|[k' v'] m IH]; [reflexivity|].
  cbn [lift map mapGet fst snd]. destruct (String.eqb k' k); [reflexivity | exact IH].
Qed.

Lemma totalZ_nonneg (m : list (string * Z)) : nonneg m -> 0 <= totalZ m.
Proof.
  induction 1 as [|kv m H _ IH]; cbn [totalZ fold_right]; [lia|].
  fold (totalZ m). lia.
Qed.

Lemma getZ_bound (m : list (string * Z)) (k : string) :
  nonneg m -> 0 <= getZ m k <= totalZ m.
Proof.
  unfold getZ. induction 1 as [|[k' v'] m H Hm IH]; cbn [mapGet totalZ fold_right]; [lia|].
  fold (totalZ m). cbn [snd] in *. pose proof (totalZ_nonneg Hm).
  destruct (String.eqb k' k); lia.
Qed.

Lemma totalZ_mapSet (m : list (string * Z)) (k : string) (x : Z) :
  totalZ (mapSet m k (getZ m k + x)) = totalZ m + x.
Proof.
  unfold getZ. induction m as [|[k' v'] m IH]; cbn [mapSet mapGet totalZ fold_right snd].
  - lia.
  - destruct (String.eqb k' k); cbn [totalZ fold_right snd]; fold (totalZ m).
    + lia.
    + fold (totalZ (mapSet m k (match mapGet m k with Some v => v | None => 0 end + x))).
      rewrite IH. lia.
Qed.

Lemma nonneg_mapSet (m : list (string * Z)) (k : string) (v : Z) :
  nonneg m -> 0 <= v -> nonneg (mapSet m k v).
Proof.
  intros Hm Hv. induction Hm as [|[k' v'] m H Hm IH]; cbn [mapSet].
  - constructor; [exact Hv | constructor].
  - destruct (String.eqb k' k); constructor; assumption.
Qed.

Lemma getOrZero_lift (m : list (string * Z)) (k : string) :
  nonneg m -> totalZ m < 2 ^ 53 -> getOrZero (lift m) k = ofZ (getZ m k).
Proof.
  intros Hm Ht. pose proof (getZ_bound k Hm) as Hb.
  unfold getOrZero, getZ in *. rewrite mapGet_lift.
  destruct (mapGet m k) as [z|]; cbn [option_map]; [|reflexivity].
  destruct (Z.eq_dec z 0) as [-> | Hz]; [reflexivity|].
  now rewrite truthy_ofZ by lia.
Qed.

Section Contributions.
Variables (cat metric : string) (c : row -> Z).

Lemma grouped_shadow (rows : list row) :
  forall m : list (string * Z),
    nonneg m ->
    (forall r, In r rows -> 0 <= c r /\ contribution metric r = ofZ (c r)) ->
    totalZ m + sumOf c rows < 2 ^ 53 ->
    fold_left
      (fun m r => mapSet m (category cat r)
                    (getOrZero m (category cat r) + contribution metric r)%float)
      rows (lift m)
    = lift (groupedZ c cat rows m)
    /\ nonneg (groupedZ c cat rows m)
    /\ totalZ (groupedZ c cat rows m) = totalZ m + sumOf c rows.
Proof.
  induction rows as [|r rows IH]; intros m Hm Hc Ht; cbn [fold_left groupedZ sumOf fold_right] in *.
  - repeat split; [exact Hm | lia].
  - fold (sumOf c rows) in *. fold (groupedZ c cat rows).
    destruct (Hc r (or_introl eq_refl)) as [Hr0 Hr].
    pose proof (getZ_bound (category cat r) Hm) as Hb.
    pose proof (totalZ_nonneg Hm) as Hm0.
    assert (Hs : 0 <= sumOf c rows).
    { clear - Hc. induction rows as [|r' rows IH]; cbn [sumOf fold_right]; [lia|].
      fold (sumOf c rows). destruct (Hc r' (or_intror (or_introl eq_refl))).
      assert (0 <= sumOf c rows) by (apply IH; intros r0 [H1|H1]; apply Hc; [now left | right; now right]).
      lia. }
    rewrite (getOrZero_lift _ Hm) by lia.
    rewrite Hr, ofZ_add by lia. rewrite lift_mapSet.
    destruct (IH (mapSet m (category cat r) (getZ m (category cat r) + c r))) as (E & Hn & Htot).
    + apply nonneg_mapSet; [exact Hm | lia].
    + intros r0 H0. apply Hc. now right.
    + rewrite totalZ_mapSet. lia.
    + rewrite E. repeat split; [exact Hn|].
      unfold groupedZ in Htot. rewrite Htot, totalZ_mapSet. lia.
Qed.

End Contributions.

Lemma totalZ_app (l1 l2 : list (string * Z)) : totalZ (l1 ++ l2) = totalZ l1 + totalZ l2.
Proof.
  induction l1 as [|kv l1 IH]; cbn [app totalZ fold_right]; [lia|].
  fold (totalZ (l1 ++ l2)) (totalZ l1). lia.
Qed.

Lemma totalZ_perm (l1 l2 : list (string * Z)) : Permutation l1 l2 -> totalZ l1 = totalZ l2.
Proof.
  induction 1 as [|kv l1 l2 _ IH|a b l|l1 l2 l3 _ IH1 _ IH2]; cbn [totalZ fold_right].
  - reflexivity.
  - fold (totalZ l1) (totalZ l2). lia.
  - fold (totalZ l). lia.
  - congruence.
Qed.

(** The sum of the values of integer buckets is the integer sum. *)
Lemma sumValues_shadow (l : list (string * Z)) :
  forall acc : Z,
    nonneg l -> 0 <= acc -> acc + totalZ l < 2 ^ 53 ->
    fold_left (fun a b => (a + value b)%float) (map bucketZ l) (ofZ acc)
    = ofZ (acc + totalZ l).
Proof.
  induction l as [|kv l IH]; intros acc Hl Ha Ht; cbn [map fold_left totalZ fold_right] in *.
  - f_equal. lia.
  - fold (totalZ l) in *. inversion Hl as [|? ? Hkv Hl']; subst.
    pose proof (totalZ_nonneg Hl').
    cbn [bucketZ value]. rewrite ofZ_add by lia. rewrite IH by (assumption || lia).
    f_equal. lia.
Qed.

Lemma sumValues_bucketZ (l : list (string * Z)) :
  nonneg l -> totalZ l < 2 ^ 53 -> sumValues (map bucketZ l) = ofZ (totalZ l).
Proof.
  intros Hl Ht. unfold sumValues. change 0%float with (ofZ 0).
  now rewrite sumValues_shadow by (assumption || lia).
Qed.

Section Host.
Variable localeCompare : string -> string -> float.

(** Without a limit, the buckets are the entries of the grouping map in
    some order. *)
Lemma baseAgg_unlimited (rows : list row) (cat metric sortBy : string) :
  nonempty cat = true ->
  Permutation (baseAgg localeCompare rows cat metric sortBy 0)
    (map (fun kv => {| name := fst kv; value := snd kv |}) (grouped cat metric rows)).
Proof.
  intros Hc. unfold baseAgg. rewrite Hc. cbn [negb Z.ltb Z.compare andb]. apply sort_perm.
Qed.

(** The limit applied to the unlimited result. *)
Lemma baseAgg_collapse (rows : list row) (cat metric sortBy : string) (topN : Z) :
  0 < topN ->
  let full := baseAgg localeCompare rows cat metric sortBy 0 in
  baseAgg localeCompare rows cat metric sortBy topN
  = if topN <? Z.of_nat (List.length full)
    then (firstn (Z.to_nat topN) full
          ++ [{| name := "Other"; value := sumValues (skipn (Z.to_nat topN) full) |}])%list
    else full.
Proof.
  intros Hn. unfold baseAgg. destruct (nonempty cat); cbn [negb].
  - cbn [Z.ltb Z.compare andb]. cbv zeta.
    replace (0 <? topN) with true by (symmetry; apply Z.ltb_lt; exact Hn).
    reflexivity.
  - cbv zeta. cbn [List.length]. now replace (topN <? Z.of_nat 0) with false
      by (symmetry; apply Z.ltb_ge; cbn; lia).
Qed.

Lemma sumValues_app (l1 l2 : list bucket) (a : float) :
  fold_left (fun a b => (a + value b)%float) (l1 ++ l2)%list a
  = fold_left (fun a b => (a + value b)%float) l2
      (fold_left (fun a b => (a + value b)%float) l1 a).
Proof. apply fold_left_app. Qed.

(** With integer contributions the unlimited buckets hold exact sums. *)
Lemma baseAgg_exact (rows : list row) (cat metric sortBy : string) (c : row -> Z) :
  nonempty cat = true ->
  (forall r, In r rows -> 0 <= c r /\ contribution metric r = ofZ (c r)) ->
  sumOf c rows < 2 ^ 53 ->
  exists L,
    baseAgg localeCompare rows cat metric sortBy 0 = map bucketZ L
    /\ nonneg L /\ totalZ L = sumOf c rows.
Proof.
  intros Hcat Hc Ht.
  pose proof (@baseAgg_unlimited rows cat metric sortBy Hcat) as HP.
  destruct (@grouped_shadow cat metric c rows [] (Forall_nil _) Hc Ht) as (E & Hn & Htot).
  change (fold_left _ rows (lift [])) with (grouped cat metric rows) in E.
  rewrite E in HP. unfold lift in HP. rewrite map_map in HP.
  change (map _ (groupedZ c cat rows [])) with (map bucketZ (groupedZ c cat rows [])) in HP.
  apply Permutation_map_inv in HP. destruct HP as (L & EL & PL).
  exists L. repeat split.
  - exact EL.
  - unfold nonneg. now rewrite <- PL.
  - rewrite <- (totalZ_perm PL). exact Htot.
Qed.

Lemma totalValue_exact (rows : list row) (cat metric sortBy : string) (topN : Z)
  (c : row -> Z) :
  0 < topN ->
  (forall r, In r rows -> 0 <= c r /\ contribution metric r = ofZ (c r)) ->
  sumOf c rows < 2 ^ 53 ->
  totalValue localeCompare rows cat metric sortBy topN
  = totalValue localeCompare rows cat metric sortBy 0.
Proof.
  intros Hn Hc Ht. unfold totalValue. rewrite (@baseAgg_collapse rows cat metric sortBy topN Hn).
  cbv zeta. destruct (nonempty cat) eqn:Hcat.
  - destruct (@baseAgg_exact rows cat metric sortBy c Hcat Hc Ht) as (L & -> & HL & HtL).
    destruct (topN <? Z.of_nat (List.length (map bucketZ L))); [|reflexivity].
    unfold sumValues at 1. rewrite sumValues_app. cbn [fold_left value].
    fold (sumValues (firstn (Z.to_nat topN) (map bucketZ L))).
    rewrite firstn_map, skipn_map.
    pose proof (firstn_skipn (Z.to_nat topN) L) as Hsplit.
    assert (H1 : nonneg (firstn (Z.to_nat topN) L) /\ nonneg (skipn (Z.to_nat topN) L)).
    { unfold nonneg in *. rewrite <- Hsplit in HL. now apply Forall_app in HL. }
    destruct H1 as [H1 H2].
    pose proof (totalZ_nonneg H1). pose proof (totalZ_nonneg H2).
    assert (Hsum : totalZ (firstn (Z.to_nat topN) L) + totalZ (skipn (Z.to_nat topN) L)
                   = totalZ L) by (rewrite <- totalZ_app; now rewrite Hsplit).
    rewrite !sumValues_bucketZ by (assumption || lia).
    rewrite ofZ_add by lia. now rewrite Hsum.
  - assert (E0 : baseAgg localeCompare rows cat metric sortBy 0 = [])
      by (unfold baseAgg; now rewrite Hcat).
    rewrite E0. cbn [List.length].
    now replace (topN <? Z.of_nat 0) with false by (symmetry; apply Z.ltb_ge; cbn; lia).
Qed.

Lemma sumOf_count (rows : list row) : sumOf (fun _ => 1) rows = Z.of_nat (List.length rows).
Proof.
  induction rows as [|r rows IH]; [reflexivity|].
  cbn [sumOf List.length]. rewrite IH. lia.
Qed.

(** C1, as the code has it. With a limit [topN > 0] the result is the
    first [topN] buckets of the unlimited result followed by a bucket
    Other that holds the sum of the other values, added from the left
    (the unlimited result itself when it has no more than [topN] buckets);
    its total is the sum of the kept values plus that of the collapsed
    ones.  This total is the unlimited total whenever every row adds a
    natural number and these add up to less than [2 ^ 53], as with the
    metric count on fewer than [2 ^ 53] rows. *)
Theorem topN_total_mass (rows : list row) (cat metric sortBy : string) (topN : Z) :
  0 < topN ->
  let full := baseAgg localeCompare rows cat metric sortBy 0 in
  let n := Z.to_nat topN in
  baseAgg localeCompare rows cat metric sortBy topN
  = (if topN <? Z.of_nat (List.length full)
     then (firstn n full ++ [{| name := "Other"; value := sumValues (skipn n full) |}])%list
     else full)
  /\ totalValue localeCompare rows cat metric sortBy topN
     = (if topN <? Z.of_nat (List.length full)
        then (sumValues (firstn n full) + sumValues (skipn n full))%float
        else totalValue localeCompare rows cat metric sortBy 0)
  /\ (forall c : row -> Z,
        (forall r, In r rows -> 0 <= c r /\ contribution metric r = ofZ (c r)) ->
        sumOf c rows < 2 ^ 53 ->
        totalValue localeCompare rows cat metric sortBy topN
        = totalValue localeCompare rows cat metric sortBy 0)
  /\ (Z.of_nat (List.length rows) < 2 ^ 53 ->
      totalValue localeCompare rows cat "count" sortBy topN
      = totalValue localeCompare rows cat "count" sortBy 0).
Proof.
  intros Hn full n.
  split; [apply (@baseAgg_collapse rows cat metric sortBy topN Hn)|].
  split; [|split].
  - unfold totalValue. rewrite (@baseAgg_collapse rows cat metric sortBy topN Hn). cbv zeta.
    fold full. fold n. destruct (topN <? Z.of_nat (List.length full)); [|reflexivity].
    unfold sumValues at 1. rewrite sumValues_app. reflexivity.
  - intros c Hc Ht. now apply totalValue_exact with (c := c).
  - intros Hlen. apply totalValue_exact with (c := fun _ => 1).
    + exact Hn.
    + intros r _. split; [lia | reflexivity].
    + now rewrite sumOf_count.
Qed.

(** Without a limit the bucket names are pairwise distinct and are the
    categories of the rows: every row has the one bucket of its name. *)
Lemma baseAgg_names_unlimited (rows : list row) (cat metric sortBy : string) :
  nonempty cat = true ->
  NoDup (map name (baseAgg localeCompare rows cat metric sortBy 0))
  /\ forall k, In k (map name (baseAgg localeCompare rows cat metric sortBy 0))
               <-> In k (map (category cat) rows).
Proof.
  intros Hcat. pose proof (@baseAgg_unlimited rows cat metric sortBy Hcat) as HP.
  apply (Permutation_map name) in HP. rewrite map_map in HP. cbn [name] in HP.
  destruct (grouped_keys cat metric rows) as [Hnd Hk].
  split.
  - apply (Permutation_NoDup (Permutation_sym HP)). exact Hnd.
  - intros k. rewrite <- Hk. split; apply Permutation_in; [exact HP | exact (Permutation_sym HP)].
Qed.

(** With a limit the names stay pairwise distinct as long as no row is in
    a category that is itself called Other. *)
Lemma baseAgg_names_distinct (rows : list row) (cat metric sortBy : string) (topN : Z) :
  nonempty cat = true ->
  ~ In "Other" (map (category cat) rows) ->
  NoDup (map name (baseAgg localeCompare rows cat metric sortBy topN)).
Proof.
  intros Hcat Hno.
  destruct (@baseAgg_names_unlimited rows cat metric sortBy Hcat) as [Hnd Hk].
  destruct (Z.lt_ge_cases 0 topN) as [Hn | Hn].
  - rewrite (@baseAgg_collapse rows cat metric sortBy topN Hn). cbv zeta.
    set (full := baseAgg localeCompare rows cat metric sortBy 0) in *.
    destruct (topN <? Z.of_nat (List.length full)); [|exact Hnd].
    rewrite map_app. cbn [map name].
    rewrite <- (firstn_skipn (Z.to_nat topN) full), map_app in Hnd, Hk.
    apply NoDup_app.
    + exact (NoDup_app_remove_r _ _ Hnd).
    + constructor; [intros [] | constructor].
    + intros a Ha [<- | []]. apply Hno, Hk, in_or_app. now left.
  - unfold baseAgg in *. rewrite Hcat in *. cbn [negb] in *.
    replace (0 <? topN) with false by (symmetry; apply Z.ltb_ge; lia).
    exact Hnd.
Qed.

(** In the failing case of C2 the first bucket is the category Other and
    the collapsed tail is given the same name. *)
Theorem baseAgg_other_collision :
  baseAgg localeCompare Samples.otherRows "cat" "count" "value" 1
  = [ {| name := "Other"; value := 2 |}; {| name := "Other"; value := 2 |} ]
  /\ ~ NoDup (map name (baseAgg localeCompare Samples.otherRows "cat" "count" "value" 1)).
Proof.
  assert (E : baseAgg localeCompare Samples.otherRows "cat" "count" "value" 1
              = [ {| name := "Other"; value := 2 |}; {| name := "Other"; value := 2 |} ])
    by reflexivity.
  split; [exact E|]. rewrite E. cbn [map name]. intros H.
  inversion H as [|? ? Hin _]; subst. apply Hin. now left.
Qed.

End Host.

(** The count metric on four rows, limited to one bucket. *)
Lemma topN_total_mass_witness :
  totalValue codeUnitOrder Samples.otherRows "cat" "count" "value" 1
  = totalValue codeUnitOrder Samples.otherRows "cat" "count" "value" 0.
Proof.
  destruct (@topN_total_mass codeUnitOrder Samples.otherRows "cat" "count" "value" 1
              ltac:(lia)) as (_ & _ & _ & H).
  apply H. cbn. lia.
Defined.

(** C1 as stated fails on a numeric metric: with values 0.3, 0.2 and 0.1
    and a limit of one bucket, 0.2 and 0.1 are added to each other before
    they are added to 0.3, and the total prints as 0.6000000000000001
    where the unlimited total prints as 0.6. *)
Lemma topN_total_rounding :
  NumberToString (totalValue codeUnitOrder Samples.roundingRows "cat" "v" "value" 1)
  = "0.6000000000000001"
  /\ NumberToString (totalValue codeUnitOrder Samples.roundingRows "cat" "v" "value" 0)
     = "0.6"
  /\ totalValue codeUnitOrder Samples.roundingRows "cat" "v" "value" 1
     <> totalValue codeUnitOrder Samples.roundingRows "cat" "v" "value" 0.
Proof.
  split; [vm_compute; reflexivity | split; [vm_compute; reflexivity|]].
  intros H.
  apply (f_equal NumberToString) in H. vm_compute in H. discriminate H.
Qed.

End AggFacts.

(** ** Moving average *)

Module MovingAvgFacts.
Import JS Data Spec Performance.

Lemma setAt_app (done : list float) (x o : float) (t : list float) :
  setAt (done ++ x :: t) (List.length done) o = (done ++ o :: t)%list.
Proof. induction done as [|d done IH]; cbn; [reflexivity | rewrite IH; reflexivity]. Qed.

Lemma setAt_app' (done : list float) (i : nat) (x o : float) (t : list float) :
  List.length done = i -> setAt (done ++ x :: t) i o = (done ++ o :: t)%list.
Proof. intros <-. apply setAt_app. Qed.

Lemma skipn_cons_nth (A : Type) (n : nat) (l : list A) :
  (n < List.length l)%nat -> exists x, skipn n l = x :: skipn (S n) l.
Proof.
  revert l. induction n as [|n IH]; intros [|a l] H; cbn in H; try lia.
  - now exists a.
  - destruct (IH l) as [x Hx]; [lia|]. exists x. exact Hx.
Qed.

Lemma filter_san (l : list float) :
  filter isFiniteNum (map san l) = filter isFiniteNum l.
Proof.
  induction l as [|v l IH]; [reflexivity|].
  cbn [map filter]. unfold san at 1 2. change (isFinite v) with (isFiniteNum v).
  destruct (isFiniteNum v) eqn:E.
  - rewrite E. now rewrite IH.
  - change (isFiniteNum NaN) with false. cbv iota. exact IH.
Qed.

Lemma filter_length_le (A : Type) (f : A -> bool) (l : list A) :
  (List.length (filter f l) <= List.length l)%nat.
Proof.
  induction l as [|a l IH]; cbn; [lia|]. destruct (f a); cbn; lia.
Qed.

Lemma filter_all (A : Type) (f : A -> bool) (l : list A) :
  forallb f l = true -> filter f l = l.
Proof.
  induction l as [|a l IH]; cbn; [reflexivity|].
  destruct (f a); cbn; [intros H; now rewrite IH | discriminate].
Qed.

Lemma filter_some_out (A : Type) (f : A -> bool) (l : list A) :
  forallb f l = false -> (List.length (filter f l) < List.length l)%nat.
Proof.
  induction l as [|a l IH]; cbn; [discriminate|].
  destruct (f a); cbn; intros H.
  - apply IH in H. lia.
  - pose proof (filter_length_le f l). lia.
Qed.

(** The value the loop writes at index [i], from the last samples read. *)
Lemma written_value (win : Z) (pre rest : list float) (v : float) :
  2 <= win ->
  let i := List.length pre in
  let W := skipn (i + 1 - Z.to_nat win) (pre ++ [v]) in
  (if Z.of_nat (List.length (filter isFiniteNum (map san W))) =? win
   then (sum (filter isFiniteNum (map san W)) / ofZ win)%float else NaN)
  = trailingMean (pre ++ v :: rest) win i.
Proof.
  intros Hw i W. rewrite filter_san.
  unfold trailingMean, window.
  assert (HW : skipn (i + 1 - Z.to_nat win) (pre ++ v :: rest) = (W ++ rest)%list).
  { change (v :: rest) with ([v] ++ rest)%list. rewrite app_assoc.
    rewrite skipn_app.
    replace (i + 1 - Z.to_nat win - List.length (pre ++ [v]))%nat with 0%nat
      by (rewrite length_app; cbn; lia).
    reflexivity. }
  rewrite HW.
  assert (HL : List.length W = Nat.min (i + 1) (Z.to_nat win)).
  { unfold W. rewrite length_skipn, length_app. cbn. lia. }
  destruct (win <=? Z.of_nat i + 1) eqn:Hc; cbn [andb].
  - apply Z.leb_le in Hc.
    assert (HLw : List.length W = Z.to_nat win) by lia.
    rewrite firstn_app, HLw, Nat.sub_diag, firstn_O, app_nil_r.
    rewrite <- HLw, firstn_all.
    change isFinite with isFiniteNum.
    destruct (forallb isFiniteNum W) eqn:Ha.
    + rewrite (filter_all _ _ Ha).
      replace (Z.of_nat (List.length W) =? win) with true
        by (symmetry; apply Z.eqb_eq; lia).
      reflexivity.
    + pose proof (filter_some_out _ _ Ha).
      replace (Z.of_nat (List.length (filter isFiniteNum W)) =? win) with false
        by (symmetry; apply Z.eqb_neq; lia).
      reflexivity.
  - apply Z.leb_gt in Hc.
    pose proof (filter_length_le isFiniteNum W).
    replace (Z.of_nat (List.length (filter isFiniteNum W)) =? win) with false
      by (symmetry; apply Z.eqb_neq; lia).
    reflexivity.
Qed.

Lemma movingAvgLoop_spec (win : Z) (rest : list float) :
  2 <= win ->
  forall (pre done : list float) (sum : float),
    List.length done = List.length pre ->
    movingAvgLoop win rest (List.length pre) sum
      (map san (skipn (List.length pre - Z.to_nat win) pre))
      (done ++ repeat NaN (List.length rest))
    = (done ++ map (trailingMean (pre ++ rest) win)
                  (seq (List.length pre) (List.length rest)))%list.
Proof.
  intros Hw. induction rest as [|v rest IH]; intros pre done sm Hd.
  - reflexivity.
  - cbn [movingAvgLoop List.length repeat seq map].
    set (i := List.length pre) in *.
    set (w := Z.to_nat win) in *.
    assert (Hq1 : (map san (skipn (i - w) pre) ++ [if isFiniteNum v then v else NaN])%list
                  = map san (skipn (i - w) (pre ++ [v]))).
    { rewrite skipn_app, map_app.
      replace (i - w - List.length pre)%nat with 0%nat by (unfold i; lia).
      reflexivity. }
    rewrite Hq1.
    assert (Hlen : List.length (map san (skipn (i - w) (pre ++ [v]))) = (Nat.min i w + 1)%nat).
    { rewrite length_map, length_skipn, length_app. cbn. unfold i. lia. }
    rewrite Hlen.
    assert (Hq2 :
      (let '(q, s) :=
         if win <? Z.of_nat (Nat.min i w + 1) then
           match map san (skipn (i - w) (pre ++ [v])) with
           | drop :: q' => (q', if isFiniteNum drop then (sm - drop)%float else sm)
           | [] => (map san (skipn (i - w) (pre ++ [v])), sm)
           end
         else (map san (skipn (i - w) (pre ++ [v])), sm) in q)
      = map san (skipn (i + 1 - w) (pre ++ [v]))).
    { destruct (win <? Z.of_nat (Nat.min i w + 1)) eqn:Hc.
      - apply Z.ltb_lt in Hc.
        assert (Hwi : (w <= i)%nat) by (unfold w in *; lia).
        destruct (@skipn_cons_nth _ (i - w) (pre ++ [v])) as [x Hx].
        { rewrite length_app. cbn. unfold i. lia. }
        rewrite Hx. cbn [map].
        replace (i + 1 - w)%nat with (S (i - w)) by lia. reflexivity.
      - apply Z.ltb_ge in Hc.
        assert (Hwi : (i < w)%nat) by (unfold w in *; lia).
        replace (i + 1 - w)%nat with (i - w)%nat by lia. reflexivity. }
    destruct (if win <? Z.of_nat (Nat.min i w + 1) then _ else _) as [q2 s2] eqn:Hst.
    cbv beta iota zeta in Hq2. subst q2.
    pose proof (written_value pre rest v Hw) as Hwv.
    cbv zeta in Hwv. fold i w in Hwv. rewrite Hwv. clear Hwv.
    rewrite setAt_app' by exact Hd.
    specialize (IH (pre ++ [v])%list (done ++ [trailingMean (pre ++ v :: rest) win i])%list
                  (if isFiniteNum v then (s2 + v)%float else s2)).
    rewrite !length_app in IH. cbn [List.length] in IH.
    replace (List.length pre + 1)%nat with (S i) in IH by (unfold i; lia).
    replace (S i - w)%nat with (i + 1 - w)%nat in IH by lia.
    rewrite <- !app_assoc in IH. cbn [app] in IH.
    rewrite IH by lia. reflexivity.
Qed.

Lemma movingAvg_trailingMean (arr : list float) (win : Z) :
  movingAvg arr win
  = if win <=? 1 then arr
    else map (trailingMean arr win) (seq 0 (List.length arr)).
Proof.
  unfold movingAvg. destruct (win <=? 1) eqn:Hw; [reflexivity|].
  apply Z.leb_gt in Hw.
  exact (@movingAvgLoop_spec win arr ltac:(lia) [] [] 0%float eq_refl).
Qed.

Lemma movingAvg_length (arr : list float) (win : Z) :
  List.length (movingAvg arr win) = List.length arr.
Proof.
  rewrite movingAvg_trailingMean.
  destruct (win <=? 1); [reflexivity|]. now rewrite length_map, length_seq.
Qed.

(** C3. A window of at most 1 returns the series as it is; a window
    [w >= 2] gives, at every index [i], the mean of the [w] samples ending
    at [i] when there are [w] of them and all are finite, and the sentinel
    otherwise; window 3 over 1, 2, 3, 4, 5 gives NaN, NaN, 2, 3, 4. *)
Theorem movingAvg_spec (arr : list float) (win : Z) :
  movingAvg arr win
  = (if win <=? 1 then arr
     else map (trailingMean arr win) (seq 0 (List.length arr)))
  /\ movingAvg [1; 2; 3; 4; 5]%float 3 = [NaN; NaN; 2; 3; 4]%float.
Proof. split; [apply movingAvg_trailingMean | reflexivity]. Qed.

End MovingAvgFacts.

(** ** Regression statistics *)

Module StatsFacts.
Import JS Data Spec Factors FloatFacts.

Lemma fold_left_sigma (f : float * float -> float) (pts : list (float * float)) (a : float) :
  fold_left (fun a p => (a + f p)%float) pts a
  = fold_left (fun a b => (a + b)%float) (map f pts) a.
Proof. revert a. induction pts as [|p pts IH]; intros a; cbn; [reflexivity | apply IH]. Qed.

Section Formulas.
Variable points : list (float * float).

Local Abbreviation pts := (validPairs points).
Local Abbreviation n := (ofNat (List.length pts)).
Local Abbreviation sx := (sigma fst pts).
Local Abbreviation sy := (sigma snd pts).
Local Abbreviation num := (covN pts).
Local Abbreviation dx := (varNX pts).
Local Abbreviation dy := (varNY pts).

Lemma linearStats_unfold :
  linearStats points =
  if (List.length pts <? 2)%nat then {| r := NaN; slope := NaN; intercept := NaN |}
  else
    let slope := (num / (if truthy dx then dx else NaN))%float in
    {| r := if (sqrt (dx * dy) =? 0)%float then NaN else (num / sqrt (dx * dy))%float;
       slope := slope;
       intercept := ((sy - slope * sx) / n)%float |}.
Proof.
  unfold linearStats.
  change (filter (fun p => isFiniteNum (fst p) && isFiniteNum (snd p)) points) with pts.
  destruct (List.length pts <? 2)%nat; [reflexivity|].
  cbv zeta. rewrite !fold_left_sigma. reflexivity.
Qed.

(** C4, as the code has it. Over the pairs with both coordinates finite,
    [n] of them and at least two, in binary64 arithmetic with the sums
    taken from the left: the slope is the stated quotient when the
    denominator the code computes is not zero, and the sentinel when it
    is; the intercept is [(sum y - slope * sum x) / n]; [r] is the stated
    quotient when the square root the code computes is not zero, and the
    sentinel when it is; on (1,2), (2,4), (3,6) the slope is 2, the
    intercept 0 and [r] is 1. *)
Theorem linearStats_formulas :
  ((2 <= List.length pts)%nat ->
     slope (linearStats points) = (if (dx =? 0)%float then NaN else (num / dx)%float)
     /\ intercept (linearStats points)
        = ((sy - slope (linearStats points) * sx) / n)%float
     /\ r (linearStats points)
        = (if (sqrt (dx * dy) =? 0)%float then NaN else (num / sqrt (dx * dy))%float))
  /\ linearStats [(1, 2); (2, 4); (3, 6)]%float = {| r := 1; slope := 2; intercept := 0 |}.
Proof.
  split; [|reflexivity].
  intros Hn. rewrite linearStats_unfold.
  replace (List.length pts <? 2)%nat with false by (symmetry; apply Nat.ltb_ge; lia).
  cbv zeta. cbn [slope intercept r]. repeat split.
  unfold truthy. change (is_zero dx) with (dx =? 0)%float.
  destruct (dx =? 0)%float eqn:Hd; cbn [orb negb].
  - unfold NaN. apply div_nan_r.
  - destruct (isNaN dx) eqn:E; cbn [negb]; [|reflexivity].
    now rewrite (isNaN_nan _ E).
Qed.

(** What the guards of [linearStats] do give.  With fewer than two valid
    pairs all three outputs are the sentinel; [r] is the sentinel when the
    denominator the code computes for it is zero; the slope, and with it
    the intercept, is the sentinel when the denominator the code computes
    for the slope is zero; and in each of these cases there is no trend
    line. *)
Theorem linearStats_degenerate :
  ((List.length pts < 2)%nat ->
     linearStats points = {| r := NaN; slope := NaN; intercept := NaN |})
  /\ ((sqrt (dx * dy) =? 0)%float = true -> r (linearStats points) = NaN)
  /\ ((dx =? 0)%float = true ->
        slope (linearStats points) = NaN /\ intercept (linearStats points) = NaN)
  /\ (forall xMin xMax : string,
        (List.length pts < 2)%nat \/ (dx =? 0)%float = true ->
        trendline (slope (linearStats points)) (intercept (linearStats points))
          xMin xMax = []).
Proof.
  assert (Hlt : (List.length pts < 2)%nat ->
                linearStats points = {| r := NaN; slope := NaN; intercept := NaN |}).
  { intros Hn. rewrite linearStats_unfold.
    now replace (List.length pts <? 2)%nat with true by (symmetry; apply Nat.ltb_lt; lia). }
  assert (Hdx : (dx =? 0)%float = true ->
                slope (linearStats points) = NaN /\ intercept (linearStats points) = NaN).
  { intros Hd. rewrite linearStats_unfold.
    destruct (List.length pts <? 2)%nat; [split; reflexivity|].
    cbv zeta. cbn [slope intercept].
    unfold truthy. change (is_zero dx) with (dx =? 0)%float.
    rewrite Hd. cbn [orb negb]. unfold NaN.
    rewrite div_nan_r, mul_nan_l, sub_nan_r, div_nan_l. split; reflexivity. }
  repeat split.
  - exact Hlt.
  - intros Hd. rewrite linearStats_unfold.
    destruct (List.length pts <? 2)%nat; [reflexivity|].
    cbv zeta. cbn [r]. now rewrite Hd.
  - now apply Hdx.
  - now apply Hdx.
  - intros xMin xMax [Hn | Hd].
    + rewrite (Hlt Hn). reflexivity.
    + destruct (Hdx Hd) as [-> _]. reflexivity.
Qed.

End Formulas.

(** The formulas of C4 at the three points of the example. *)
Lemma linearStats_formulas_witness :
  slope (linearStats [(1, 2); (2, 4); (3, 6)]%float) = 2%float
  /\ intercept (linearStats [(1, 2); (2, 4); (3, 6)]%float) = 0%float
  /\ r (linearStats [(1, 2); (2, 4); (3, 6)]%float) = 1%float.
Proof.
  destruct (linearStats_formulas [(1, 2); (2, 4); (3, 6)]%float) as [H _].
  destruct (H ltac:(cbn; lia)) as (Hs & Hi & Hr).
  rewrite Hi, Hs, Hr. repeat split; reflexivity.
Defined.

(** The degenerate cases of C5 at a single point and at two points on a
    vertical line. *)
Lemma linearStats_degenerate_witness :
  linearStats [(1, 2)]%float = {| r := NaN; slope := NaN; intercept := NaN |}
  /\ slope (linearStats [(1, 2); (1, 5)]%float) = NaN
  /\ trendline (slope (linearStats [(1, 2); (1, 5)]%float))
       (intercept (linearStats [(1, 2); (1, 5)]%float)) "0" "3" = [].
Proof.
  destruct (linearStats_degenerate [(1, 2)]%float) as (H1 & _).
  destruct (linearStats_degenerate [(1, 2); (1, 5)]%float) as (_ & _ & H3 & H4).
  split; [apply H1; cbn; lia|].
  split; [apply (H3 eq_refl) | apply H4; right; reflexivity].
Defined.

(** C4 as stated fails where rounding cancels the denominator: the
    three points (10^8, 10^8), (10^8 + 1, 10^8 + 1), (10^8 + 2, 10^8 + 2)
    are on the line [y = x], and on the integers the numerator and both
    denominators are 6, so that the stated quotients are 1 for the slope
    and for [r], and 0 for the intercept; the code computes 0 for the
    denominator and returns the sentinel three times. *)
Lemma linearStats_cancellation :
  let xs := [100000000; 100000001; 100000002]%Z in
  let S := fun f : Z -> Z => fold_right (fun x a => (f x + a)%Z) 0%Z xs in
  let points := map (fun x => (ofZ x, ofZ x)) xs in
  validPairs points = points
  /\ (3 * S (fun x => x * x) - S (fun x => x) * S (fun x => x) = 6)%Z
  /\ (varNX (validPairs points) =? 0)%float = true
  /\ linearStats points = {| r := NaN; slope := NaN; intercept := NaN |}.
Proof. repeat split; vm_compute; reflexivity. Qed.


End StatsFacts.

(** ** Index normalization *)

Module SeriesFacts.
Import JS Data Spec Performance MapFacts.

Lemma series_mapSet_eq sd k arr : series (mapSet sd k arr) k = arr.
Proof. unfold series. now rewrite mapGet_mapSet_eq. Qed.

Lemma series_mapSet_neq sd k k2 arr : k <> k2 -> series (mapSet sd k arr) k2 = series sd k2.
Proof. intros H. unfold series. now rewrite mapGet_mapSet_neq. Qed.

Lemma includes_In (l : list string) (k : string) : includes l k = true <-> In k l.
Proof.
  unfold includes. rewrite existsb_exists. split.
  - intros (k' & Hin & E). apply String.eqb_eq in E. now subst k'.
  - intros Hin. exists k. split; [exact Hin | apply String.eqb_refl].
Qed.

(** A loop over distinct keys whose step rewrites the series of its key
    from that series alone. *)
Section Loop.
Variable step : list (string * list float) -> string -> list (string * list float).
Variable g : string -> list float -> list float.
Hypothesis step_same : forall sd k, series (step sd k) k = g k (series sd k).
Hypothesis step_other : forall sd k k2, k <> k2 -> series (step sd k) k2 = series sd k2.

Lemma loop_series (ys : list string) :
  NoDup ys ->
  forall sd key,
    series (fold_left step ys sd) key
    = if includes ys key then g key (series sd key) else series sd key.
Proof.
  induction ys as [|a ys IH]; intros Hnd sd key; [reflexivity|].
  inversion Hnd as [|? ? Hna Hnd']; subst.
  cbn [fold_left]. rewrite (IH Hnd'). unfold includes. cbn [existsb].
  fold (includes ys key). destruct (String.eqb key a) eqn:E.
  - apply String.eqb_eq in E. subst a. cbn [orb].
    destruct (includes ys key) eqn:Ein; [apply includes_In in Ein; contradiction|].
    apply step_same.
  - apply String.eqb_neq in E. cbn [orb].
    rewrite step_other by congruence. reflexivity.
Qed.
End Loop.

Lemma firstFinite_finite (arr : list float) :
  isFiniteNum (firstFinite arr) = existsb isFinite arr.
Proof.
  induction arr as [|v arr IH]; [reflexivity|].
  cbn [firstFinite existsb]. change (isFinite v) with (isFiniteNum v).
  destruct (isFiniteNum v) eqn:E; [exact E | exact IH].
Qed.

(** The first finite sample comes after samples that are not finite. *)
Lemma firstFinite_first (arr : list float) :
  existsb isFinite arr = true ->
  exists pre post,
    arr = (pre ++ firstFinite arr :: post)%list
    /\ forallb (fun v => negb (isFinite v)) pre = true
    /\ isFinite (firstFinite arr) = true.
Proof.
  induction arr as [|v arr IH]; [discriminate|].
  cbn [firstFinite existsb]. change (isFiniteNum v) with (isFinite v).
  destruct (isFinite v) eqn:E; intros H.
  - exists [], arr. repeat split. exact E.
  - destruct (IH H) as (pre & post & Harr & Hpre & Hf).
    exists (v :: pre), post. cbn [forallb app]. rewrite E, Hpre, Hf.
    repeat split. now rewrite Harr at 1.
Qed.

Lemma seriesData_index (limited : list row) (ys : list string) (smooth : Z) (key : string) :
  NoDup ys -> In key ys ->
  series (seriesData limited ys smooth "index") key = indexStep (smoothed limited smooth key).
Proof.
  intros Hnd Hin. apply includes_In in Hin.
  unfold seriesData. cbn [String.eqb Ascii.eqb Bool.eqb].
  rewrite (@loop_series
             (fun sd key =>
                let arr := series sd key in
                let base := firstFinite arr in
                if isFiniteNum base then mapSet sd key (indexed base arr) else sd)
             (fun _ => indexStep)).
  - rewrite Hin. f_equal. unfold smoothed. destruct (0 <? smooth).
    + rewrite (@loop_series _ (fun _ arr => movingAvg arr smooth)).
      * rewrite Hin. f_equal.
        rewrite (@loop_series _ (fun k _ => map (fun r => toNum (get r k)) limited)).
        -- now rewrite Hin.
        -- intros; apply series_mapSet_eq.
        -- intros; now apply series_mapSet_neq.
        -- exact Hnd.
      * intros; apply series_mapSet_eq.
      * intros; now apply series_mapSet_neq.
      * exact Hnd.
    + rewrite (@loop_series _ (fun k _ => map (fun r => toNum (get r k)) limited)).
      * now rewrite Hin.
      * intros; apply series_mapSet_eq.
      * intros; now apply series_mapSet_neq.
      * exact Hnd.
  - intros sd k. cbv zeta. unfold indexStep.
    destruct (isFiniteNum (firstFinite (series sd k))); [apply series_mapSet_eq | reflexivity].
  - intros sd k k2 Hne. cbv zeta.
    destruct (isFiniteNum (firstFinite (series sd k))); [now apply series_mapSet_neq | reflexivity].
  - exact Hnd.
Qed.

Lemma skipn_nth_error (A : Type) (l : list A) (i : nat) (v : A) :
  nth_error l i = Some v -> skipn i l = v :: skipn (S i) l.
Proof.
  revert l. induction i as [|i IH]; intros [|a l] H; try discriminate.
  - injection H as ->. reflexivity.
  - cbn in H. apply IH in H. exact H.
Qed.

Section Host.
Variable dateISO : string -> option string.

(** The field [key] of the chart rows, from row [i] on. *)
Lemma attach_field (x : string) (ys : list string) (sd : list (string * list float))
  (key : string) :
  In key ys -> key <> "__proto__" ->
  forall (limited : list row) (i : nat),
    List.length (series sd key) = (i + List.length limited)%nat ->
    map (fun d => get d key) (attach dateISO limited i x ys sd)
    = map Num (skipn i (series sd key)).
Proof.
  intros Hin Hkey. apply includes_In in Hin.
  induction limited as [|r0 limited IH]; intros i Hlen.
  - cbn. rewrite skipn_all2 by (cbn in Hlen; lia). reflexivity.
  - cbn [attach map List.length] in *.
    rewrite get_fold_assign, Hin, (not_proto_stored _ Hkey). cbn [andb negb].
    destruct (nth_error (series sd key) i) as [v|] eqn:E.
    + rewrite (skipn_nth_error _ _ E). cbn [map]. f_equal. apply IH. lia.
    + apply nth_error_None in E. lia.
Qed.

Lemma smoothed_length (limited : list row) (smooth : Z) (key : string) :
  List.length (smoothed limited smooth key) = List.length limited.
Proof.
  unfold smoothed. destruct (0 <? smooth);
    [rewrite MovingAvgFacts.movingAvg_length|]; apply length_map.
Qed.

Lemma indexStep_length (arr : list float) : List.length (indexStep arr) = List.length arr.
Proof.
  unfold indexStep, indexed. destruct (isFiniteNum (firstFinite arr));
    [apply length_map | reflexivity].
Qed.

(** C6, as the code has it. In a chart with index normalization, the
    samples of a series are those of the column (smoothed when a window is
    set), each divided by the first finite one and multiplied by 100, a
    sample that is not finite giving the sentinel; a series with no finite
    sample is left as it is, so its samples stay what they were: the
    sentinel, or an infinity.  The samples are read off the chart rows,
    which keep them under every column name but [__proto__]. *)
Theorem index_normalization (rows : list row) (x : string) (ys : list string)
  (smooth cap : Z) (key : string) :
  nonempty x = true -> NoDup ys -> In key ys -> key <> "__proto__" ->
  let arr := smoothed (capped rows cap) smooth key in
  map (fun d => get d key) (processed dateISO rows x ys smooth "index" cap)
  = map Num (if existsb isFinite arr then overBase (firstFinite arr) arr else arr)
  /\ (existsb isFinite arr = true ->
      exists pre post,
        arr = (pre ++ firstFinite arr :: post)%list
        /\ forallb (fun v => negb (isFinite v)) pre = true
        /\ isFinite (firstFinite arr) = true).
Proof.
  intros Hx Hnd Hin Hkey arr. split; [|apply firstFinite_first].
  unfold processed. rewrite Hx. cbn [negb orb].
  destruct ys as [|y0 ys']; [destruct Hin|]. cbn [List.length Nat.eqb].
  fold (capped rows cap).
  rewrite (@attach_field x (y0 :: ys') _ key Hin Hkey (capped rows cap) 0).
  - cbn [skipn]. rewrite (@seriesData_index (capped rows cap) _ smooth key Hnd Hin). fold arr.
    unfold indexStep. rewrite firstFinite_finite. reflexivity.
  - rewrite (@seriesData_index (capped rows cap) _ smooth key Hnd Hin), indexStep_length.
    apply smoothed_length.
Qed.

End Host.

(** Index normalization on a two-sample series, on a host that reads no
    label as a date. *)
Lemma index_normalization_witness :
  map (fun d => get d "v")
    (processed Samples.noDates Samples.seriesRows "t" ["v"] 0 "index" 500)
  = [Num 100; Num 200].
Proof.
  destruct (@index_normalization Samples.noDates Samples.seriesRows "t" ["v"] 0 500 "v"
              eq_refl
              ltac:(constructor; [intros [] | constructor])
              (or_introl eq_refl)
              ltac:(discriminate)) as [H _].
  rewrite H. reflexivity.
Defined.

(** C6 as stated fails on a series whose only sample is infinite: it has
    no finite sample, and the sample that comes out is the infinity, not
    the sentinel. *)
Lemma index_keeps_infinity :
  existsb isFinite (smoothed Samples.infinityRows 0 "a") = false
  /\ series (seriesData Samples.infinityRows ["a"] 0 "index") "a" = [infinity]
  /\ map (fun d => get d "a")
       (processed Samples.noDates Samples.infinityRows "a" ["a"] 0 "index" 500)
     = [Num infinity]
  /\ isNaN infinity = false.
Proof. repeat split; reflexivity. Qed.

End SeriesFacts.

(** ** CSV export *)

Module ExportFacts.
Import JS Data Spec.

Lemma append_assoc (a b c : string) : (a ++ b) ++ c = a ++ (b ++ c).
Proof. induction a as [|x a IH]; cbn; [reflexivity | now rewrite IH]. Qed.

Lemma append_nil_r (a : string) : a ++ "" = a.
Proof. induction a as [|x a IH]; cbn; [reflexivity | now rewrite IH]. Qed.

(** The loop [csv += line + LF]. *)
Lemma fold_append_terminated (A : Type) (f : A -> string) (l : list A) (init : string) :
  fold_left (fun csv r => csv ++ (f r ++ LF)) l init = init ++ terminated (map f l).
Proof.
  revert init. induction l as [|a l IH]; intros init; cbn [fold_left map terminated].
  - now rewrite append_nil_r.
  - rewrite IH. now rewrite !append_assoc.
Qed.

(** The loop [lines.push(line)]. *)
Lemma fold_push (A : Type) (g : A -> string) (l : list A) (init : list string) :
  fold_left (fun lines p => (lines ++ [g p])%list) l init = (init ++ map g l)%list.
Proof.
  revert init. induction l as [|a l IH]; intros init; cbn [fold_left map].
  - now rewrite app_nil_r.
  - rewrite IH. now rewrite <- app_assoc.
Qed.

Lemma terminated_separated (rec : string) (rest : list string) :
  terminated (rec :: rest) = separated (rec :: rest) ++ LF.
Proof.
  unfold separated. revert rec. induction rest as [|r2 rest IH]; intros rec.
  - cbn [terminated join]. now rewrite append_nil_r.
  - change (terminated (rec :: r2 :: rest)) with (rec ++ LF ++ terminated (r2 :: rest)).
    rewrite IH. cbn [join]. now rewrite !append_assoc.
Qed.

Section Exporters.
Variable localeCompare : string -> string -> float.
Variable toUpperCase : string -> string.
Variable dateISO : string -> option string.

Lemma Treatment_exportCSV_records (rows : list row) (cat metric groupBy sortBy : string)
  (topN : Z) :
  Treatment.exportCSV localeCompare toUpperCase rows cat metric groupBy sortBy topN
  = if nonempty cat
    then Some (terminated
                 (aggregationRecords localeCompare toUpperCase rows cat metric groupBy
                    sortBy topN))
    else None.
Proof.
  unfold Treatment.exportCSV, aggregationRecords.
  destruct (nonempty cat); [|reflexivity]. cbn [negb].
  destruct (negb (nonempty groupBy)).
  - rewrite fold_append_terminated. f_equal. cbn [terminated map].
    exact (append_assoc _ LF _).
  - destruct (match Treatment.groupedAgg rows cat groupBy metric topN with
              | Some dg => dg
              | None => ([], [])
              end) as [data groups].
    rewrite (fold_append_terminated
               (fun r => join "," (Treatment.csvSafe (get r cat)
                                   :: map (fun g => Treatment.csvSafe (get r g)) groups))).
    f_equal. cbn [terminated map]. exact (append_assoc _ LF _).
Qed.

Lemma Performance_exportCSV_records (rows : list row) (x : string) (ys : list string)
  (smooth : Z) (normalize : string) (cap : Z) :
  Performance.exportCSV dateISO rows x ys smooth normalize cap
  = match Performance.processed dateISO rows x ys smooth normalize cap with
    | [] => None
    | _ :: _ => Some (separated (seriesRecords dateISO rows x ys smooth normalize cap))
    end.
Proof.
  unfold Performance.exportCSV, seriesRecords, separated.
  destruct (Performance.processed dateISO rows x ys smooth normalize cap) as [|d ds];
    [reflexivity|].
  cbn [List.length Nat.eqb].
  now rewrite (fold_push
                 (fun d => join "," (Performance.csvSafe (get d x)
                                     :: map (fun k => Performance.csvSafe (get d k)) ys))).
Qed.

Lemma Factors_exportCSV_records (rows : list row) (x y z colorBy xMin xMax yMin yMax : string) :
  Factors.exportCSV rows x y z colorBy xMin xMax yMin yMax
  = separated (pointsRecords rows x y z colorBy xMin xMax yMin yMax).
Proof.
  unfold Factors.exportCSV, pointsRecords, separated. f_equal.
  destruct (nonempty z), (nonempty colorBy);
    match goal with
    | |- fold_left _ ?l [?h] = ?h :: map ?G ?l => exact (fold_push G l [h])
    end.
Qed.

(** C7, as the code has it. The aggregation exporter writes the header
    row and each data row followed by a line feed, so every record ends in
    one; the series and points exporters write the same kind of records
    joined by line feeds, which is the terminated text without its last
    line feed. *)
Theorem exports_line_structure
  (rows : list row) (cat metric groupBy sortBy : string) (topN : Z)
  (x : string) (ys : list string) (smooth : Z) (normalize : string) (cap : Z)
  (y z colorBy xMin xMax yMin yMax : string) :
  Treatment.exportCSV localeCompare toUpperCase rows cat metric groupBy sortBy topN
  = (if nonempty cat
     then Some (terminated
                  (aggregationRecords localeCompare toUpperCase rows cat metric groupBy
                     sortBy topN))
     else None)
  /\ Performance.exportCSV dateISO rows x ys smooth normalize cap
     = match Performance.processed dateISO rows x ys smooth normalize cap with
       | [] => None
       | _ :: _ => Some (separated (seriesRecords dateISO rows x ys smooth normalize cap))
       end
  /\ Factors.exportCSV rows x y z colorBy xMin xMax yMin yMax
     = separated (pointsRecords rows x y z colorBy xMin xMax yMin yMax)
  /\ (forall (rec : string) (rest : list string),
        terminated (rec :: rest) = separated (rec :: rest) ++ LF).
Proof.
  split; [apply Treatment_exportCSV_records|].
  split; [apply Performance_exportCSV_records|].
  split; [apply Factors_exportCSV_records | apply terminated_separated].
Qed.

End Exporters.

(** The three exporters on small tables, on a host that upper-cases
    letters with [asciiUpper], orders names by code unit and reads no
    label as a date. *)
Example aggregation_export_text :
  Treatment.exportCSV codeUnitOrder asciiUpper Samples.otherRows "cat" "count" "" "value" 0
  = Some ("Category,COUNT" ++ LF ++ "Other,2" ++ LF ++ "A,1" ++ LF ++ "B,1" ++ LF).
Proof. vm_compute. reflexivity. Qed.

Example series_export_text :
  Performance.exportCSV Samples.noDates Samples.seriesRows "t" ["v"] 0 "index" 500
  = Some ("t,v" ++ LF ++ "a,100" ++ LF ++ "b,200").
Proof. vm_compute. reflexivity. Qed.

Example points_export_text :
  Factors.exportCSV Samples.threeSizes "a" "b" "s" "" "0" "9" "0" "9"
  = "a,b,s" ++ LF ++ "1,2," ++ LF ++ "2,3,n/a" ++ LF ++ "3,5,0" ++ LF ++ "4,7,7".
Proof. vm_compute. reflexivity. Qed.

(** C7 as stated fails on the points exporter: with one point, the text
    is the header, a line feed and the record, and no line feed follows
    the record. *)
Lemma points_export_last_record_open :
  Factors.exportCSV Samples.onePoint "a" "b" "" "" "0" "9" "0" "9" = "a,b" ++ LF ++ "1,2"
  /\ Factors.exportCSV Samples.onePoint "a" "b" "" "" "0" "9" "0" "9"
     <> terminated (pointsRecords Samples.onePoint "a" "b" "" "" "0" "9" "0" "9").
Proof. split; [reflexivity | intros H; discriminate H]. Qed.

End ExportFacts.

(** ** CSV fields *)

Module CsvFacts.
Import JS Data Spec.

Lemma needsQuotes_contains (v : string) :
  needsQuotes v = contains quote v || contains "," v || contains "010" v.
Proof.
  induction v as [|c r IH]; [reflexivity|].
  cbn [needsQuotes contains]. rewrite IH.
  destruct (Ascii.eqb c quote), (Ascii.eqb c ","), (Ascii.eqb c "010"),
    (contains quote r), (contains "," r), (contains "010" r); reflexivity.
Qed.

Lemma unquoteBody_doubleQuotes (v : string) :
  unquoteBody (doubleQuotes v ++ String quote "") = v.
Proof.
  induction v as [|c r IH]; [reflexivity|].
  cbn [doubleQuotes]. destruct (Ascii.eqb c quote) eqn:E.
  - apply Ascii.eqb_eq in E. subst c.
    cbn [append unquoteBody]. rewrite (Ascii.eqb_refl quote). now rewrite IH.
  - cbn [append unquoteBody]. rewrite E. now rewrite IH.
Qed.

Lemma csvField_roundtrip (v : string) : csvUnquote (csvField v) = v.
Proof.
  unfold csvField. destruct (needsQuotes v) eqn:E.
  - cbn [csvUnquote]. rewrite (Ascii.eqb_refl quote). apply unquoteBody_doubleQuotes.
  - destruct v as [|c r]; [reflexivity|].
    cbn [csvUnquote]. cbn [needsQuotes] in E.
    destruct (Ascii.eqb c quote); [discriminate E | reflexivity].
Qed.

(** C8. Both [csvSafe] functions write a string field between double
    quotes, with its double quotes doubled, exactly when it holds a double
    quote, a comma or a line feed, and as it is otherwise; [null] and
    [undefined] become the empty string; a reader that removes the quoting
    gets the field back; and the field [a,b] followed by a double quote and
    [c] is written as in the example of the specification. *)
Theorem csvSafe_quoting_roundtrip (v : string) :
  let special := contains quote v || contains "," v || contains "010" v in
  let q := String quote "" in
  Treatment.csvSafe (Str v) = (if special then q ++ doubleQuotes v ++ q else v)
  /\ Factors.csvSafe (Str v) = Treatment.csvSafe (Str v)
  /\ Treatment.csvSafe Null = "" /\ Treatment.csvSafe Undefined = ""
  /\ Factors.csvSafe Null = "" /\ Factors.csvSafe Undefined = ""
  /\ csvUnquote (Treatment.csvSafe (Str v)) = v
  /\ csvUnquote (Factors.csvSafe (Str v)) = v
  /\ Treatment.csvSafe (Str ("a,b" ++ q ++ "c")) = q ++ "a,b" ++ q ++ q ++ "c" ++ q
  /\ csvUnquote (q ++ "a,b" ++ q ++ q ++ "c" ++ q) = "a,b" ++ q ++ "c".
Proof.
  cbv zeta.
  assert (T : Treatment.csvSafe (Str v) = csvField v) by reflexivity.
  assert (F : Factors.csvSafe (Str v) = csvField v) by reflexivity.
  rewrite T, F. repeat split; try reflexivity; try apply csvField_roundtrip.
  unfold csvField. rewrite needsQuotes_contains.
  destruct (contains quote v || contains "," v || contains "010" v); reflexivity.
Qed.

End CsvFacts.

(** ** Column classification *)

Module ColumnFacts.
Import JS Data Spec Treatment.

Lemma isEmptyStr_iff (v : cell) : isEmptyStr v = true <-> v = Str "".
Proof.
  destruct v as [| | b | x | s]; cbn; try (split; [discriminate | discriminate]).
  destruct s; split; (reflexivity || discriminate).
Qed.

Lemma numericCell_iff (v : cell) :
  numericCell v = true <-> v = Str "" \/ isNaN (Number v) = false.
Proof.
  unfold numericCell. rewrite orb_true_iff, isEmptyStr_iff, negb_true_iff. reflexivity.
Qed.

Lemma includes_iff (l : list string) (k : string) : includes l k = true <-> In k l.
Proof.
  unfold includes. rewrite existsb_exists. split.
  - intros (k' & Hin & E). apply String.eqb_eq in E. now subst k'.
  - intros Hin. exists k. split; [exact Hin | apply String.eqb_refl].
Qed.

Lemma numericCols_iff (r0 : row) (rest : list row) (k : string) :
  In k (numericCols (r0 :: rest)) <->
  In k (keys r0)
  /\ forall r, In r (r0 :: rest) -> get r k = Str "" \/ isNaN (Number (get r k)) = false.
Proof.
  unfold numericCols, columns. cbn [fst]. rewrite filter_In, forallb_forall.
  split; intros [Hk H]; split; try exact Hk; intros r Hr; apply numericCell_iff, H, Hr.
Qed.

(** C9, as the code has it. The keys of the first row are split in two:
    a key is numeric exactly when, in every row, its value is the empty
    string or converts to a number other than the sentinel (an infinite
    one included), and categorical exactly when it is not numeric; a
    column of empty strings is numeric; in the two-row example [a] is
    numeric and [b] categorical. *)
Theorem columns_classification (r0 : row) (rest : list row) :
  (forall k, In k (numericCols (r0 :: rest)) <->
             In k (keys r0)
             /\ forall r, In r (r0 :: rest) ->
                          get r k = Str "" \/ isNaN (Number (get r k)) = false)
  /\ (forall k, In k (catCols (r0 :: rest)) <->
                In k (keys r0) /\ ~ In k (numericCols (r0 :: rest)))
  /\ (forall k, In k (keys r0) ->
                (forall r, In r (r0 :: rest) -> get r k = Str "") ->
                In k (numericCols (r0 :: rest)))
  /\ columns Samples.twoRows = (["a"], ["b"])
  /\ columns [] = ([], []).
Proof.
  split; [intros k; apply numericCols_iff|].
  split; [|split; [|split; reflexivity]].
  - intros k. unfold catCols, numericCols, columns. cbn [fst snd].
    rewrite filter_In, negb_true_iff. split; intros [Hk H]; split; try exact Hk.
    + intros Hin. apply includes_iff in Hin. congruence.
    + destruct (includes _ k) eqn:E; [|reflexivity].
      apply includes_iff in E. contradiction.
  - intros k Hk H. apply numericCols_iff. split; [exact Hk|].
    intros r Hr. left. now apply H.
Qed.

(** The classification at the two-row example: [a] is numeric because
    both of its values convert to numbers. *)
Lemma columns_classification_witness :
  In "a" (numericCols Samples.twoRows) /\ In "b" (catCols Samples.twoRows).
Proof.
  destruct (columns_classification
              [("a", Str "1"); ("b", Str "x")] [[("a", Str "2"); ("b", Str "")]])
    as (Hn & Hc & _).
  split.
  - apply Hn. split; [left; reflexivity|].
    intros r [<- | [<- | []]]; right; reflexivity.
  - apply Hc. split; [right; left; reflexivity|].
    intros [H | []]. discriminate H.
Defined.

(** C9 as stated fails on a column that reads Infinity: the column is
    numeric, yet its value is not empty and does not convert to a finite
    number. *)
Lemma columns_infinity_is_numeric :
  ~ (In "a" (numericCols Samples.infinityRows) <->
     forall r, In r Samples.infinityRows ->
               get r "a" = Str "" \/ isFinite (Number (get r "a")) = true).
Proof.
  intros [H _].
  destruct (H (or_introl eq_refl) [("a", Str "Infinity")] (or_introl eq_refl)) as [E | E];
    discriminate E.
Qed.

End ColumnFacts.

(** ** Scatter points *)

Module PointFacts.
Import JS Data Spec Factors FloatFacts.

Lemma toNum_Number (v : cell) : toNum v = Number v.
Proof.
  unfold toNum. destruct (isNaN (Number v)) eqn:E; [|reflexivity].
  symmetry. now apply isNaN_nan.
Qed.

(** The size of the point built from row [rw]. *)
Lemma basePoints_In (rows : list row) (x y z colorBy : string) (p : point) :
  In p (basePoints rows x y z colorBy) ->
  In (raw p) rows
  /\ p_z p = (if nonempty z
              then (let n := Number (get (raw p) z) in if truthy n then n else 1%float)
              else 1%float).
Proof.
  unfold basePoints. destruct (negb (nonempty x && nonempty y)); [intros []|].
  intros H. apply filter_In in H. destruct H as [H _].
  apply in_map_iff in H. destruct H as (rw & <- & Hin).
  cbn [raw p_z]. rewrite toNum_Number. now split.
Qed.

(** C10. No point has a size that is the sentinel or zero; without a
    size column every size is 1; with one, a cell that is missing, does
    not parse, or parses to zero gives size 1. *)
Theorem basePoints_size (rows : list row) (x y z colorBy : string) :
  Forall (fun p => isNaN (p_z p) = false /\ is_zero (p_z p) = false)
    (basePoints rows x y z colorBy)
  /\ Forall (fun p => p_z p = 1%float) (basePoints rows x y "" colorBy)
  /\ Forall (fun p =>
               get (raw p) z = Undefined
               \/ isNaN (Number (get (raw p) z)) = true
               \/ is_zero (Number (get (raw p) z)) = true ->
               p_z p = 1%float)
       (basePoints rows x y z colorBy)
  /\ map p_z (basePoints Samples.threeSizes "a" "b" "s" "") = [1; 1; 1; 7]%float.
Proof.
  split; [|split; [|split; [|reflexivity]]];
    apply Forall_forall; intros p Hp;
    apply basePoints_In in Hp; destruct Hp as [_ Hz]; rewrite Hz; clear Hz.
  - destruct (nonempty z); [|split; reflexivity]. cbv zeta.
    unfold truthy.
    destruct (is_zero (Number (get (raw p) z))) eqn:E1;
      destruct (isNaN (Number (get (raw p) z))) eqn:E2;
      cbn [orb negb]; split; (reflexivity || assumption).
  - reflexivity.
  - intros H. destruct (nonempty z); [|reflexivity]. cbv zeta.
    assert (E : truthy (Number (get (raw p) z)) = false).
    { unfold truthy. destruct H as [H | [H | H]].
      - rewrite H. reflexivity.
      - rewrite H. now rewrite orb_true_r.
      - now rewrite H. }
    now rewrite E.
Qed.

End PointFacts.

(** ** Order of binary64 numbers *)

Module OrderFacts.
Import JS Data Spec.

Lemma isFinite_spec (x : float) : isFinite x = finiteSF (Prim2SF x).
Proof.
  unfold isFinite, is_finite, is_nan, is_infinity.
  rewrite !eqb_spec, abs_spec. unfold SFeqb.
  destruct (Prim2SF x) as [s|s| |s m e] eqn:E; cbn.
  - reflexivity.
  - destruct s; reflexivity.
  - reflexivity.
  - rewrite Z.compare_refl.
    assert (Hm : Pos.compare_cont Eq m m = Eq) by apply Pos.compare_refl.
    rewrite Hm. destruct s; reflexivity.
Qed.

Lemma SFcompare_trans_lt (x y z : spec_float) :
  SFcompare x y = Some Lt -> SFcompare y z = Some Lt -> SFcompare x z = Some Lt.
Proof.
  destruct x as [sx|sx| |sx mx ex], y as [sy|sy| |sy my ey], z as [sz|sz| |sz mz ez];
    cbn; try congruence;
    try (destruct sx; congruence); try (destruct sy; congruence);
    try (destruct sz; congruence);
    try (destruct sx, sy; congruence); try (destruct sy, sz; congruence);
    try (destruct sx, sz; congruence);
    try (destruct sx, sy, sz; congruence).
  all: rewrite ?Pos.compare_cont_spec; cbn [Pos.switch_Eq].
  all: destruct sx, sy, sz; try congruence.
  all: destruct (Z.compare_spec ex ey), (Z.compare_spec ey ez); try congruence;
       destruct (Z.compare_spec ex ez); try congruence; try lia.
  all: subst.
  all: repeat match goal with
       | |- context [Pos.compare ?a ?b] => destruct (Pos.compare_spec a b)
       end; cbn; try congruence; try lia.
Qed.

Lemma ltb_trans (x y z : float) :
  (x <? y)%float = true -> (y <? z)%float = true -> (x <? z)%float = true.
Proof.
  rewrite !ltb_spec. unfold SFltb. intros H1 H2.
  destruct (SFcompare (Prim2SF x) (Prim2SF y)) as [[]|] eqn:E1; try discriminate.
  destruct (SFcompare (Prim2SF y) (Prim2SF z)) as [[]|] eqn:E2; try discriminate.
  now rewrite (@SFcompare_trans_lt _ _ _ E1 E2).
Qed.

Lemma ltb_infinity (x : float) : isFinite x = true -> (x <? infinity)%float = true.
Proof.
  rewrite isFinite_spec, ltb_spec. unfold SFltb.
  change (Prim2SF infinity) with (S754_infinity false).
  destruct (Prim2SF x) as [s|s| |s m e]; cbn; congruence.
Qed.

Lemma neg_infinity_ltb (x : float) : isFinite x = true -> (neg_infinity <? x)%float = true.
Proof.
  rewrite isFinite_spec, ltb_spec. unfold SFltb.
  change (Prim2SF neg_infinity) with (S754_infinity true).
  destruct (Prim2SF x) as [s|s| |s m e]; cbn; congruence.
Qed.

Lemma SFcompare_antisym (x y : spec_float) :
  SFcompare y x = option_map CompOpp (SFcompare x y).
Proof.
  destruct x as [sx|sx| |sx mx ex], y as [sy|sy| |sy my ey]; cbn; try reflexivity;
    try (destruct sx; reflexivity); try (destruct sy; reflexivity);
    try (destruct sx, sy; reflexivity).
  rewrite (Z.compare_antisym ex ey).
  rewrite !Pos.compare_cont_spec. cbn [Pos.switch_Eq].
  rewrite (Pos.compare_antisym mx my).
  destruct sx, sy, (ex ?= ey)%Z, (mx ?= my)%positive; reflexivity.
Qed.

Lemma isNaN_spec (x : float) :
  isNaN x = match Prim2SF x with S754_nan => true | _ => false end.
Proof.
  unfold isNaN, is_nan. rewrite eqb_spec. unfold SFeqb.
  destruct (Prim2SF x) as [s|s| |s m e] eqn:E; try reflexivity;
    rewrite FloatFacts.SFcompare_refl by congruence; reflexivity.
Qed.

(** Two numbers that are not the sentinel compare one way or the other. *)
Lemma ltb_false_leb (x y : float) :
  isNaN x = false -> isNaN y = false -> (x <? y)%float = false -> (y <=? x)%float = true.
Proof.
  rewrite !isNaN_spec, ltb_spec, leb_spec.
  unfold SFltb, SFleb.
  rewrite (SFcompare_antisym (Prim2SF x) (Prim2SF y)).
  destruct (Prim2SF x) as [sx|sx| |sx mx ex], (Prim2SF y) as [sy|sy| |sy my ey];
    cbn; try congruence; try (destruct sx; cbn; congruence);
    try (destruct sy; cbn; congruence); try (destruct sx, sy; cbn; congruence).
  destruct sx, sy; try congruence;
    destruct (ex ?= ey)%Z; try congruence;
    destruct (Pos.compare_cont Eq mx my); cbn; congruence.
Qed.

Lemma isFinite_not_nan (x : float) : isFinite x = true -> isNaN x = false.
Proof.
  unfold isFinite, is_finite, isNaN. intros H.
  apply negb_true_iff, orb_false_iff in H. apply H.
Qed.

(** The sign of a rounded integer is the sign of the integer. *)
Lemma binary_round_neg (p : positive) (e : Z) :
  SFltb (S754_zero false) (binary_round prec emax true p e) = false.
Proof.
  unfold binary_round, binary_round_aux.
  destruct (shl_align p e _) as [mz ez].
  destruct (shr_fexp prec emax (Z.pos mz) ez loc_Exact) as [mrs' e'].
  destruct (shr_fexp prec emax _ e' loc_Exact) as [mrs'' e''].
  destruct (shr_m mrs''); try reflexivity.
  destruct (e'' <=? emax - prec)%Z; reflexivity.
Qed.

Lemma SFsub_pos_antisym (x y : spec_float) :
  SFltb (S754_zero false) (SFsub prec emax y x) = true ->
  SFltb (S754_zero false) (SFsub prec emax x y) = false.
Proof.
  destruct x as [sx|sx| |sx mx ex], y as [sy|sy| |sy my ey]; cbn;
    try congruence; try (destruct sx; cbn; congruence);
    try (destruct sy; cbn; congruence); try (destruct sx, sy; cbn; congruence).
  rewrite (Z.min_comm ey ex).
  set (ez := Z.min ex ey).
  set (a := cond_Zopp sx (Z.pos (fst (shl_align mx ex ez)))).
  set (b := cond_Zopp sy (Z.pos (fst (shl_align my ey ez)))).
  replace (a - b) with (- (b - a)) by lia.
  destruct (b - a) as [|p|p]; cbn [Z.opp binary_normalize].
  - cbn. congruence.
  - intros _. apply binary_round_neg.
  - rewrite binary_round_neg. congruence.
Qed.

Lemma sub_pos_antisym (a b : float) :
  (0 <? b - a)%float = true -> (0 <? a - b)%float = false.
Proof.
  rewrite !ltb_spec, !sub_spec. apply SFsub_pos_antisym.
Qed.

Lemma sub_self (x : float) : isFinite x = true -> Prim2SF (x - x)%float = S754_zero false.
Proof.
  rewrite isFinite_spec, sub_spec.
  destruct (Prim2SF x) as [s|s| |s m e]; cbn; try congruence.
  - destruct s; reflexivity.
  - intros _. rewrite Z.sub_diag. reflexivity.
Qed.

Lemma leb_both_zero (x : float) :
  (0 <=? x)%float = true -> (x <=? 0)%float = true -> (x =? 0)%float = true.
Proof.
  rewrite !leb_spec, eqb_spec. unfold SFleb, SFeqb.
  change (Prim2SF 0) with (S754_zero false).
  destruct (Prim2SF x) as [s|s| |s m e]; cbn; try congruence; destruct s; congruence.
Qed.

End OrderFacts.

(** ** Sorted arrays *)

Module SortFacts.
Import JS Data Spec OrderFacts.

Section Sorted.
Variable A : Type.
Variable cmp : A -> A -> float.
Hypothesis cmp_antisym :
  forall a b, (0 <? cmp a b)%float = true -> (0 <? cmp b a)%float = false.

Lemma ordered_cons (a : A) (l : list A) :
  ordered cmp (a :: l) = true <->
  match l with [] => True | b :: _ => (0 <? cmp a b)%float = false end
  /\ ordered cmp l = true.
Proof.
  destruct l as [|b l]; cbn [ordered].
  - tauto.
  - rewrite andb_true_iff, negb_true_iff. tauto.
Qed.

Lemma insert_ordered (x : A) (l : list A) :
  ordered cmp l = true -> ordered cmp (insert cmp x l) = true.
Proof.
  induction l as [|y l IH]; intros H.
  - reflexivity.
  - cbn [insert]. destruct (0 <? cmp x y)%float eqn:E.
    + apply ordered_cons in H. destruct H as [Hy Hl].
      apply ordered_cons. split; [|now apply IH].
      destruct l as [|z l]; cbn [insert].
      * now apply cmp_antisym.
      * destruct (0 <? cmp x z)%float; [exact Hy | now apply cmp_antisym].
    + apply ordered_cons. split; [exact E | exact H].
Qed.

Lemma sort_ordered (l : list A) : ordered cmp (sort cmp l) = true.
Proof.
  induction l as [|x l IH]; [reflexivity|].
  cbn [sort fold_right]. now apply insert_ordered.
Qed.

Lemma ordered_firstn (n : nat) (l : list A) :
  ordered cmp l = true -> ordered cmp (firstn n l) = true.
Proof.
  revert l; induction n as [|n IH]; intros l H; [reflexivity|].
  destruct l as [|a l]; [reflexivity|].
  cbn [firstn]. apply ordered_cons in H. destruct H as [Ha Hl].
  apply ordered_cons. split; [|now apply IH].
  destruct l as [|b l]; [destruct n; exact I|].
  destruct n; cbn [firstn]; [exact I | exact Ha].
Qed.
End Sorted.

Lemma codeUnitOrder_antisym (a b : string) :
  (0 <? codeUnitOrder a b)%float = true -> (0 <? codeUnitOrder b a)%float = false.
Proof.
  unfold codeUnitOrder. rewrite (String.compare_antisym a b).
  destruct (String.compare b a); cbn; intros H; try reflexivity; discriminate H.
Qed.
End SortFacts.

(** ** Buckets of the one-dimension aggregation *)

Module BucketFacts.
Import JS Data Spec Shadow Treatment MapFacts ExactFacts AggFacts OrderFacts SortFacts.

Lemma getZ_mapSet (m : list (string * Z)) (k k2 : string) (v : Z) :
  getZ (mapSet m k v) k2 = if String.eqb k k2 then v else getZ m k2.
Proof.
  unfold getZ. destruct (String.eqb_spec k k2) as [<- | Hne].
  - now rewrite mapGet_mapSet_eq.
  - now rewrite mapGet_mapSet_neq.
Qed.

Lemma groupedZ_get (c : row -> Z) (cat : string) (rows : list row) :
  forall (m : list (string * Z)) (k : string),
    getZ (groupedZ c cat rows m) k = getZ m k + sumOf c (rowsOf cat k rows).
Proof.
  induction rows as [|r rows IH]; intros m k.
  - cbn. lia.
  - change (groupedZ c cat (r :: rows) m)
      with (groupedZ c cat rows
              (mapSet m (category cat r) (getZ m (category cat r) + c r))).
    rewrite IH, getZ_mapSet. unfold rowsOf. cbn [filter].
    destruct (String.eqb_spec (category cat r) k) as [<- | Hne]; cbn [sumOf]; lia.
Qed.

Lemma In_getZ (m : list (string * Z)) (kv : string * Z) :
  NoDup (map fst m) -> In kv m -> getZ m (fst kv) = snd kv.
Proof.
  unfold getZ. induction m as [|[k' v'] m IH]; intros Hnd Hin; [destruct Hin|].
  cbn [map fst] in Hnd. inversion Hnd as [|? ? Hk Hm]; subst.
  cbn [mapGet]. destruct Hin as [<- | Hin].
  - cbn [fst snd]. now rewrite String.eqb_refl.
  - destruct (String.eqb_spec k' (fst kv)) as [E | _]; [|now apply IH].
    exfalso. apply Hk. rewrite E. now apply in_map.
Qed.

Section Host.
Variable localeCompare : string -> string -> float.

Local Abbreviation baseAgg := (Treatment.baseAgg localeCompare).

(** Without a positive limit nothing is collapsed. *)
Lemma baseAgg_no_limit (rows : list row) (cat metric sortBy : string) (topN : Z) :
  topN <= 0 -> baseAgg rows cat metric sortBy topN = baseAgg rows cat metric sortBy 0.
Proof.
  intros H. unfold Treatment.baseAgg.
  now replace (0 <? topN) with false by (symmetry; apply Z.ltb_ge; exact H).
Qed.

(** Under a limit the buckets before the collapsed one are the first
    [topN] buckets of the unlimited result. *)
Lemma shown_prefix (rows : list row) (cat metric sortBy : string) (topN : Z) :
  shown topN (baseAgg rows cat metric sortBy topN)
  = shown topN (baseAgg rows cat metric sortBy 0).
Proof.
  unfold shown. destruct (0 <? topN) eqn:E.
  - apply Z.ltb_lt in E.
    rewrite (@baseAgg_collapse localeCompare rows cat metric sortBy topN E). cbv zeta.
    set (full := baseAgg rows cat metric sortBy 0).
    destruct (topN <? Z.of_nat (List.length full)) eqn:E2; [|reflexivity].
    apply Z.ltb_lt in E2.
    rewrite firstn_app, firstn_firstn, Nat.min_id.
    replace (Z.to_nat topN - List.length (firstn (Z.to_nat topN) full))%nat with 0%nat
      by (rewrite length_firstn; lia).
    cbn [firstn]. now rewrite app_nil_r.
  - apply Z.ltb_ge in E. now apply baseAgg_no_limit.
Qed.

Lemma shown_incl (A : Type) (topN : Z) (l : list A) : incl (shown topN l) l.
Proof.
  unfold shown. destruct (0 <? topN); [|apply incl_refl].
  intros b Hb. rewrite <- (firstn_skipn (Z.to_nat topN) l). apply in_or_app. now left.
Qed.

(** X1. Every bucket shown under a category name (all of them without a
    limit, those before the collapsed one with a limit) holds the sum of
    what the rows of that category add, exactly, whenever every row adds
    a natural number and these add up to less than [2 ^ 53]; with the
    metric count this is the number of rows of the category. *)
Theorem bucket_values_exact (rows : list row) (cat metric sortBy : string) (topN : Z)
  (c : row -> Z) :
  nonempty cat = true ->
  (forall r, In r rows -> 0 <= c r /\ contribution metric r = ofZ (c r)) ->
  sumOf c rows < 2 ^ 53 ->
  Forall (fun b => value b = ofZ (sumOf c (rowsOf cat (name b) rows)))
    (shown topN (baseAgg rows cat metric sortBy topN)).
Proof.
  intros Hcat Hc Ht. apply Forall_forall. intros b Hb.
  rewrite shown_prefix in Hb. apply shown_incl in Hb.
  apply (Permutation_in _ (@baseAgg_unlimited localeCompare rows cat metric sortBy Hcat)) in Hb.
  destruct (@grouped_shadow cat metric c rows [] (Forall_nil _) Hc Ht) as (E & _ & _).
  change (fold_left _ rows (lift [])) with (grouped cat metric rows) in E.
  pose proof (grouped_keys cat metric rows) as [Hnd _].
  rewrite E in Hb, Hnd. unfold lift in Hb, Hnd. rewrite map_map in Hb, Hnd.
  cbn [fst snd] in Hb, Hnd.
  apply in_map_iff in Hb. destruct Hb as (kv & <- & Hin).
  cbn [value name]. f_equal.
  rewrite <- (@In_getZ _ kv Hnd Hin), groupedZ_get. reflexivity.
Qed.


(** X3. With a limit [topN > 0] there are at most [topN + 1] buckets,
    and never more buckets than rows. *)
Theorem baseAgg_size (rows : list row) (cat metric sortBy : string) (topN : Z) :
  0 < topN ->
  (List.length (baseAgg rows cat metric sortBy topN) <= Z.to_nat topN + 1)%nat
  /\ (List.length (baseAgg rows cat metric sortBy topN) <= List.length rows)%nat.
Proof.
  intros Hn.
  assert (Hfull : (List.length (baseAgg rows cat metric sortBy 0) <= List.length rows)%nat).
  { destruct (nonempty cat) eqn:Hcat.
    - rewrite (Permutation_length (@baseAgg_unlimited localeCompare rows cat metric sortBy Hcat)).
      rewrite length_map.
      destruct (grouped_keys cat metric rows) as [Hnd Hk].
      rewrite <- (length_map fst), <- (length_map (category cat) rows).
      apply NoDup_incl_length; [exact Hnd|]. intros k Hin. now apply Hk.
    - unfold Treatment.baseAgg. rewrite Hcat. cbn. lia. }
  rewrite (@baseAgg_collapse localeCompare rows cat metric sortBy topN Hn). cbv zeta.
  set (full := baseAgg rows cat metric sortBy 0) in *.
  destruct (topN <? Z.of_nat (List.length full)) eqn:E.
  - apply Z.ltb_lt in E. rewrite length_app, length_firstn. cbn [List.length]. lia.
  - apply Z.ltb_ge in E. lia.
Qed.

(** X4. The buckets shown under a category name are in the order of the
    comparator the code sorts with: no bucket is followed by one that the
    comparator puts before it.  By value this holds as it is; by name it
    holds on a host whose [localeCompare] never puts each of two names
    after the other.  With a limit these buckets are the first [topN] of
    the unlimited order. *)
Theorem baseAgg_order (rows : list row) (cat metric sortBy : string) (topN : Z) :
  (String.eqb sortBy "name" = true ->
   forall a b, (0 <? localeCompare a b)%float = true -> (0 <? localeCompare b a)%float = false) ->
  ordered (comparator localeCompare sortBy)
    (shown topN (baseAgg rows cat metric sortBy topN)) = true
  /\ shown topN (baseAgg rows cat metric sortBy topN)
     = shown topN (baseAgg rows cat metric sortBy 0).
Proof.
  intros Hlc.
  assert (Hanti : forall a b : bucket,
             (0 <? comparator localeCompare sortBy a b)%float = true ->
             (0 <? comparator localeCompare sortBy b a)%float = false).
  { intros a b. unfold comparator. destruct (String.eqb sortBy "name").
    - now apply Hlc.
    - apply sub_pos_antisym. }
  assert (Hfull : ordered (comparator localeCompare sortBy) (baseAgg rows cat metric sortBy 0) = true).
  { unfold Treatment.baseAgg. destruct (nonempty cat); [|reflexivity].
    cbn [negb Z.ltb Z.compare andb]. now apply sort_ordered. }
  split; [|apply shown_prefix]. rewrite shown_prefix. unfold shown.
  destruct (0 <? topN); [now apply ordered_firstn | exact Hfull].
Qed.

End Host.

(** The count metric on the four rows of [Samples.otherRows]. *)
Lemma bucket_values_exact_witness :
  Forall (fun b => value b = ofZ (sumOf (fun _ => 1) (rowsOf "cat" (name b) Samples.otherRows)))
    (shown 0 (baseAgg codeUnitOrder Samples.otherRows "cat" "count" "value" 0)).
Proof.
  apply (@bucket_values_exact codeUnitOrder Samples.otherRows "cat" "count" "value" 0
           (fun _ => 1)).
  - reflexivity.
  - intros r _. split; [lia | reflexivity].
  - cbn. lia.
Defined.


Lemma baseAgg_size_witness :
  (List.length (baseAgg codeUnitOrder Samples.otherRows "cat" "count" "value" 1) <= 2)%nat
  /\ (List.length (baseAgg codeUnitOrder Samples.otherRows "cat" "count" "value" 1) <= 4)%nat.
Proof.
  apply (@baseAgg_size codeUnitOrder Samples.otherRows "cat" "count" "value" 1). lia.
Defined.

(** Sorting by name on a host that compares code units. *)
Lemma baseAgg_order_witness :
  ordered (comparator codeUnitOrder "name")
    (shown 2 (baseAgg codeUnitOrder Samples.otherRows "cat" "count" "name" 2)) = true
  /\ shown 2 (baseAgg codeUnitOrder Samples.otherRows "cat" "count" "name" 2)
     = shown 2 (baseAgg codeUnitOrder Samples.otherRows "cat" "count" "name" 0).
Proof.
  apply (@baseAgg_order codeUnitOrder Samples.otherRows "cat" "count" "name" 2).
  intros _. exact codeUnitOrder_antisym.
Defined.

End BucketFacts.

(** ** The two-dimension aggregation *)

Module PivotFacts.
Import JS Data Spec Shadow Pivot Treatment MapFacts ExactFacts AggFacts OrderFacts SortFacts BucketFacts.

Lemma loop_split (cat groupBy metric : string) (rows : list row) :
  forall m s,
    fold_left
      (fun st r =>
         let '(m, groupsSet) := st in
         let key := safeCat (get r cat) in
         let grp := safeCat (get r groupBy) in
         let groupsSet := setAdd groupsSet grp in
         let rowMap := match mapGet m key with Some rm => rm | None => [] end in
         let curr := getOrZero rowMap grp in
         let rowMap := mapSet rowMap grp (curr + contribution metric r)%float in
         (mapSet m key rowMap, groupsSet))
      rows (m, s)
    = (nested cat groupBy metric rows m, groupLabels groupBy rows s).
Proof.
  induction rows as [|r rows IH]; intros m s; [reflexivity|].
  cbn [fold_left]. cbv zeta. rewrite IH. reflexivity.
Qed.

Lemma groupedAgg_unfold (rows : list row) (cat groupBy metric : string) (topN : Z) :
  nonempty cat = true -> nonempty groupBy = true ->
  exists other,
    groupedAgg rows cat groupBy metric topN
    = Some (map (rowOf cat (sort codeUnitOrder (groupLabels groupBy rows [])))
              (let cats := catsOf (nested cat groupBy metric rows []) in
               if (0 <? topN) && (topN <? Z.of_nat (List.length cats))
               then (firstn (Z.to_nat topN) cats ++ [other])%list else cats),
            sort codeUnitOrder (groupLabels groupBy rows [])).
Proof.
  intros Hc Hg. unfold groupedAgg. rewrite Hc, Hg. cbn [negb orb].
  rewrite loop_split. cbv zeta.
  eexists. reflexivity.
Qed.

Lemma setAdd_In (s : list string) (g k : string) :
  In k (setAdd s g) <-> In k s \/ k = g.
Proof.
  unfold setAdd. destruct (includes s g) eqn:E.
  - apply SeriesFacts.includes_In in E. split; [now left | intros [H | ->]; assumption].
  - rewrite in_app_iff. cbn. intuition congruence.
Qed.

Lemma setAdd_NoDup (s : list string) (g : string) : NoDup s -> NoDup (setAdd s g).
Proof.
  intros H. unfold setAdd. destruct (includes s g) eqn:E; [exact H|].
  apply NoDup_app; [exact H | constructor; [intros [] | constructor] |].
  intros a Ha [<- | []].
  assert (includes s g = true) by now apply SeriesFacts.includes_In.
  congruence.
Qed.

Lemma groupLabels_spec (groupBy : string) (rows : list row) :
  forall s, NoDup s ->
    NoDup (groupLabels groupBy rows s)
    /\ forall g, In g (groupLabels groupBy rows s)
                 <-> In g s \/ In g (map (category groupBy) rows).
Proof.
  induction rows as [|r rows IH]; intros s Hs.
  - split; [exact Hs|]. intros g. cbn. tauto.
  - change (groupLabels groupBy (r :: rows) s)
      with (groupLabels groupBy rows (setAdd s (category groupBy r))).
    destruct (IH _ (setAdd_NoDup (category groupBy r) Hs)) as [Hnd Hk].
    split; [exact Hnd|]. intros g. rewrite Hk, setAdd_In. cbn [map In].
    intuition congruence.
Qed.

Lemma nested_keys (cat groupBy metric : string) (rows : list row) :
  forall m, NoDup (map fst m) -> NoDup (map fst (nested cat groupBy metric rows m)).
Proof.
  induction rows as [|r rows IH]; intros m Hm; [exact Hm|].
  cbn [nested fold_left]. apply IH. now apply mapSet_keys_NoDup.
Qed.

Lemma nested_get (cat groupBy metric : string) (rows : list row) :
  forall m k,
    mapGet (nested cat groupBy metric rows m) k
    = match mapGet m k, rowsOf cat k rows with
      | None, [] => None
      | o, rs => Some (groupedFrom groupBy metric rs
                         (match o with Some rm => rm | None => [] end))
      end.
Proof.
  induction rows as [|r rows IH]; intros m k.
  - cbn. now destruct (mapGet m k).
  - cbn [nested fold_left]. cbv zeta.
    match goal with |- mapGet (fold_left ?f rows ?m1) k = _ =>
      change (fold_left f rows m1) with (nested cat groupBy metric rows m1) end.
    rewrite IH. unfold rowsOf. cbn [filter].
    destruct (String.eqb_spec (category cat r) k) as [E | Hne].
    + rewrite E, mapGet_mapSet_eq.
      fold (rowsOf cat k rows).
      destruct (mapGet m k); reflexivity.
    + rewrite mapGet_mapSet_neq by exact Hne. reflexivity.
Qed.

Lemma In_mapGet (V : Type) (m : list (string * V)) (kv : string * V) :
  NoDup (map fst m) -> In kv m -> mapGet m (fst kv) = Some (snd kv).
Proof.
  induction m as [|[k' v'] m IH]; intros Hnd Hin; [destruct Hin|].
  cbn [map fst] in Hnd. inversion Hnd as [|? ? Hk Hm]; subst.
  cbn [mapGet]. destruct Hin as [<- | Hin].
  - cbn [fst snd]. now rewrite String.eqb_refl.
  - destruct (String.eqb_spec k' (fst kv)) as [E | _]; [|now apply IH].
    exfalso. apply Hk. rewrite E. now apply in_map.
Qed.

(** An entry of the nested map is the one-dimension grouping of the rows
    of its category. *)
Lemma nested_entry (cat groupBy metric : string) (rows : list row)
  (kv : string * list (string * float)) :
  In kv (nested cat groupBy metric rows []) ->
  In (fst kv) (map (category cat) rows)
  /\ snd kv = grouped groupBy metric (rowsOf cat (fst kv) rows).
Proof.
  intros Hin.
  pose proof (@In_mapGet _ _ kv (@nested_keys cat groupBy metric rows [] (NoDup_nil _)) Hin) as E.
  rewrite nested_get in E. cbn [mapGet] in E.
  destruct (rowsOf cat (fst kv) rows) as [|r0 rs] eqn:Er; [discriminate E|].
  injection E as E. split; [|now rewrite <- E].
  assert (Hr : In r0 (rowsOf cat (fst kv) rows)) by (rewrite Er; now left).
  apply filter_In in Hr. destruct Hr as [Hr Hk]. apply String.eqb_eq in Hk.
  rewrite <- Hk. now apply in_map.
Qed.

Lemma shown_incl_gen (A : Type) (topN : Z) (l : list A) (other : A) :
  incl (shown topN (if (0 <? topN) && (topN <? Z.of_nat (List.length l))
                    then (firstn (Z.to_nat topN) l ++ [other])%list else l))
       l.
Proof.
  unfold shown. destruct (0 <? topN) eqn:E; cbn [andb]; [|apply incl_refl].
  apply Z.ltb_lt in E.
  destruct (topN <? Z.of_nat (List.length l)) eqn:E2.
  - apply Z.ltb_lt in E2.
    rewrite firstn_app, firstn_firstn, Nat.min_id.
    replace (Z.to_nat topN - List.length (firstn (Z.to_nat topN) l))%nat with 0%nat
      by (rewrite length_firstn; lia).
    cbn [firstn]. rewrite app_nil_r. intros b Hb.
    rewrite <- (firstn_skipn (Z.to_nat topN) l). apply in_or_app. now left.
  - intros b Hb. rewrite <- (firstn_skipn (Z.to_nat topN) l). apply in_or_app. now left.
Qed.

Lemma shown_map (A B : Type) (f : A -> B) (topN : Z) (l : list A) :
  shown topN (map f l) = map f (shown topN l).
Proof. unfold shown. destruct (0 <? topN); [apply firstn_map | reflexivity]. Qed.

Lemma rowOf_group (cat : string) (groups : list string) (c : catRow) (g : string) :
  In g groups -> g <> "__proto__" ->
  get (rowOf cat groups c) g = Num (getOrZero (parts c) g).
Proof.
  intros Hin Hg. unfold rowOf.
  rewrite (get_fold_assign (fun g => Num (getOrZero (parts c) g))).
  apply SeriesFacts.includes_In in Hin. now rewrite Hin, (not_proto_stored _ Hg).
Qed.

Lemma rowOf_cat (cat : string) (groups : list string) (c : catRow) :
  includes groups cat = false -> get (rowOf cat groups c) cat = Str (cname c).
Proof.
  intros Hin. unfold rowOf.
  rewrite (get_fold_assign (fun g => Num (getOrZero (parts c) g))), Hin.
  cbn [andb get]. now rewrite String.eqb_refl.
Qed.


(** A row keeps a cell under the category column and under every group
    label, when none is [__proto__]. *)
Lemma rowOf_own (cat : string) (groups : list string) (c : catRow) :
  ~ In "__proto__" groups ->
  Forall (fun k => own (rowOf cat groups c) k = true) (cat :: groups).
Proof.
  intros Hp. apply Forall_forall. intros k Hk. unfold rowOf.
  rewrite (own_fold_assign (fun g => Num (getOrZero (parts c) g))).
  destruct Hk as [<- | Hk].
  - unfold own at 1, includes. cbn [map fst existsb]. now rewrite String.eqb_refl.
  - assert (Hne : k <> "__proto__") by (intros ->; contradiction).
    apply SeriesFacts.includes_In in Hk.
    rewrite Hk, (not_proto_stored _ Hne). apply orb_true_r.
Qed.

(** Each row shown under a category name is written from an entry of
    the nested map. *)
Lemma groupedAgg_shown (rows : list row) (cat groupBy metric : string) (topN : Z) :
  nonempty cat = true -> nonempty groupBy = true ->
  exists data groups,
    groupedAgg rows cat groupBy metric topN = Some (data, groups)
    /\ Forall (fun d => exists kv,
                 In kv (nested cat groupBy metric rows [])
                 /\ get d cat = (if includes groups cat then get d cat else Str (fst kv))
                 /\ Forall (fun g => g <> "__proto__" ->
                                     get d g = Num (getOrZero (snd kv) g)) groups)
         (shown topN data).
Proof.
  intros Hc Hg.
  destruct (@groupedAgg_unfold rows cat groupBy metric topN Hc Hg) as (other & E).
  eexists. eexists. split; [exact E|].
  rewrite shown_map. apply Forall_map, Forall_forall. intros c Hin.
  apply shown_incl_gen in Hin. unfold catsOf in Hin.
  apply (Permutation_in _ (sort_perm _ _)) in Hin.
  apply in_map_iff in Hin. destruct Hin as (kv & <- & Hkv).
  exists kv. split; [exact Hkv|]. split.
  - destruct (includes _ cat) eqn:Hno; [reflexivity | now rewrite rowOf_cat].
  - apply Forall_forall. intros g Hin Hp. now rewrite rowOf_group by assumption.
Qed.

Lemma sumOf_filter_le (c : row -> Z) (f : row -> bool) (rows : list row) :
  (forall r, In r rows -> 0 <= c r) -> 0 <= sumOf c (filter f rows) <= sumOf c rows.
Proof.
  induction rows as [|r rows IH]; intros H; cbn [filter sumOf]; [lia|].
  assert (0 <= c r) by (apply H; now left).
  assert (0 <= sumOf c (filter f rows) <= sumOf c rows)
    by (apply IH; intros r0 Hr0; apply H; now right).
  destruct (f r); cbn [sumOf]; lia.
Qed.

(** The one-dimension grouping holds exact sums of integer contributions. *)
Lemma grouped_exact (cat metric : string) (c : row -> Z) (rows : list row) (k : string) :
  (forall r, In r rows -> 0 <= c r /\ contribution metric r = ofZ (c r)) ->
  sumOf c rows < 2 ^ 53 ->
  getOrZero (grouped cat metric rows) k = ofZ (sumOf c (rowsOf cat k rows)).
Proof.
  intros Hc Ht.
  destruct (@grouped_shadow cat metric c rows [] (Forall_nil _) Hc Ht) as (E & Hn & Htot).
  change (fold_left _ rows (lift [])) with (grouped cat metric rows) in E.
  rewrite E, getOrZero_lift by (exact Hn || (rewrite Htot; cbn [totalZ]; lia)).
  now rewrite groupedZ_get.
Qed.

Lemma getOrZero_not_nan (m : list (string * float)) (k : string) :
  isNaN (getOrZero m k) = false.
Proof.
  unfold getOrZero. destruct (mapGet m k) as [v|]; [|reflexivity].
  destruct (truthy v) eqn:E; [|reflexivity].
  unfold truthy in E. apply negb_true_iff, orb_false_iff in E. apply E.
Qed.

(** X5. With a category and a group column, [groupedAgg] returns its
    object, and each row shown under a category name (all of them without
    a limit, those before the collapsed one with a limit) is the
    one-dimension aggregation of the rows of that category by the group
    column: under each group label other than [__proto__], the one name a
    row does not keep, it holds the value that grouping gives to the
    label, 0 when it gives none; and it holds the category name under the
    category column unless a group label is that column. *)
Theorem groupedAgg_rows (rows : list row) (cat groupBy metric : string) (topN : Z) :
  nonempty cat = true -> nonempty groupBy = true ->
  exists data groups,
    groupedAgg rows cat groupBy metric topN = Some (data, groups)
    /\ Forall (fun d => exists k,
                 In k (map (category cat) rows)
                 /\ (includes groups cat = false -> get d cat = Str k)
                 /\ Forall (fun g => g <> "__proto__" ->
                                     get d g
                                     = Num (getOrZero (grouped groupBy metric (rowsOf cat k rows)) g))
                      groups)
         (shown topN data).
Proof.
  intros Hcat Hg.
  destruct (@groupedAgg_shown rows cat groupBy metric topN Hcat Hg) as (data & groups & E & H).
  exists data, groups. split; [exact E|].
  eapply Forall_impl; [|exact H]. cbv beta.
  intros d (kv & Hkv & Hname & Hcells).
  apply nested_entry in Hkv. destruct Hkv as [Hk Hrm].
  exists (fst kv). split; [exact Hk|]. split.
  - intros Hno. now rewrite Hno in Hname.
  - now rewrite <- Hrm.
Qed.

(** X6. Each cell of such a row, under a group label other than
    [__proto__], holds the sum of what the rows of its category and group
    add, exactly, whenever every row adds a natural number and these add
    up to less than [2 ^ 53]; with the metric count it is the number of
    rows of that category and group. *)
Theorem groupedAgg_cells_exact (rows : list row) (cat groupBy metric : string) (topN : Z)
  (c : row -> Z) :
  nonempty cat = true -> nonempty groupBy = true ->
  (forall r, In r rows -> 0 <= c r /\ contribution metric r = ofZ (c r)) ->
  sumOf c rows < 2 ^ 53 ->
  exists data groups,
    groupedAgg rows cat groupBy metric topN = Some (data, groups)
    /\ Forall (fun d => exists k,
                 In k (map (category cat) rows)
                 /\ (includes groups cat = false -> get d cat = Str k)
                 /\ Forall (fun g => g <> "__proto__" ->
                                     get d g
                                     = Num (ofZ (sumOf c (rowsOf groupBy g (rowsOf cat k rows)))))
                      groups)
         (shown topN data).
Proof.
  intros Hcat Hg Hc Ht.
  destruct (@groupedAgg_shown rows cat groupBy metric topN Hcat Hg) as (data & groups & E & H).
  exists data, groups. split; [exact E|].
  eapply Forall_impl; [|exact H]. cbv beta.
  intros d (kv & Hkv & Hname & Hcells).
  apply nested_entry in Hkv. destruct Hkv as [Hk Hrm].
  exists (fst kv). split; [exact Hk|]. split.
  - intros Hno. now rewrite Hno in Hname.
  - eapply Forall_impl; [|exact Hcells]. cbv beta. intros g Hcell Hp.
    rewrite (Hcell Hp). f_equal.
    rewrite Hrm. apply grouped_exact.
    + intros r Hr. apply Hc. unfold rowsOf in Hr. apply filter_In in Hr. apply Hr.
    + assert (0 <= sumOf c (rowsOf cat (fst kv) rows) <= sumOf c rows)
        by (apply sumOf_filter_le; intros r Hr; now apply Hc).
      lia.
Qed.

(** X7. The group labels [groupedAgg] returns are pairwise distinct, are
    exactly the labels the rows have in the group column (Unknown for a
    missing or empty one), and are in code-unit order. *)
Theorem groupedAgg_groups (rows : list row) (cat groupBy metric : string) (topN : Z) :
  nonempty cat = true -> nonempty groupBy = true ->
  exists data groups,
    groupedAgg rows cat groupBy metric topN = Some (data, groups)
    /\ NoDup groups
    /\ (forall g, In g groups <-> In g (map (category groupBy) rows))
    /\ ordered codeUnitOrder groups = true.
Proof.
  intros Hcat Hg.
  destruct (@groupedAgg_unfold rows cat groupBy metric topN Hcat Hg) as (other & E).
  eexists. eexists. split; [exact E|].
  destruct (@groupLabels_spec groupBy rows [] (NoDup_nil _)) as [Hnd Hk].
  pose proof (sort_perm codeUnitOrder (groupLabels groupBy rows [])) as HP.
  split; [|split].
  - apply (Permutation_NoDup (Permutation_sym HP)). exact Hnd.
  - intros g. split.
    + intros Hin. apply (Permutation_in _ HP), Hk in Hin. destruct Hin as [[] | Hin]. exact Hin.
    + intros Hin. apply (Permutation_in _ (Permutation_sym HP)), Hk. now right.
  - apply sort_ordered. apply codeUnitOrder_antisym.
Qed.


(** The count metric on the four rows of [Samples.pivotRows]. *)
Lemma groupedAgg_rows_witness :
  exists data groups,
    groupedAgg Samples.pivotRows "c" "g" "count" 1 = Some (data, groups)
    /\ Forall (fun d => exists k,
                 In k (map (category "c") Samples.pivotRows)
                 /\ (includes groups "c" = false -> get d "c" = Str k)
                 /\ Forall (fun g => g <> "__proto__" ->
                                     get d g
                                     = Num (getOrZero
                                              (grouped "g" "count" (rowsOf "c" k Samples.pivotRows))
                                              g))
                      groups)
         (shown 1 data).
Proof.
  apply (@groupedAgg_rows Samples.pivotRows "c" "g" "count" 1); reflexivity.
Defined.

Lemma groupedAgg_cells_exact_witness :
  exists data groups,
    groupedAgg Samples.pivotRows "c" "g" "count" 0 = Some (data, groups)
    /\ Forall (fun d => exists k,
                 In k (map (category "c") Samples.pivotRows)
                 /\ (includes groups "c" = false -> get d "c" = Str k)
                 /\ Forall (fun g => g <> "__proto__" ->
                                     get d g
                                     = Num (ofZ (sumOf (fun _ => 1)
                                                   (rowsOf "g" g (rowsOf "c" k Samples.pivotRows)))))
                      groups)
         (shown 0 data).
Proof.
  apply (@groupedAgg_cells_exact Samples.pivotRows "c" "g" "count" 0 (fun _ => 1)).
  - reflexivity.
  - reflexivity.
  - intros r _. split; [lia | reflexivity].
  - cbn. lia.
Defined.

Lemma groupedAgg_groups_witness :
  exists data groups,
    groupedAgg Samples.pivotRows "c" "g" "count" 0 = Some (data, groups)
    /\ NoDup groups
    /\ (forall g, In g groups <-> In g (map (category "g") Samples.pivotRows))
    /\ ordered codeUnitOrder groups = true.
Proof.
  apply (@groupedAgg_groups Samples.pivotRows "c" "g" "count" 0); reflexivity.
Defined.


End PivotFacts.

(** ** Least and greatest finite samples *)

Module ExtremaFacts.
Import JS Data Spec Performance OrderFacts.

Lemma ltb_irrefl (x : float) : (x <? x)%float = false.
Proof.
  rewrite ltb_spec. unfold SFltb.
  destruct (Prim2SF x) as [s|s| |s m e] eqn:E; try reflexivity;
    rewrite FloatFacts.SFcompare_refl by congruence; reflexivity.
Qed.

Lemma SFcompare_trans_lt_eq (x y z : spec_float) :
  SFcompare x y = Some Lt -> SFcompare y z = Some Eq -> SFcompare x z = Some Lt.
Proof.
  destruct x as [sx|sx| |sx mx ex], y as [sy|sy| |sy my ey], z as [sz|sz| |sz mz ez];
    cbn; try congruence;
    try (destruct sx; congruence); try (destruct sy; congruence);
    try (destruct sz; congruence);
    try (destruct sx, sy; congruence); try (destruct sy, sz; congruence);
    try (destruct sx, sz; congruence);
    try (destruct sx, sy, sz; congruence).
  rewrite !Pos.compare_cont_spec. cbn [Pos.switch_Eq].
  destruct sx, sy, sz; try congruence;
    destruct (Z.compare_spec ey ez); try congruence;
    destruct (Pos.compare_spec my mz); cbn; try congruence; subst; congruence.
Qed.

Lemma SFcompare_trans_eq_lt (x y z : spec_float) :
  SFcompare x y = Some Eq -> SFcompare y z = Some Lt -> SFcompare x z = Some Lt.
Proof.
  destruct x as [sx|sx| |sx mx ex], y as [sy|sy| |sy my ey], z as [sz|sz| |sz mz ez];
    cbn; try congruence;
    try (destruct sx; congruence); try (destruct sy; congruence);
    try (destruct sz; congruence);
    try (destruct sx, sy; congruence); try (destruct sy, sz; congruence);
    try (destruct sx, sz; congruence);
    try (destruct sx, sy, sz; congruence).
  rewrite !Pos.compare_cont_spec. cbn [Pos.switch_Eq].
  destruct sx, sy, sz; try congruence;
    destruct (Z.compare_spec ex ey); try congruence;
    destruct (Pos.compare_spec mx my); cbn; try congruence; subst; congruence.
Qed.

(** [x < y] and [y <= z] give [x < z]; [x <= y] and [y < z] too. *)
Lemma ltb_leb_trans (x y z : float) :
  (x <? y)%float = true -> (y <=? z)%float = true -> (x <? z)%float = true.
Proof.
  rewrite !ltb_spec, leb_spec. unfold SFltb, SFleb. intros H1 H2.
  destruct (SFcompare (Prim2SF x) (Prim2SF y)) as [[]|] eqn:E1; try discriminate.
  destruct (SFcompare (Prim2SF y) (Prim2SF z)) as [[]|] eqn:E2; try discriminate.
  - now rewrite (@SFcompare_trans_lt_eq _ _ _ E1 E2).
  - now rewrite (@SFcompare_trans_lt _ _ _ E1 E2).
Qed.

Lemma leb_ltb_trans (x y z : float) :
  (x <=? y)%float = true -> (y <? z)%float = true -> (x <? z)%float = true.
Proof.
  rewrite !ltb_spec, leb_spec. unfold SFltb, SFleb. intros H1 H2.
  destruct (SFcompare (Prim2SF y) (Prim2SF z)) as [[]|] eqn:E2; try discriminate.
  destruct (SFcompare (Prim2SF x) (Prim2SF y)) as [[]|] eqn:E1; try discriminate.
  - now rewrite (@SFcompare_trans_eq_lt _ _ _ E1 E2).
  - now rewrite (@SFcompare_trans_lt _ _ _ E1 E2).
Qed.

Lemma finiteMin_inv (arr : list float) :
  forall m0 : float,
    isNaN m0 = false ->
    let m := fold_left (fun m v => if isFiniteNum v && (v <? m)%float then v else m) arr m0 in
    isNaN m = false
    /\ (m = m0 \/ (In m arr /\ isFinite m = true))
    /\ (m0 <? m)%float = false
    /\ Forall (fun v => isFinite v = true -> (v <? m)%float = false) arr.
Proof.
  induction arr as [|v arr IH]; intros m0 H0; cbn [fold_left]; cbv zeta.
  - repeat split; [exact H0 | now left | apply ltb_irrefl | constructor].
  - destruct (isFiniteNum v && (v <? m0)%float) eqn:E.
    + apply andb_true_iff in E. destruct E as [Hf Hlt].
      destruct (IH v (@isFinite_not_nan _ Hf)) as (Hn & Hm & Hle & Hall).
      cbv zeta in Hn, Hm, Hle, Hall.
      set (m := fold_left _ arr v) in *.
      split; [exact Hn|]. split; [|split].
      * right. destruct Hm as [-> | [Hin Hfm]]; [split; [now left | exact Hf]|].
        split; [now right | exact Hfm].
      * destruct (m0 <? m)%float eqn:E2; [|reflexivity].
        rewrite (@ltb_trans _ _ _ Hlt E2) in Hle. discriminate Hle.
      * constructor; [intros _; exact Hle | exact Hall].
    + destruct (IH m0 H0) as (Hn & Hm & Hle & Hall).
      cbv zeta in Hn, Hm, Hle, Hall.
      set (m := fold_left _ arr m0) in *.
      split; [exact Hn|]. split; [|split].
      * destruct Hm as [-> | [Hin Hfm]]; [now left|]. right. split; [now right | exact Hfm].
      * exact Hle.
      * constructor; [|exact Hall]. intros Hf. unfold isFiniteNum in E. rewrite Hf in E.
        cbn [andb] in E.
        destruct (v <? m)%float eqn:E2; [|reflexivity].
        assert (Hm0 : (m <=? m0)%float = true) by (apply ltb_false_leb; assumption).
        rewrite (@ltb_leb_trans _ _ _ E2 Hm0) in E. discriminate E.
Qed.

Lemma finiteMax_inv (arr : list float) :
  forall m0 : float,
    isNaN m0 = false ->
    let m := fold_left (fun m v => if isFiniteNum v && (m <? v)%float then v else m) arr m0 in
    isNaN m = false
    /\ (m = m0 \/ (In m arr /\ isFinite m = true))
    /\ (m <? m0)%float = false
    /\ Forall (fun v => isFinite v = true -> (m <? v)%float = false) arr.
Proof.
  induction arr as [|v arr IH]; intros m0 H0; cbn [fold_left]; cbv zeta.
  - repeat split; [exact H0 | now left | apply ltb_irrefl | constructor].
  - destruct (isFiniteNum v && (m0 <? v)%float) eqn:E.
    + apply andb_true_iff in E. destruct E as [Hf Hlt].
      destruct (IH v (@isFinite_not_nan _ Hf)) as (Hn & Hm & Hle & Hall).
      cbv zeta in Hn, Hm, Hle, Hall.
      set (m := fold_left _ arr v) in *.
      split; [exact Hn|]. split; [|split].
      * right. destruct Hm as [-> | [Hin Hfm]]; [split; [now left | exact Hf]|].
        split; [now right | exact Hfm].
      * destruct (m <? m0)%float eqn:E2; [|reflexivity].
        rewrite (@ltb_trans _ _ _ E2 Hlt) in Hle. discriminate Hle.
      * constructor; [intros _; exact Hle | exact Hall].
    + destruct (IH m0 H0) as (Hn & Hm & Hle & Hall).
      cbv zeta in Hn, Hm, Hle, Hall.
      set (m := fold_left _ arr m0) in *.
      split; [exact Hn|]. split; [|split].
      * destruct Hm as [-> | [Hin Hfm]]; [now left|]. right. split; [now right | exact Hfm].
      * exact Hle.
      * constructor; [|exact Hall]. intros Hf. unfold isFiniteNum in E. rewrite Hf in E.
        cbn [andb] in E.
        destruct (m <? v)%float eqn:E2; [|reflexivity].
        assert (Hm0 : (m0 <=? m)%float = true) by (apply ltb_false_leb; assumption).
        rewrite (@leb_ltb_trans _ _ _ Hm0 E2) in E. discriminate E.
Qed.

Lemma existsb_false_Forall (A : Type) (f : A -> bool) (l : list A) :
  existsb f l = false -> Forall (fun v => f v = false) l.
Proof.
  induction l as [|a l IH]; cbn [existsb]; intros H; constructor;
    apply orb_false_iff in H; [apply H | apply IH, H].
Qed.

Lemma finiteMin_least (arr : list float) :
  (existsb isFinite arr = true ->
     In (finiteMin arr) arr /\ isFinite (finiteMin arr) = true)
  /\ (existsb isFinite arr = false -> finiteMin arr = infinity)
  /\ Forall (fun v => isFinite v = true -> (finiteMin arr <=? v)%float = true) arr
  /\ Factors.finiteMin arr = finiteMin arr.
Proof.
  destruct (@finiteMin_inv arr infinity eq_refl) as (Hn & Hm & _ & Hall).
  cbv zeta in Hn, Hm, Hall. fold (finiteMin arr) in Hn, Hm, Hall.
  split; [|split; [|split; [|reflexivity]]].
  - intros He. destruct Hm as [E | Hm]; [|exact Hm]. exfalso.
    apply existsb_exists in He. destruct He as (v & Hin & Hf).
    rewrite Forall_forall in Hall. specialize (Hall v Hin Hf).
    rewrite E, (@ltb_infinity v Hf) in Hall. discriminate Hall.
  - intros He. destruct Hm as [E | [Hin Hf]]; [exact E|]. exfalso.
    apply existsb_false_Forall in He. rewrite Forall_forall in He.
    rewrite (He _ Hin) in Hf. discriminate Hf.
  - eapply Forall_impl; [|exact Hall]. cbv beta. intros v H Hf.
    apply ltb_false_leb; [now apply isFinite_not_nan | exact Hn | now apply H].
Qed.

Lemma finiteMax_greatest (arr : list float) :
  (existsb isFinite arr = true ->
     In (finiteMax arr) arr /\ isFinite (finiteMax arr) = true)
  /\ (existsb isFinite arr = false -> finiteMax arr = neg_infinity)
  /\ Forall (fun v => isFinite v = true -> (v <=? finiteMax arr)%float = true) arr
  /\ Factors.finiteMax arr = finiteMax arr.
Proof.
  destruct (@finiteMax_inv arr neg_infinity eq_refl) as (Hn & Hm & _ & Hall).
  cbv zeta in Hn, Hm, Hall. fold (finiteMax arr) in Hn, Hm, Hall.
  split; [|split; [|split; [|reflexivity]]].
  - intros He. destruct Hm as [E | Hm]; [|exact Hm]. exfalso.
    apply existsb_exists in He. destruct He as (v & Hin & Hf).
    rewrite Forall_forall in Hall. specialize (Hall v Hin Hf).
    rewrite E, (@neg_infinity_ltb v Hf) in Hall. discriminate Hall.
  - intros He. destruct Hm as [E | [Hin Hf]]; [exact E|]. exfalso.
    apply existsb_false_Forall in He. rewrite Forall_forall in He.
    rewrite (He _ Hin) in Hf. discriminate Hf.
  - eapply Forall_impl; [|exact Hall]. cbv beta. intros v H Hf.
    apply ltb_false_leb; [exact Hn | now apply isFinite_not_nan | now apply H].
Qed.

(** X9. Of a series with a finite sample, [finiteMin] is a finite sample
    that no finite sample is below and [finiteMax] one that no finite
    sample is above; of a series without one they are [Infinity] and
    [-Infinity].  The Factors and the Performance view have the same two
    functions. *)
Theorem finite_extrema (arr : list float) :
  (existsb isFinite arr = true ->
     In (finiteMin arr) arr /\ isFinite (finiteMin arr) = true
     /\ In (finiteMax arr) arr /\ isFinite (finiteMax arr) = true)
  /\ (existsb isFinite arr = false ->
      finiteMin arr = infinity /\ finiteMax arr = neg_infinity)
  /\ Forall (fun v => isFinite v = true ->
                      (finiteMin arr <=? v)%float = true
                      /\ (v <=? finiteMax arr)%float = true)
       arr
  /\ Factors.finiteMin arr = finiteMin arr
  /\ Factors.finiteMax arr = finiteMax arr.
Proof.
  destruct (finiteMin_least arr) as (H1 & H2 & H3 & _).
  destruct (finiteMax_greatest arr) as (H4 & H5 & H6 & _).
  split; [|split; [|split; [|split; reflexivity]]].
  - intros He. destruct (H1 He), (H4 He). tauto.
  - intros He. split; [now apply H2 | now apply H5].
  - rewrite Forall_forall in *. intros v Hv Hf. split; [now apply H3 | now apply H6].
Qed.

End ExtremaFacts.

(** ** Scatter points, domains and range filters *)

Module ScatterFacts.
Import JS Data Spec Factors FloatFacts OrderFacts PointFacts ExtremaFacts.

Lemma basePoints_fields (rows : list row) (x y z colorBy : string) :
  Forall (fun p => p_x p = Number (get (raw p) x) /\ p_y p = Number (get (raw p) y)
                   /\ isFinite (p_x p) = true /\ isFinite (p_y p) = true
                   /\ p_c p = (if nonempty colorBy then safeStr (get (raw p) colorBy)
                               else "All"))
    (basePoints rows x y z colorBy).
Proof.
  unfold basePoints.
  destruct (negb (nonempty x && nonempty y)); [constructor|].
  apply Forall_forall. intros p Hp. apply filter_In in Hp. destruct Hp as [Hin Hf].
  apply andb_true_iff in Hf.
  apply in_map_iff in Hin. destruct Hin as (rw & <- & _). cbn [p_x p_y p_c raw] in *.
  rewrite !toNum_Number in *. unfold isFiniteNum in Hf. tauto.
Qed.

Lemma basePoints_finite (rows : list row) (x y z colorBy : string) :
  Forall (fun p => isFinite (p_x p) = true /\ isFinite (p_y p) = true)
    (basePoints rows x y z colorBy).
Proof.
  eapply Forall_impl; [|apply basePoints_fields]. cbv beta. tauto.
Qed.

Lemma existsb_map_finite (A : Type) (f : A -> float) (l : list A) :
  Forall (fun p => isFinite (f p) = true) l ->
  existsb isFinite (map f l) = match l with [] => false | _ => true end.
Proof.
  destruct l as [|a l]; [reflexivity|]. intros H. inversion H as [|? ? Ha _]; subst.
  cbn [map existsb]. now rewrite Ha.
Qed.

(** X11. The domains bracket the scatter points: when there is a point,
    the four bounds are finite and every point has its x between [xMin]
    and [xMax] and its y between [yMin] and [yMax]; when there is none
    they are [Infinity] and [-Infinity], the values at which the view
    leaves the range inputs alone. *)
Theorem domains_bracket (rows : list row) (x y z colorBy : string) :
  let pts := basePoints rows x y z colorBy in
  let d := domains pts in
  (pts = [] ->
   d = {| xMin := infinity; xMax := neg_infinity; yMin := infinity; yMax := neg_infinity |})
  /\ (pts <> [] ->
      isFinite (xMin d) = true /\ isFinite (xMax d) = true
      /\ isFinite (yMin d) = true /\ isFinite (yMax d) = true)
  /\ Forall (fun p => (xMin d <=? p_x p)%float = true /\ (p_x p <=? xMax d)%float = true
                      /\ (yMin d <=? p_y p)%float = true /\ (p_y p <=? yMax d)%float = true)
       pts.
Proof.
  intros pts d. subst d. unfold domains. cbn [xMin xMax yMin yMax].
  pose proof (basePoints_finite rows x y z colorBy) as Hfin. fold pts in Hfin.
  assert (Hx : Forall (fun p => isFinite (p_x p) = true) pts)
    by (eapply Forall_impl; [|exact Hfin]; cbv beta; tauto).
  assert (Hy : Forall (fun p => isFinite (p_y p) = true) pts)
    by (eapply Forall_impl; [|exact Hfin]; cbv beta; tauto).
  change Factors.finiteMin with Performance.finiteMin.
  change Factors.finiteMax with Performance.finiteMax.
  destruct (finiteMin_least (map p_x pts)) as (Hx1 & _ & Hx3 & _).
  destruct (finiteMax_greatest (map p_x pts)) as (Hx4 & _ & Hx6 & _).
  destruct (finiteMin_least (map p_y pts)) as (Hy1 & _ & Hy3 & _).
  destruct (finiteMax_greatest (map p_y pts)) as (Hy4 & _ & Hy6 & _).
  rewrite (existsb_map_finite p_x Hx) in Hx1, Hx4.
  rewrite (existsb_map_finite p_y Hy) in Hy1, Hy4.
  split; [|split].
  - now intros ->.
  - intros Hne. destruct pts as [|p0 pts']; [congruence|].
    repeat split; [apply Hx1 | apply Hx4 | apply Hy1 | apply Hy4]; reflexivity.
  - rewrite Forall_map in Hx3, Hx6, Hy3, Hy6.
    rewrite Forall_forall in *. intros p Hp.
    destruct (Hfin p Hp) as [Hfx Hfy].
    repeat split; [apply Hx3 | apply Hx6 | apply Hy3 | apply Hy6]; assumption.
Qed.

Lemma eqb_zero_leb (v : float) :
  (v =? 0)%float = (0 <=? v)%float && (v <=? 0)%float.
Proof.
  rewrite !leb_spec, eqb_spec. unfold SFleb, SFeqb.
  change (Prim2SF 0) with (S754_zero false).
  destruct (Prim2SF v) as [s|s| |s m e]; cbn; try reflexivity; destruct s; reflexivity.
Qed.

(** X12. A range input left blank is not an absent bound: [Number] reads
    the empty text as 0, so a blank input acts as the bound 0, and with
    all four inputs blank (their initial state) the filter keeps the
    points at the origin only. *)
Theorem filtered_blank (pts : list point) (xMin xMax yMin yMax : string) :
  filtered pts "" xMax yMin yMax = filtered pts "0" xMax yMin yMax
  /\ filtered pts xMin "" yMin yMax = filtered pts xMin "0" yMin yMax
  /\ filtered pts xMin xMax "" yMax = filtered pts xMin xMax "0" yMax
  /\ filtered pts xMin xMax yMin "" = filtered pts xMin xMax yMin "0"
  /\ filtered pts "" "" "" ""
     = filter (fun p => (p_x p =? 0)%float && (p_y p =? 0)%float) pts.
Proof.
  repeat (split; [reflexivity|]).
  unfold filtered. change (Number (Str "")) with 0%float.
  apply filter_ext. intros p. change (isNaN 0) with false. cbn [orb].
  rewrite !eqb_zero_leb. now rewrite !andb_assoc.
Qed.

(** X13. The regression is computed over every point the range filter
    keeps: the filter keeps base points only, these have finite
    coordinates, and so the finite-pair filter of [linearStats] drops
    none; with fewer than two points kept the statistics are the
    sentinel. *)
Theorem regression_sample (rows : list row) (x y z colorBy xMin xMax yMin yMax : string) :
  let pts := filtered (basePoints rows x y z colorBy) xMin xMax yMin yMax in
  validPairs (map (fun p => (p_x p, p_y p)) pts) = map (fun p => (p_x p, p_y p)) pts
  /\ incl pts (basePoints rows x y z colorBy)
  /\ ((List.length pts < 2)%nat ->
      viewStats pts = {| r := NaN; slope := NaN; intercept := NaN |}).
Proof.
  intros pts.
  assert (Hincl : incl pts (basePoints rows x y z colorBy)).
  { intros p Hp. unfold pts, filtered in Hp. apply filter_In in Hp. apply Hp. }
  assert (E : validPairs (map (fun p => (p_x p, p_y p)) pts) = map (fun p => (p_x p, p_y p)) pts).
  { unfold validPairs. apply MovingAvgFacts.filter_all. apply forallb_forall.
    intros q Hq. apply in_map_iff in Hq. destruct Hq as (p & <- & Hp). cbn [fst snd].
    pose proof (basePoints_finite rows x y z colorBy) as Hfin.
    rewrite Forall_forall in Hfin. destruct (Hfin p (Hincl p Hp)) as [-> ->]. reflexivity. }
  split; [exact E|]. split; [exact Hincl|].
  intros Hlen. unfold viewStats. rewrite StatsFacts.linearStats_unfold, E, length_map.
  apply Nat.ltb_lt in Hlen. now rewrite Hlen.
Qed.

End ScatterFacts.

(** ** Min-max normalization *)

Module RescaleFacts.
Import JS Data Spec Performance MapFacts FloatFacts OrderFacts ExtremaFacts SeriesFacts.

Lemma minmaxed_length (arr : list float) : List.length (minmaxed arr) = List.length arr.
Proof. unfold minmaxed. apply length_map. Qed.

Lemma zero_div_pos (z rng : float) :
  Prim2SF z = S754_zero false -> (0 <? rng)%float = true ->
  Prim2SF (z / rng)%float = S754_zero false.
Proof.
  rewrite ltb_spec, div_spec. intros ->. unfold SFltb.
  change (Prim2SF 0) with (S754_zero false).
  destruct (Prim2SF rng) as [s|s| |s m e]; cbn; try discriminate;
    destruct s; try discriminate; reflexivity.
Qed.

Lemma SF_zero_is_zero (v : float) : Prim2SF v = S754_zero false -> v = 0%float.
Proof. intros H. apply Prim2SF_inj. rewrite H. reflexivity. Qed.

(** X14. Min-max normalization of a series whose finite samples are all
    the same number, or that has no finite sample, gives the sentinel at
    every index: the range is not positive. *)
Theorem minmaxed_flat (arr : list float) (c : float) :
  Forall (fun v => isFinite v = true -> v = c) arr ->
  minmaxed arr = map (fun _ => NaN) arr.
Proof.
  intros Hc. unfold minmaxed. apply map_ext_in. intros v Hv.
  unfold isFiniteNum. destruct (isFinite v) eqn:Hf; [|reflexivity]. cbn [andb].
  assert (He : existsb isFinite arr = true)
    by (apply existsb_exists; exists v; now split).
  destruct (finiteMin_least arr) as (Hmin & _). destruct (Hmin He) as [Hin1 Hf1].
  destruct (finiteMax_greatest arr) as (Hmax & _). destruct (Hmax He) as [Hin2 Hf2].
  rewrite Forall_forall in Hc.
  rewrite (Hc _ Hin1 Hf1), (Hc _ Hin2 Hf2).
  assert (Hfc : isFinite c = true) by (rewrite <- (Hc _ Hin1 Hf1); exact Hf1).
  rewrite (@SF_zero_is_zero _ (@sub_self c Hfc)). reflexivity.
Qed.

Lemma SFdiv_self (s : bool) (m : positive) (e : Z) :
  SFdiv prec emax (S754_finite s m e) (S754_finite s m e) = Prim2SF 1%float.
Proof.
  cbn [SFdiv]. unfold SFdiv_core_binary.
  rewrite Z.sub_diag.
  replace (Zdigits2 (Z.pos m) + e - (Zdigits2 (Z.pos m) + e)) with 0 by lia.
  change (Z.min (fexp prec emax 0) 0) with (-53).
  change (0 - -53) with 53.
  cbv zeta. cbv iota.
  rewrite Z.shiftl_mul_pow2 by lia.
  assert (E : Z.div_eucl (Z.pos m * 2 ^ 53) (Z.pos m) = (2 ^ 53, 0)).
  { pose proof (Z.div_eucl_eq (Z.pos m * 2 ^ 53) (Z.pos m) ltac:(lia)) as H.
    pose proof (Z.mod_pos_bound (Z.pos m * 2 ^ 53) (Z.pos m) ltac:(lia)) as Hb.
    unfold Z.modulo in Hb.
    destruct (Z.div_eucl (Z.pos m * 2 ^ 53) (Z.pos m)) as [q r].
    assert (r = 0 /\ q = 2 ^ 53) as [-> ->]; [|reflexivity].
    assert (Hr : Z.pos m * (2 ^ 53 - q) = r) by lia.
    assert (Hq : 2 ^ 53 - q = 0) by nia. split; nia. }
  rewrite E.
  replace (new_location (Z.pos m) 0) with loc_Exact.
  - rewrite xorb_nilpotent. reflexivity.
  - unfold new_location, new_location_even, new_location_odd.
    destruct (Z.even (Z.pos m)); reflexivity.
Qed.

Lemma div_self (x : float) :
  isFinite x = true -> (0 <? x)%float = true -> (x / x)%float = 1%float.
Proof.
  rewrite isFinite_spec, ltb_spec. unfold SFltb. change (Prim2SF 0) with (S754_zero false).
  intros Hf Hp. apply Prim2SF_inj. rewrite div_spec.
  destruct (Prim2SF x) as [s|s| |s m e]; try discriminate.
  apply SFdiv_self.
Qed.

Lemma Forall2_map_self (A B : Type) (P : A -> B -> Prop) (f : A -> B) (l : list A) :
  (forall v, P v (f v)) -> Forall2 P l (map f l).
Proof. intros H. induction l as [|v l IH]; cbn [map]; constructor; [apply H | exact IH]. Qed.

(** X15. Min-max normalization keeps the length of the series; a sample
    that is not finite gives the sentinel, and so does every sample when
    the range [max - min] is not positive; otherwise a finite sample [v]
    gives [(v - min) / range], which is 0 for a sample equal to the least
    one and, when the range is finite, 1 for a sample equal to the
    greatest one.  Over 2, 4, 6 it gives 0, 0.5, 1. *)
Theorem minmaxed_scale (arr : list float) :
  let mn := finiteMin arr in
  let rng := (finiteMax arr - finiteMin arr)%float in
  List.length (minmaxed arr) = List.length arr
  /\ Forall2 (fun v o =>
                (isFinite v = false -> o = NaN)
                /\ ((0 <? rng)%float = false -> o = NaN)
                /\ (isFinite v = true -> (0 <? rng)%float = true ->
                    o = ((v - mn) / rng)%float
                    /\ (v = mn -> o = 0%float)
                    /\ (v = finiteMax arr -> isFinite rng = true -> o = 1%float)))
       arr (minmaxed arr)
  /\ minmaxed [2; 4; 6]%float = [0; 0.5; 1]%float.
Proof.
  intros mn rng. subst mn rng.
  split; [apply minmaxed_length|]. split; [|reflexivity].
  unfold minmaxed. apply Forall2_map_self. intros v.
  unfold isFiniteNum. split; [|split].
  - now intros ->.
  - intros ->. now rewrite andb_false_r.
  - intros Hf Hr. rewrite Hf, Hr. cbn [andb]. split; [reflexivity|]. split.
    + intros E. rewrite E at 1. rewrite E in Hf.
      apply SF_zero_is_zero, zero_div_pos; [|exact Hr].
      apply sub_self. exact Hf.
    + intros E Hfr. rewrite E. now apply div_self.
Qed.

Lemma minmaxed_flat_witness :
  minmaxed [5; NaN; 5]%float = [NaN; NaN; NaN].
Proof.
  apply (@minmaxed_flat [5; NaN; 5]%float 5%float).
  repeat constructor; intros H; (reflexivity || discriminate H).
Defined.

End RescaleFacts.

(** ** Chart rows *)

Module ChartFacts.
Import JS Data Spec Performance MapFacts FloatFacts SeriesFacts RescaleFacts.




Section Host.
Variable dateISO : string -> option string.


(** No chart row keeps a cell under the name [__proto__], unless it is
    the x column. *)
Lemma attach_proto (x : string) (ys : list string) (sd : list (string * list float)) :
  x <> "__proto__" ->
  forall (limited : list row) (i : nat),
    Forall (fun d => own d "__proto__" = false) (attach dateISO limited i x ys sd).
Proof.
  intros Hx. induction limited as [|r0 limited IH]; intros i; [constructor|].
  cbn [attach]. constructor; [|apply IH].
  rewrite own_fold_assign.
  apply not_eq_sym, String.eqb_neq in Hx.
  assert (E : own (mapSet [("__i", Num (ofNat i))] x (parseX dateISO (get r0 x))) "__proto__"
              = false).
  { rewrite own_mapSet, Hx. reflexivity. }
  unfold ignored. rewrite E. cbn [orb negb andb]. now rewrite andb_false_r.
Qed.

(** A chart row keeps a cell under the x column and under every series
    column, when none of these is [__proto__]. *)
Lemma attach_own (x : string) (ys : list string) (sd : list (string * list float)) :
  ~ In "__proto__" ys ->
  forall (limited : list row) (i : nat),
    Forall (fun d => Forall (fun k => own d k = true) (x :: ys))
      (attach dateISO limited i x ys sd).
Proof.
  intros Hp. induction limited as [|r0 limited IH]; intros i; [constructor|].
  cbn [attach]. constructor; [|apply IH].
  apply Forall_forall. intros k Hk. rewrite own_fold_assign.
  destruct Hk as [<- | Hk].
  - rewrite own_mapSet, String.eqb_refl. reflexivity.
  - assert (Hne : k <> "__proto__") by (intros ->; contradiction).
    apply includes_In in Hk. rewrite Hk, (not_proto_stored _ Hne). apply orb_true_r.
Qed.

Lemma attach_length (x : string) (ys : list string) (sd : list (string * list float)) :
  forall (limited : list row) (i : nat),
    List.length (attach dateISO limited i x ys sd) = List.length limited.
Proof.
  induction limited as [|r0 limited IH]; intros i; [reflexivity|].
  cbn [attach List.length]. now rewrite IH.
Qed.






(** X18. The series export returns without a download exactly when no x
    column is chosen, no series is chosen, or there is no row. *)
Theorem exportCSV_nothing (rows : list row) (x : string) (ys : list string)
  (smooth : Z) (normalize : string) (cap : Z) :
  Performance.exportCSV dateISO rows x ys smooth normalize cap = None
  <-> nonempty x = false \/ ys = [] \/ rows = [].
Proof.
  rewrite ExportFacts.Performance_exportCSV_records.
  assert (E : processed dateISO rows x ys smooth normalize cap = []
              <-> nonempty x = false \/ ys = [] \/ rows = []).
  { unfold processed. destruct (nonempty x); cbn [negb orb]; [|intuition congruence].
    destruct ys as [|y0 ys']; cbn [List.length Nat.eqb]; [intuition congruence|].
    rewrite <- length_zero_iff_nil, attach_length.
    destruct (0 <? cap) eqn:Ec.
    - apply Z.ltb_lt in Ec. rewrite length_firstn.
      destruct rows as [|r0 rows']; cbn [List.length];
        [split; [intros _; right; right; reflexivity | intros _; lia]|].
      split; [lia | intros [H | [H | H]]; discriminate H].
    - rewrite length_zero_iff_nil. intuition congruence. }
  destruct (processed dateISO rows x ys smooth normalize cap) as [|d ds].
  - split; [intros _; now apply E | reflexivity].
  - split; [discriminate | intros H; apply E in H; discriminate H].
Qed.

End Host.



End ChartFacts.

(** ** Gaps in the moving average *)

Module GapFacts.
Import JS Data Spec Performance MovingAvgFacts.

Lemma window_In (arr : list float) (w i j : nat) (v : float) :
  nth_error arr j = Some v -> (i + 1 - w <= j)%nat -> (j <= i)%nat -> (0 < w)%nat ->
  In v (window arr w i).
Proof.
  intros Hj H1 H2 Hw. unfold window.
  apply (@nth_error_In _ _ (j - (i + 1 - w))).
  rewrite nth_error_firstn.
  replace (j - (i + 1 - w) <? w)%nat with true by (symmetry; apply Nat.ltb_lt; lia).
  rewrite nth_error_skipn. replace (i + 1 - w + (j - (i + 1 - w)))%nat with j by lia.
  exact Hj.
Qed.

(** X19. With a window [w >= 2] the moving average keeps the length of
    the series, its first [w - 1] outputs are the sentinel, and a sample
    that is not finite makes the sentinel of every output whose window
    holds it: its own and the [w - 1] after it. *)
Theorem movingAvg_gaps (arr : list float) (win : Z) (i : nat) :
  2 <= win -> (i < List.length arr)%nat ->
  Z.of_nat i + 1 < win
  \/ (exists (j : nat) (v : float),
        Z.of_nat i - win < Z.of_nat j <= Z.of_nat i
        /\ nth_error arr j = Some v /\ isFinite v = false) ->
  nth_error (movingAvg arr win) i = Some NaN
  /\ List.length (movingAvg arr win) = List.length arr.
Proof.
  intros Hw Hi H. split; [|apply movingAvg_length].
  rewrite movingAvg_trailingMean.
  replace (win <=? 1) with false by (symmetry; apply Z.leb_gt; lia).
  rewrite nth_error_map, nth_error_seq.
  replace (i <? List.length arr)%nat with true by (symmetry; now apply Nat.ltb_lt).
  cbn [option_map Nat.add]. f_equal. unfold trailingMean.
  destruct H as [H | (j & v & Hj & Hv & Hf)].
  - now replace (win <=? Z.of_nat i + 1) with false by (symmetry; apply Z.leb_gt; lia).
  - destruct (forallb isFinite (window arr (Z.to_nat win) i)) eqn:E;
      [|now rewrite andb_false_r].
    rewrite forallb_forall in E.
    rewrite (E v) in Hf; [discriminate Hf|].
    apply (@window_In arr (Z.to_nat win) i j v Hv); lia.
Qed.
(** A gap at index 2 under a window of 2: outputs 2 and 3 are blank. *)
Lemma movingAvg_gaps_witness :
  nth_error (movingAvg [1; 2; NaN; 4; 5]%float 2) 3 = Some NaN
  /\ List.length (movingAvg [1; 2; NaN; 4; 5]%float 2) = 5%nat.
Proof.
  apply (@movingAvg_gaps [1; 2; NaN; 4; 5]%float 2 3).
  - lia.
  - cbn. lia.
  - right. exists 2%nat, NaN. split; [lia | split; reflexivity].
Defined.

End GapFacts.

(** ** Reading the exports back *)

Module ReaderFacts.
Import JS Data Spec Reader ExportFacts.

Lemma break_mode (rest : string) (m : mode) (cur : string) (rec : list string) :
  atBreak rest -> m <> Quoted ->
  readCSV rest m cur rec = readCSV rest FieldStart cur rec.
Proof.
  destruct rest as [|c r]; intros Hb Hm; [reflexivity|].
  cbn [readCSV]. destruct Hb as [-> | ->]; destruct m; try congruence; reflexivity.
Qed.

Lemma append_cons (a : string) (c : ascii) (b : string) :
  (a ++ String c "") ++ b = a ++ String c b.
Proof. now rewrite append_assoc. Qed.

Lemma read_bare (v : string) :
  forall (rest : string) (m : mode) (cur : string) (rec : list string),
    needsQuotes v = false -> m = FieldStart \/ m = Bare -> atBreak rest ->
    readCSV (v ++ rest) m cur rec = readCSV rest FieldStart (cur ++ v) rec.
Proof.
  induction v as [|c v IH]; intros rest m cur rec Hv Hm Hb.
  - cbn [append]. rewrite append_nil_r. apply break_mode; [exact Hb|].
    destruct Hm as [-> | ->]; discriminate.
  - cbn [needsQuotes] in Hv. apply orb_false_iff in Hv. destruct Hv as [Hc Hv].
    apply orb_false_iff in Hc. destruct Hc as [Hc H3].
    apply orb_false_iff in Hc. destruct Hc as [H1 H2].
    cbn [append readCSV]. rewrite H1, H2, H3.
    replace (match m with Quoted => readCSV (v ++ rest) Quoted (cur ++ String c "") rec
                        | _ => readCSV (v ++ rest) Bare (cur ++ String c "") rec end)
      with (readCSV (v ++ rest) Bare (cur ++ String c "") rec)
      by (destruct Hm as [-> | ->]; reflexivity).
    rewrite IH by (assumption || now right). now rewrite append_cons.
Qed.

Lemma read_quoted (v : string) :
  forall (rest : string) (cur : string) (rec : list string),
    atBreak rest ->
    readCSV (doubleQuotes v ++ String quote rest) Quoted cur rec
    = readCSV rest FieldStart (cur ++ v) rec.
Proof.
  induction v as [|c v IH]; intros rest cur rec Hb.
  - cbn [doubleQuotes append readCSV]. rewrite (Ascii.eqb_refl quote), append_nil_r.
    apply break_mode; [exact Hb | discriminate].
  - cbn [doubleQuotes]. destruct (Ascii.eqb c quote) eqn:E.
    + apply Ascii.eqb_eq in E. subst c. cbn [append readCSV].
      rewrite !(Ascii.eqb_refl quote).
      change (Ascii.eqb quote ",") with false. change (Ascii.eqb quote "010") with false.
      cbv iota.
      rewrite IH by exact Hb. now rewrite append_cons.
    + cbn [append readCSV]. rewrite E. rewrite IH by exact Hb. now rewrite append_cons.
Qed.

Lemma read_field (v rest : string) (rec : list string) :
  atBreak rest ->
  readCSV (csvField v ++ rest) FieldStart "" rec = readCSV rest FieldStart v rec.
Proof.
  intros Hb. unfold csvField. destruct (needsQuotes v) eqn:E.
  - cbn [append readCSV].
    change (Ascii.eqb quote ",") with false. change (Ascii.eqb quote "010") with false.
    rewrite (Ascii.eqb_refl quote). cbv iota.
    rewrite append_assoc. cbn [append]. now rewrite read_quoted.
  - rewrite read_bare by (assumption || now left). reflexivity.
Qed.

Lemma read_break (rest : string) (cur : string) (rec : list string) :
  atRecordEnd rest ->
  readCSV rest FieldStart cur rec
  = match rest with
    | "" => [(rec ++ [cur])%list]
    | String _ r => (rec ++ [cur])%list :: readCSV r FieldStart "" []
    end.
Proof. destruct rest as [|c r]; [reflexivity|]. cbn [atRecordEnd]. now intros ->. Qed.

Lemma read_record (fields : list string) :
  forall (f : string) (rest : string) (rec : list string),
    atRecordEnd rest ->
    readCSV (recordText (f :: fields) ++ rest) FieldStart "" rec
    = match rest with
      | "" => [(rec ++ f :: fields)%list]
      | String _ r => (rec ++ f :: fields)%list :: readCSV r FieldStart "" []
      end.
Proof.
  unfold recordText.
  induction fields as [|g fields IH]; intros f rest rec Hb.
  - cbn [map join].
    rewrite read_field by (destruct rest; [exact I | now right]).
    now apply read_break.
  - cbn [map join]. fold (map csvField fields).
    change (match map csvField fields with
            | [] => csvField g
            | _ :: _ => csvField g ++ "," ++ join "," (map csvField fields)
            end) with (join "," (map csvField (g :: fields))).
    rewrite !append_assoc. rewrite read_field by (now left).
    cbn [append readCSV]. rewrite (Ascii.eqb_refl ","%char).
    rewrite IH by exact Hb. rewrite <- !app_assoc. reflexivity.
Qed.

Lemma read_separated (recs : list (list string)) :
  forall (f : string) (fields : list string),
    Forall (fun fs => fs <> []) recs ->
    readCSV (separated (map recordText ((f :: fields) :: recs))) FieldStart "" []
    = (f :: fields) :: recs.
Proof.
  unfold separated.
  induction recs as [|fs recs IH]; intros f fields Hne.
  - cbn [map join].
    rewrite <- (append_nil_r (recordText (f :: fields))).
    now rewrite read_record.
  - inversion Hne as [|? ? Hfs Hrecs]; subst.
    destruct fs as [|g gs]; [congruence|].
    cbn [map join]. fold (map recordText recs).
    change (match map recordText recs with
            | [] => recordText (g :: gs)
            | _ :: _ => recordText (g :: gs) ++ LF ++ join LF (map recordText recs)
            end) with (join LF (map recordText ((g :: gs) :: recs))).
    unfold LF at 1. cbn [append].
    rewrite read_record by reflexivity. cbn [app]. f_equal.
    now apply IH.
Qed.

Lemma read_terminated (recs : list (list string)) :
  Forall (fun fs => fs <> []) recs ->
  readCSV (terminated (map recordText recs)) FieldStart "" [] = (recs ++ [[""]])%list.
Proof.
  induction recs as [|fs recs IH]; intros Hne; [reflexivity|].
  inversion Hne as [|? ? Hfs Hrecs]; subst.
  destruct fs as [|g gs]; [congruence|].
  cbn [map terminated]. unfold LF. cbn [append].
  rewrite read_record by reflexivity. cbn [app]. f_equal. now apply IH.
Qed.

(** X20. Records round-trip through the text the exporters write.  When
    every field goes through [csvSafe], the fields of a record are joined
    by commas and the records by line feeds, a reader that honours quotes
    finds the records and their fields again, whatever characters the
    fields hold; with a line feed after every record it finds one more
    record, made of one empty field. *)
Theorem csv_text_roundtrip (recs : list (list string)) :
  recs <> [] -> Forall (fun fs => fs <> []) recs ->
  parseCSV (separated (map recordText recs)) = recs
  /\ parseCSV (terminated (map recordText recs)) = (recs ++ [[""]])%list.
Proof.
  intros Hr Hne. split; [|now apply read_terminated].
  destruct recs as [|fs recs]; [congruence|].
  inversion Hne as [|? ? Hfs Hrecs]; subst.
  destruct fs as [|f fields]; [congruence|].
  now apply read_separated.
Qed.

(** Two records whose fields hold a comma, a quote and a line feed. *)
Lemma csv_text_roundtrip_witness :
  parseCSV (separated (map recordText [["a,b"; String quote "c"]; [LF; ""]]))
  = [["a,b"; String quote "c"]; [LF; ""]]
  /\ parseCSV (terminated (map recordText [["a,b"; String quote "c"]; [LF; ""]]))
     = [["a,b"; String quote "c"]; [LF; ""]; [""]].
Proof.
  apply (@csv_text_roundtrip [["a,b"; String quote "c"]; [LF; ""]]).
  - discriminate.
  - repeat constructor; discriminate.
Defined.

End ReaderFacts.

(** ** The exports as tables *)

Module ExportReaderFacts.
Import JS Data Spec Reader ExportFacts ReaderFacts.

Lemma plain_record (names : list string) : plain names -> join "," names = recordText names.
Proof.
  unfold recordText. intros H. f_equal.
  induction H as [|k names Hk _ IH]; [reflexivity|].
  cbn [map]. unfold csvField at 1. now rewrite Hk, <- IH.
Qed.

Lemma Factors_csvSafe_text (c : cell) : Factors.csvSafe c = csvField (cellText c).
Proof. reflexivity. Qed.

Lemma Performance_csvSafe_text (c : cell) : Performance.csvSafe c = csvField (cellText c).
Proof. reflexivity. Qed.

Lemma Treatment_csvSafe_text (c : cell) : Treatment.csvSafe c = csvField (cellText c).
Proof. destruct c; reflexivity. Qed.

Lemma table_records (A : Type) (cellOf : A -> string -> cell) (headers : list string)
  (data : list A) :
  plain headers ->
  map recordText (table cellOf headers data)
  = join "," headers
    :: map (fun d => join "," (map (fun k => csvField (cellText (cellOf d k))) headers)) data.
Proof.
  intros H. unfold table. cbn [map]. rewrite <- plain_record by exact H. f_equal.
  rewrite map_map. apply map_ext. intros d. unfold recordText. now rewrite map_map.
Qed.

Lemma table_nonempty (A : Type) (cellOf : A -> string -> cell) (headers : list string)
  (data : list A) :
  headers <> [] -> Forall (fun fs => fs <> []) (table cellOf headers data).
Proof.
  intros H. unfold table. constructor; [exact H|].
  apply Forall_map, Forall_forall. intros d _. destruct headers; [congruence | discriminate].
Qed.

Lemma table_reads (A : Type) (cellOf : A -> string -> cell) (h : string)
  (hs : list string) (data : list A) :
  parseCSV (separated (map recordText (table cellOf (h :: hs) data)))
  = table cellOf (h :: hs) data
  /\ parseCSV (terminated (map recordText (table cellOf (h :: hs) data)))
     = (table cellOf (h :: hs) data ++ [[""]])%list.
Proof.
  split.
  - unfold parseCSV, table. apply read_separated.
    apply Forall_map, Forall_forall. intros d _. discriminate.
  - unfold parseCSV. apply read_terminated. apply table_nonempty. discriminate.
Qed.

(** X21. The points export reads back as a table: when the names of the
    chosen columns hold no quote, comma or line feed, a reader finds the
    header names and then, for each point the range filter keeps, the
    texts of that row's cells under these columns (empty for a missing or
    null cell), whatever characters the cells hold. *)
Theorem points_export_parses (rows : list row) (x y z colorBy xMin xMax yMin yMax : string) :
  plain (pointsHeaders x y z colorBy) ->
  parseCSV (Factors.exportCSV rows x y z colorBy xMin xMax yMin yMax)
  = table (fun p => get (Factors.raw p)) (pointsHeaders x y z colorBy)
      (Factors.filtered (Factors.basePoints rows x y z colorBy) xMin xMax yMin yMax).
Proof.
  intros Hp. rewrite Factors_exportCSV_records.
  set (pts := Factors.filtered _ _ _ _ _).
  assert (E : pointsRecords rows x y z colorBy xMin xMax yMin yMax
              = map recordText (table (fun p => get (Factors.raw p)) (pointsHeaders x y z colorBy) pts)).
  { rewrite table_records by exact Hp. unfold pointsRecords, pointsHeaders. fold pts.
    f_equal. apply map_ext. intros p. f_equal.
    destruct (nonempty z), (nonempty colorBy); reflexivity. }
  rewrite E. unfold pointsHeaders. cbn [app]. apply table_reads.
Qed.

Section Host.
Variable localeCompare : string -> string -> float.
Variable toUpperCase : string -> string.
Variable dateISO : string -> option string.

(** X22. The series export reads back as a table: when the names of the
    x column and of the series hold no quote, comma or line feed, and no
    series is named [__proto__], a reader finds the header names and
    then, for each chart row, the texts of its cells under these columns;
    and the chart rows keep a cell of their own under each of these
    columns. *)
Theorem series_export_parses (rows : list row) (x : string) (ys : list string)
  (smooth : Z) (normalize : string) (cap : Z) :
  plain (x :: ys) -> ~ In "__proto__" ys ->
  option_map parseCSV (Performance.exportCSV dateISO rows x ys smooth normalize cap)
  = match Performance.processed dateISO rows x ys smooth normalize cap with
    | [] => None
    | data => Some (table get (x :: ys) data)
    end
  /\ Forall (fun d => Forall (fun k => own d k = true) (x :: ys))
       (Performance.processed dateISO rows x ys smooth normalize cap).
Proof.
  intros Hp Hproto. split.
  2:{ unfold Performance.processed.
      destruct (negb (nonempty x) || (List.length ys =? 0)%nat); [constructor|].
      now apply ChartFacts.attach_own. }
  rewrite Performance_exportCSV_records.
  assert (E : seriesRecords dateISO rows x ys smooth normalize cap
              = map recordText
                  (table get (x :: ys)
                     (Performance.processed dateISO rows x ys smooth normalize cap))).
  { rewrite table_records by exact Hp. reflexivity. }
  rewrite E.
  destruct (Performance.processed dateISO rows x ys smooth normalize cap) as [|d ds];
    [reflexivity|].
  cbn [option_map]. f_equal. apply table_reads.
Qed.

(** X23. The one-dimension aggregation export reads back as a table:
    when the upper-cased metric name holds no quote, comma or line feed,
    a reader finds the header, then the name and the value of each
    bucket in the order of the buckets, and one last record made of one
    empty field, for the line feed that ends the text. *)
Theorem aggregation_export_parses (rows : list row) (cat metric sortBy : string) (topN : Z) :
  nonempty cat = true -> needsQuotes (toUpperCase metric) = false ->
  option_map parseCSV
    (Treatment.exportCSV localeCompare toUpperCase rows cat metric "" sortBy topN)
  = Some ((["Category"; toUpperCase metric]
           :: map (fun b => [Treatment.name b; NumberToString (Treatment.value b)])
                (Treatment.baseAgg localeCompare rows cat metric sortBy topN))
          ++ [[""]])%list.
Proof.
  intros Hc Hm. rewrite Treatment_exportCSV_records, Hc. cbn [option_map]. f_equal.
  set (recs := _ :: map _ _).
  assert (E : aggregationRecords localeCompare toUpperCase rows cat metric "" sortBy topN
              = map recordText recs).
  { unfold aggregationRecords, recs. cbn [nonempty negb map]. f_equal.
    - apply plain_record. repeat constructor. exact Hm.
    - rewrite map_map. apply map_ext. intros b. now rewrite !Treatment_csvSafe_text. }
  rewrite E. unfold parseCSV. apply read_terminated.
  constructor; [discriminate|]. apply Forall_map, Forall_forall. intros b _. discriminate.
Qed.

(** X24. The two-dimension aggregation export reads back as a table when
    the category column name and the group labels hold no quote, comma
    or line feed, and no group label is [__proto__]: the header is
    written without quoting, so a reader finds the column name and the
    group labels, then the cells of each row under them, and one last
    record made of one empty field; and the rows keep a cell of their own
    under the category column and under each group label. *)
Theorem pivot_export_parses (rows : list row) (cat groupBy metric sortBy : string)
  (topN : Z) (data : list row) (groups : list string) :
  nonempty cat = true -> nonempty groupBy = true ->
  Treatment.groupedAgg rows cat groupBy metric topN = Some (data, groups) ->
  plain (cat :: groups) -> ~ In "__proto__" groups ->
  option_map parseCSV
    (Treatment.exportCSV localeCompare toUpperCase rows cat metric groupBy sortBy topN)
  = Some (table get (cat :: groups) data ++ [[""]])%list
  /\ Forall (fun d => Forall (fun k => own d k = true) (cat :: groups)) data.
Proof.
  intros Hc Hg E Hp Hproto. split.
  2:{ destruct (@PivotFacts.groupedAgg_unfold rows cat groupBy metric topN Hc Hg)
        as (other & E').
      rewrite E in E'. injection E' as -> ->.
      apply Forall_map, Forall_forall. intros c _. now apply PivotFacts.rowOf_own. }
  rewrite Treatment_exportCSV_records, Hc. cbn [option_map]. f_equal.
  assert (E2 : aggregationRecords localeCompare toUpperCase rows cat metric groupBy sortBy topN
               = map recordText (table get (cat :: groups) data)).
  { rewrite table_records by exact Hp. unfold aggregationRecords. rewrite Hg, E. cbn [negb].
    f_equal. apply map_ext. intros d. cbn [map]. now rewrite !Treatment_csvSafe_text,
      (map_ext _ _ (fun g => Treatment_csvSafe_text (get d g))). }
  rewrite E2. apply table_reads.
Qed.

End Host.

(** Four points with a size column. *)
Lemma points_export_parses_witness :
  parseCSV (Factors.exportCSV Samples.threeSizes "a" "b" "s" "" "0" "9" "0" "9")
  = [["a"; "b"; "s"]; ["1"; "2"; ""]; ["2"; "3"; "n/a"]; ["3"; "5"; "0"]; ["4"; "7"; "7"]].
Proof.
  rewrite (@points_export_parses Samples.threeSizes "a" "b" "s" "" "0" "9" "0" "9").
  - reflexivity.
  - repeat constructor.
Defined.

Lemma series_export_parses_witness :
  option_map parseCSV
    (Performance.exportCSV Samples.noDates Samples.seriesRows "t" ["v"] 0 "index" 500)
  = Some [["t"; "v"]; ["a"; "100"]; ["b"; "200"]].
Proof.
  assert (Hp : ~ In "__proto__" ["v"]) by (intros [H | []]; discriminate H).
  destruct (@series_export_parses Samples.noDates Samples.seriesRows "t" ["v"] 0 "index" 500
              ltac:(repeat constructor) Hp) as [H _].
  rewrite H. reflexivity.
Defined.

Lemma aggregation_export_parses_witness :
  option_map parseCSV
    (Treatment.exportCSV codeUnitOrder asciiUpper Samples.otherRows "cat" "count" "" "value" 0)
  = Some [["Category"; "COUNT"]; ["Other"; "2"]; ["A"; "1"]; ["B"; "1"]; [""]].
Proof.
  rewrite (@aggregation_export_parses codeUnitOrder asciiUpper Samples.otherRows
             "cat" "count" "value" 0); reflexivity.
Defined.

Lemma pivot_export_parses_witness :
  option_map parseCSV
    (Treatment.exportCSV codeUnitOrder asciiUpper Samples.pivotRows "c" "count" "g" "value" 0)
  = Some [["c"; "x"; "y"]; ["A"; "2"; "1"]; ["B"; "1"; "0"]; [""]].
Proof.
  assert (Hp : ~ In "__proto__" ["x"; "y"]) by (intros [H | [H | []]]; discriminate H).
  destruct (@pivot_export_parses codeUnitOrder asciiUpper Samples.pivotRows
              "c" "g" "count" "value" 0
              [ [("c", Str "A"); ("x", Num 2); ("y", Num 1)];
                [("c", Str "B"); ("x", Num 1); ("y", Num 0)] ]
              ["x"; "y"]
              eq_refl eq_refl eq_refl ltac:(repeat constructor) Hp) as [H _].
  rewrite H. reflexivity.
Defined.

(** A group label that holds a comma is written as it is in the header
    and quoted in no row: the header then reads as one column more than
    the rows have. *)
Remark pivot_header_unquoted :
  option_map parseCSV
    (Treatment.exportCSV codeUnitOrder asciiUpper
       [ [("c", Str "A"); ("g", Str "x,y")] ] "c" "count" "g" "value" 0)
  = Some [["c"; "x"; "y"]; ["A"; "1"]; [""]].
Proof. reflexivity. Qed.

End ExportReaderFacts.

(** ** The sign of a difference, and sums that stay numbers *)

Module RoundFacts.
Import JS Data Spec Shadow OrderFacts ExactFacts.

Lemma signed_positive (f : spec_float) : signedSF false f = true -> positiveSF f = true.
Proof. destruct f as [s|s| |s m e]; cbn; try discriminate; destruct s; cbn; congruence. Qed.

Lemma iter_shr_pos (n : nat) :
  forall (q : positive) (r s : bool),
    Z.of_nat n < Z.pos (digits2_pos q) ->
    exists q' r' s',
      Nat.iter n shr_1 {| shr_m := Z.pos q; shr_r := r; shr_s := s |}
      = {| shr_m := Z.pos q'; shr_r := r'; shr_s := s' |}
      /\ Z.pos (digits2_pos q') = Z.pos (digits2_pos q) - Z.of_nat n.
Proof.
  induction n as [|n IH]; intros q r s Hn.
  - exists q, r, s. split; [reflexivity | lia].
  - destruct (IH q r s ltac:(lia)) as (q' & r' & s' & E & Hd).
    rewrite Nat.iter_succ, E.
    destruct q' as [p|p|]; cbn [shr_1].
    + eexists _, _, _. split; [reflexivity|]. cbn [digits2_pos] in Hd. lia.
    + eexists _, _, _. split; [reflexivity|]. cbn [digits2_pos] in Hd. lia.
    + cbn [digits2_pos] in Hd. lia.
Qed.

Lemma shr_fexp_pos (q : positive) (e : Z) (l : location) :
  -1074 <= e ->
  exists q' r' s' e',
    shr_fexp prec emax (Z.pos q) e l = ({| shr_m := Z.pos q'; shr_r := r'; shr_s := s' |}, e')
    /\ -1074 <= e'.
Proof.
  intros He. unfold shr_fexp, shr. cbn [Zdigits2].
  assert (Hrec : exists r s, shr_record_of_loc (Z.pos q) l
                             = {| shr_m := Z.pos q; shr_r := r; shr_s := s |}).
  { destruct l as [|[]]; cbn; eexists _, _; reflexivity. }
  destruct Hrec as (r & s & ->).
  destruct (fexp prec emax (Z.pos (digits2_pos q) + e) - e) as [|k|k] eqn:En.
  - exists q, r, s, e. now split.
  - assert (Hk : Z.pos k < Z.pos (digits2_pos q)).
    { unfold fexp, SpecFloat.emin, prec, emax in En. lia. }
    rewrite iter_pos_nat.
    destruct (@iter_shr_pos (Pos.to_nat k) q r s ltac:(lia)) as (q' & r' & s' & E & _).
    rewrite E. exists q', r', s', (e + Z.pos k). split; [reflexivity | lia].
  - exists q, r, s, e. now split.
Qed.

Lemma round_nearest_even_pos (q : positive) (l : location) :
  exists q', round_nearest_even (Z.pos q) l = Z.pos q'.
Proof.
  unfold round_nearest_even. destruct l as [|[]].
  - now exists q.
  - destruct (Z.even (Z.pos q)); [now exists q | exists (q + 1)%positive; lia].
  - now exists q.
  - exists (q + 1)%positive. lia.
Qed.

Lemma binary_round_aux_signed (sx : bool) (q : positive) (e : Z) (l : location) :
  -1074 <= e -> signedSF sx (binary_round_aux prec emax sx (Z.pos q) e l) = true.
Proof.
  intros He. unfold binary_round_aux.
  destruct (shr_fexp_pos q l He) as (q1 & r1 & s1 & e1 & -> & He1).
  cbn [shr_m].
  destruct (round_nearest_even_pos q1 (loc_of_shr_record {| shr_m := Z.pos q1; shr_r := r1; shr_s := s1 |}))
    as (q2 & ->).
  destruct (shr_fexp_pos q2 loc_Exact He1) as (q3 & r3 & s3 & e3 & -> & He3).
  cbn [shr_m]. destruct (e3 <=? emax - prec); cbn [signedSF]; apply eqb_reflx.
Qed.

Lemma binary_round_signed (sx : bool) (p : positive) (e : Z) :
  -1074 <= e -> signedSF sx (binary_round prec emax sx p e) = true.
Proof.
  intros He. unfold binary_round.
  destruct (shl_align p e (fexp prec emax (Z.pos (digits2_pos p) + e))) as [mz ez] eqn:E.
  apply binary_round_aux_signed.
  unfold shl_align in E.
  assert (Hf : -1074 <= fexp prec emax (Z.pos (digits2_pos p) + e))
    by (unfold fexp, SpecFloat.emin, prec, emax; lia).
  destruct (fexp prec emax (Z.pos (digits2_pos p) + e) - e); injection E as <- <-;
    (exact He || exact Hf).
Qed.

Lemma valid_finite (s : bool) (m : positive) (e : Z) :
  valid_binary (S754_finite s m e) = true ->
  -1074 <= e /\ dig m <= 53 /\ (-1074 < e -> dig m = 53).
Proof.
  cbn [SpecFloat.valid_binary]. unfold bounded, canonical_mantissa, fexp, SpecFloat.emin, dig.
  intros H. apply andb_true_iff in H. destruct H as [H _]. apply Z.eqb_eq in H.
  unfold prec, emax in H. lia.
Qed.

Lemma aligned (m : positive) (e ez : Z) :
  ez <= e -> Z.pos (fst (shl_align m e ez)) = Z.pos m * 2 ^ (e - ez).
Proof.
  intros H. rewrite shl_align_shl by exact H. cbn [fst]. rewrite shl_Z.
  now rewrite Z2Nat.id by lia.
Qed.

Lemma mantissa_lt (mx my : positive) (ex ey : Z) :
  valid_binary (S754_finite false mx ex) = true ->
  valid_binary (S754_finite false my ey) = true ->
  ex < ey ->
  Z.pos mx * 2 ^ (ex - Z.min ey ex) < Z.pos my * 2 ^ (ey - Z.min ey ex).
Proof.
  intros Vx Vy H.
  destruct (valid_finite _ _ _ Vx) as (Hex & Hdx & _).
  destruct (valid_finite _ _ _ Vy) as (Hey & _ & Hdy).
  specialize (Hdy ltac:(lia)).
  rewrite Z.min_r by lia. rewrite Z.sub_diag. change (2 ^ 0) with 1.
  pose proof (digits_bound mx) as Bx. pose proof (digits_bound my) as By.
  unfold dig in *. rewrite Hdy in By. change (2 ^ (53 - 1)) with 4503599627370496 in By.
  assert (Hx53 : Z.pos mx < 2 ^ 53).
  { apply Z.lt_le_trans with (2 ^ Z.pos (digits2_pos mx)); [apply Bx|].
    apply Z.pow_le_mono_r; lia. }
  change (2 ^ 53) with 9007199254740992 in Hx53.
  assert (HP : 2 <= 2 ^ (ey - ex)).
  { change 2 with (2 ^ 1) at 1. apply Z.pow_le_mono_r; lia. }
  nia.
Qed.

Lemma SFsub_lt_pos (x y : spec_float) :
  valid_binary x = true -> valid_binary y = true ->
  SFcompare x y = Some Lt -> positiveSF (SFsub prec emax y x) = true.
Proof.
  unfold positiveSF.
  destruct x as [sx|sx| |sx mx ex], y as [sy|sy| |sy my ey]; intros Vx Vy; cbn;
    try congruence; try (destruct sx; cbn; congruence);
    try (destruct sy; cbn; congruence); try (destruct sx, sy; cbn; congruence).
  intros Hc.
  destruct (valid_finite _ _ _ Vx) as (Hex & _).
  destruct (valid_finite _ _ _ Vy) as (Hey & _).
  set (ez := Z.min ey ex).
  assert (Hez : -1074 <= ez) by (unfold ez; lia).
  rewrite !aligned by (unfold ez; lia).
  assert (Hpos : 0 < cond_Zopp sy (Z.pos my * 2 ^ (ey - ez))
                     - cond_Zopp sx (Z.pos mx * 2 ^ (ex - ez))).
  { assert (Px : 0 < Z.pos mx * 2 ^ (ex - ez))
      by (apply Z.mul_pos_pos; [lia | apply Z.pow_pos_nonneg; unfold ez; lia]).
    assert (Py : 0 < Z.pos my * 2 ^ (ey - ez))
      by (apply Z.mul_pos_pos; [lia | apply Z.pow_pos_nonneg; unfold ez; lia]).
    rewrite Pos.compare_cont_spec in Hc. cbn [Pos.switch_Eq] in Hc.
    destruct sx, sy; cbn [cond_Zopp]; try congruence; try lia.
    - (* both negative: |x| > |y| *)
      destruct (Z.compare_spec ex ey) as [E | E | E]; try congruence.
      + subst ey. destruct (Pos.compare_spec mx my) as [E2 | E2 | E2]; cbn in Hc; try congruence.
        assert (Z.pos my < Z.pos mx) by lia.
        assert (0 < 2 ^ (ex - ez)) by (apply Z.pow_pos_nonneg; unfold ez; lia).
        nia.
      + pose proof (@mantissa_lt my mx ey ex Vy Vx E) as Hm.
        rewrite (Z.min_comm ex ey) in Hm. fold ez in Hm. lia.
    - (* both positive *)
      destruct (Z.compare_spec ex ey) as [E | E | E]; try congruence.
      + subst ey. destruct (Pos.compare_spec mx my) as [E2 | E2 | E2]; cbn in Hc; try congruence.
        assert (Z.pos mx < Z.pos my) by lia.
        assert (0 < 2 ^ (ex - ez)) by (apply Z.pow_pos_nonneg; unfold ez; lia).
        nia.
      + pose proof (@mantissa_lt mx my ex ey Vx Vy E) as Hm. fold ez in Hm. lia. }
  destruct (cond_Zopp sy (Z.pos my * 2 ^ (ey - ez)) - cond_Zopp sx (Z.pos mx * 2 ^ (ex - ez)))
    as [|p|p]; try lia.
  cbn [binary_normalize]. now apply signed_positive, binary_round_signed.
Qed.

Lemma ltb_sub_pos (a b : float) :
  (a <? b)%float = true -> (0 <? b - a)%float = true.
Proof.
  rewrite !ltb_spec, sub_spec. unfold SFltb at 1. intros H.
  destruct (SFcompare (Prim2SF a) (Prim2SF b)) as [[]|] eqn:E; try discriminate.
  change (Prim2SF 0) with (S754_zero false).
  apply SFsub_lt_pos; [apply Prim2SF_valid | apply Prim2SF_valid | exact E].
Qed.

(** When the comparator of a descending sort does not put [b] before [a],
    [b] is not greater than [a]. *)
Lemma descending_leb (a b : float) :
  isNaN a = false -> isNaN b = false ->
  (0 <? b - a)%float = false -> (b <=? a)%float = true.
Proof.
  intros Ha Hb H. apply ltb_false_leb; [exact Ha | exact Hb|].
  destruct (a <? b)%float eqn:E; [|reflexivity].
  now rewrite (@ltb_sub_pos _ _ E) in H.
Qed.

Lemma SFcompare_trans_eq (x y z : spec_float) :
  SFcompare x y = Some Eq -> SFcompare y z = Some Eq -> SFcompare x z = Some Eq.
Proof.
  destruct x as [sx|sx| |sx mx ex], y as [sy|sy| |sy my ey], z as [sz|sz| |sz mz ez];
    cbn; try congruence;
    try (destruct sx; congruence); try (destruct sy; congruence);
    try (destruct sz; congruence);
    try (destruct sx, sy; congruence); try (destruct sy, sz; congruence);
    try (destruct sx, sz; congruence);
    try (destruct sx, sy, sz; congruence).
  rewrite !Pos.compare_cont_spec. cbn [Pos.switch_Eq].
  destruct sx, sy, sz; try congruence;
    destruct (Z.compare_spec ex ey); try congruence;
    destruct (Z.compare_spec ey ez); try congruence;
    destruct (Pos.compare_spec mx my); cbn; try congruence;
    destruct (Pos.compare_spec my mz); cbn; try congruence; subst;
    rewrite Z.compare_refl, Pos.compare_refl; reflexivity.
Qed.

Lemma leb_trans (x y z : float) :
  (x <=? y)%float = true -> (y <=? z)%float = true -> (x <=? z)%float = true.
Proof.
  rewrite !leb_spec. unfold SFleb. intros H1 H2.
  destruct (SFcompare (Prim2SF x) (Prim2SF y)) as [[]|] eqn:E1; try discriminate;
    destruct (SFcompare (Prim2SF y) (Prim2SF z)) as [[]|] eqn:E2; try discriminate.
  - now rewrite (@SFcompare_trans_eq _ _ _ E1 E2).
  - now rewrite (@ExtremaFacts.SFcompare_trans_eq_lt _ _ _ E1 E2).
  - now rewrite (@ExtremaFacts.SFcompare_trans_lt_eq _ _ _ E1 E2).
  - now rewrite (@SFcompare_trans_lt _ _ _ E1 E2).
Qed.

Lemma SFadd_not_nan (x y : spec_float) :
  valid_binary x = true -> valid_binary y = true ->
  x <> S754_nan -> finiteSF y = true -> SFadd prec emax x y <> S754_nan.
Proof.
  destruct x as [sx|sx| |sx mx ex], y as [sy|sy| |sy my ey]; intros Vx Vy Hx Hy; cbn;
    try congruence; try discriminate; try (destruct sx, sy; discriminate).
  destruct (valid_finite _ _ _ Vx) as (Hex & _).
  destruct (valid_finite _ _ _ Vy) as (Hey & _).
  set (ez := Z.min ex ey). assert (Hez : -1074 <= ez) by (unfold ez; lia).
  destruct (cond_Zopp sx _ + cond_Zopp sy _) as [|p|p]; cbn [binary_normalize].
  - discriminate.
  - pose proof (@binary_round_signed false p ez Hez) as H.
    destruct (binary_round prec emax false p ez); (discriminate || (cbn in H; discriminate H)).
  - pose proof (@binary_round_signed true p ez Hez) as H.
    destruct (binary_round prec emax true p ez); (discriminate || (cbn in H; discriminate H)).
Qed.

Lemma add_not_nan (x y : float) :
  isNaN x = false -> isFinite y = true -> isNaN (x + y)%float = false.
Proof.
  rewrite !isNaN_spec, isFinite_spec, add_spec. intros Hx Hy.
  assert (H : SFadd prec emax (Prim2SF x) (Prim2SF y) <> S754_nan).
  { apply SFadd_not_nan; [apply Prim2SF_valid | apply Prim2SF_valid | | exact Hy].
    intros E. rewrite E in Hx. discriminate Hx. }
  unfold SF64add.
  destruct (SFadd prec emax (Prim2SF x) (Prim2SF y)); try reflexivity.
  now exfalso.
Qed.

End RoundFacts.

(** ** Buckets by value, largest first *)

Module DescFacts.
Import JS Data Spec Shadow Treatment MapFacts ExactFacts AggFacts OrderFacts SortFacts BucketFacts
  RoundFacts.

Section Pairs.
Variable A : Type.
Variable cmp : A -> A -> float.
Variable T : A -> A -> Prop.
Hypothesis T_trans : forall a b c, T a b -> T b c -> T a c.

(** An order of adjacent elements that is transitive holds of every
    pair. *)
Lemma ordered_pairs (l : list A) :
  (forall a b, In a l -> In b l -> (0 <? cmp a b)%float = false -> T a b) ->
  ordered cmp l = true -> ForallOrdPairs T l.
Proof.
  induction l as [|a l IH]; intros HT Ho; [constructor|].
  apply ordered_cons in Ho. destruct Ho as [Ha Hl].
  assert (IHl : ForallOrdPairs T l).
  { apply IH; [|exact Hl]. intros x y Hx Hy. apply HT; now right. }
  constructor; [|exact IHl].
  destruct l as [|b t]; [constructor|].
  assert (Tab : T a b) by (apply HT; [now left | right; now left | exact Ha]).
  constructor; [exact Tab|].
  inversion IHl as [|? ? Hb _]; subst.
  eapply Forall_impl; [|exact Hb]. intros c Tbc. now apply T_trans with b.
Qed.
End Pairs.

Lemma FOP_app_l (A : Type) (R : A -> A -> Prop) (l1 l2 : list A) :
  ForallOrdPairs R (l1 ++ l2) -> ForallOrdPairs R l1.
Proof.
  induction l1 as [|a l IH]; intros H; [constructor|].
  cbn [app] in H. inversion H as [|? ? Ha Hl]; subst.
  constructor; [|now apply IH].
  apply Forall_forall. intros b Hb. rewrite Forall_forall in Ha.
  apply Ha, in_or_app. now left.
Qed.

Lemma FOP_app (A : Type) (R : A -> A -> Prop) (l1 l2 : list A) :
  ForallOrdPairs R (l1 ++ l2) -> forall a b, In a l1 -> In b l2 -> R a b.
Proof.
  induction l1 as [|x l1 IH]; intros H a b Ha Hb; [destruct Ha|].
  cbn [app] in H. inversion H as [|? ? Hx Hl]; subst.
  destruct Ha as [<- | Ha].
  - rewrite Forall_forall in Hx. apply Hx, in_or_app. now right.
  - now apply IH.
Qed.

Lemma contribution_finite (metric : string) (r : row) :
  isFinite (contribution metric r) = true.
Proof.
  unfold contribution. cbv zeta.
  destruct (isFiniteNum (if String.eqb metric "count" then 1%float else toNum (get r metric))) eqn:E;
    [exact E | reflexivity].
Qed.

Lemma Forall_mapSet (V : Type) (P : V -> Prop) (m : list (string * V)) (k : string) (v : V) :
  Forall (fun kv => P (snd kv)) m -> P v -> Forall (fun kv => P (snd kv)) (mapSet m k v).
Proof.
  intros Hm Hv. induction Hm as [|[k' v'] m Hkv Hm' IH]; cbn [mapSet].
  - now repeat constructor.
  - destruct (String.eqb k' k); constructor; assumption.
Qed.

Lemma grouped_not_nan (cat metric : string) (rows : list row) :
  Forall (fun kv => isNaN (snd kv) = false) (grouped cat metric rows).
Proof.
  unfold grouped.
  assert (G : forall (m : list (string * float)),
             Forall (fun kv => isNaN (snd kv) = false) m ->
             Forall (fun kv => isNaN (snd kv) = false)
               (fold_left
                  (fun m r =>
                     let key := safeCat (get r cat) in
                     let curr := getOrZero m key in
                     mapSet m key (curr + contribution metric r)%float)
                  rows m)).
  { induction rows as [|r rows IH]; intros m Hm; [exact Hm|].
    cbn [fold_left]. apply IH. cbv zeta.
    apply (@Forall_mapSet _ (fun v => isNaN v = false)); [exact Hm|].
    apply add_not_nan; [apply PivotFacts.getOrZero_not_nan | apply contribution_finite]. }
  apply G. constructor.
Qed.

Section Host.
Variable localeCompare : string -> string -> float.

(** X27. Sorted by value, the buckets shown under a category name (all
    of them without a limit, those before the collapsed one with a limit)
    come largest first: no bucket shown after another has a greater
    value.  The values of these buckets are numbers, never the sentinel,
    for every metric column, so the order is the order of the values and
    not an accident of the comparator. *)
Theorem baseAgg_by_value (rows : list row) (cat metric sortBy : string) (topN : Z) :
  String.eqb sortBy "name" = false ->
  ForallOrdPairs (fun a b => (value b <=? value a)%float = true)
    (shown topN (baseAgg localeCompare rows cat metric sortBy topN))
  /\ Forall (fun b => isNaN (value b) = false)
       (shown topN (baseAgg localeCompare rows cat metric sortBy topN)).
Proof.
  intros Hs.
  assert (Hnan : Forall (fun b => isNaN (value b) = false)
                   (shown topN (baseAgg localeCompare rows cat metric sortBy topN))).
  { apply Forall_forall. intros b Hb. rewrite shown_prefix in Hb. apply shown_incl in Hb.
    destruct (nonempty cat) eqn:Hcat.
    - apply (Permutation_in _ (@baseAgg_unlimited localeCompare rows cat metric sortBy Hcat)) in Hb.
      apply in_map_iff in Hb. destruct Hb as (kv & <- & Hkv). cbn [value].
      pose proof (grouped_not_nan cat metric rows) as H. rewrite Forall_forall in H.
      now apply H.
    - unfold baseAgg in Hb. rewrite Hcat in Hb. destruct Hb. }
  split; [|exact Hnan].
  apply (@ordered_pairs _ (comparator localeCompare sortBy)).
  - intros a b c H1 H2. now apply leb_trans with (value b).
  - rewrite Forall_forall in Hnan. intros a b Ha Hb. unfold comparator. rewrite Hs.
    apply descending_leb; now apply Hnan.
  - rewrite shown_prefix. unfold shown.
    assert (Hfull : ordered (comparator localeCompare sortBy)
                      (baseAgg localeCompare rows cat metric sortBy 0) = true).
    { unfold baseAgg. destruct (nonempty cat); [|reflexivity].
      cbn [negb Z.ltb Z.compare andb]. apply sort_ordered.
      intros a b. unfold comparator. rewrite Hs. apply sub_pos_antisym. }
    destruct (0 <? topN); [apply ordered_firstn | ]; exact Hfull.
Qed.

End Host.

(** The collapsed bucket is not among them, and can hold the sentinel:
    its value is the sum of the values it replaces, and two categories
    that overflow, one to each infinity, add up to it. *)
Remark collapsed_bucket_sentinel :
  baseAgg codeUnitOrder Samples.overflowRows "cat" "v" "value" 1
  = [ {| name := "P1"; value := infinity |}; {| name := "Other"; value := NaN |} ].
Proof. vm_compute. reflexivity. Qed.

(** The values 0.3, 0.2 and 0.1 of [Samples.roundingRows]. *)
Lemma baseAgg_by_value_witness :
  ForallOrdPairs (fun a b => (value b <=? value a)%float = true)
    (shown 2 (baseAgg codeUnitOrder Samples.roundingRows "cat" "v" "value" 2)).
Proof.
  exact (proj1 (@baseAgg_by_value codeUnitOrder Samples.roundingRows "cat" "v" "value" 2
                  eq_refl)).
Defined.

End DescFacts.

(** ** The dashboard *)

Module DashboardFacts.
Import JS Data Spec Dashboard ExactFacts AggFacts OrderFacts SortFacts RoundFacts DescFacts.







(** X26. The groups charted for a field are at most 12 of the groups the
    server counted, and none without a field; they are all of the groups
    when those are 12 or fewer.  When every count is a number they are the
    12 largest, largest first: no group charted after another has a
    greater count, and no group left out has a greater count than one
    that is charted. *)
Theorem topGroups_shape (field : string) (data : list groupCount) :
  let out := topGroups field data in
  (List.length out <= 12)%nat
  /\ incl out data
  /\ (nonempty field = true -> (List.length data <= 12)%nat -> Permutation out data)
  /\ (nonempty field = false -> out = [])
  /\ (Forall (fun g => isNaN (count g) = false) data ->
      ForallOrdPairs (fun a b => (count b <=? count a)%float = true) out
      /\ forall g h, In g out -> In h data -> ~ In h out ->
                     (count h <=? count g)%float = true).
Proof.
  intros out. subst out. unfold topGroups.
  destruct (nonempty field); cbn [negb].
  - unfold slice0. cbn [Z.leb Z.compare]. change (Z.to_nat 12) with 12%nat.
    set (s := sort _ data).
    assert (HP : Permutation s data) by apply sort_perm.
    split; [rewrite length_firstn; lia|]. split; [|split; [|split]].
    + intros a Ha. apply (Permutation_in _ HP).
      rewrite <- (firstn_skipn 12 s). apply in_or_app. now left.
    + intros _ Hlen. rewrite firstn_all2; [exact HP|].
      now rewrite (Permutation_length HP).
    + discriminate.
    + intros Hnan.
      assert (Hord : ForallOrdPairs (fun a b => (count b <=? count a)%float = true) s).
      { apply (@ordered_pairs _ (fun a b => (count b - count a)%float)).
        - intros a b c H1 H2. now apply leb_trans with (count b).
        - rewrite Forall_forall in Hnan. intros a b Ha Hb.
          apply descending_leb; apply Hnan; now apply (Permutation_in _ HP).
        - apply sort_ordered. intros a b. apply sub_pos_antisym. }
      rewrite <- (firstn_skipn 12 s) in Hord. split.
      * exact (FOP_app_l _ _ Hord).
      * intros g h Hg Hh Hno.
        apply (@FOP_app _ _ _ _ Hord g h Hg).
        apply (Permutation_in _ (Permutation_sym HP)) in Hh.
        rewrite <- (firstn_skipn 12 s) in Hh. apply in_app_or in Hh.
        destruct Hh as [Hh | Hh]; [contradiction | exact Hh].
  - cbn [List.length]. split; [lia|]. split; [intros a []|].
    split; [discriminate|]. split; [reflexivity|].
    intros _. split; [constructor | intros g h []].
Qed.

End DashboardFacts.

(** ** The colour groups of the scatter chart *)

Module PaletteFacts.
Import JS Data Spec Shadow Factors Palette MapFacts ExactFacts AggFacts OrderFacts SortFacts
  SeriesFacts BucketFacts RoundFacts DescFacts.

Lemma insertIndex_perm (V : Type) (i : Z) (kv : string * V) (l : list (Z * (string * V))) :
  Permutation (insertIndex i kv l) ((i, kv) :: l).
Proof.
  induction l as [|h t IH]; cbn [insertIndex]; [reflexivity|].
  destruct (i <? fst h); [reflexivity|].
  rewrite IH. apply perm_swap.
Qed.

Lemma filter_split_perm (A : Type) (f : A -> bool) (l : list A) :
  Permutation (filter f l ++ filter (fun a => negb (f a)) l) l.
Proof.
  induction l as [|a l IH]; [reflexivity|].
  cbn [filter]. destruct (f a); cbn [negb app].
  - now constructor.
  - rewrite <- Permutation_middle. now constructor.
Qed.

Lemma entries_perm (V : Type) (m : list (string * V)) : Permutation (entries m) m.
Proof.
  unfold entries.
  set (isIdx := fun kv : string * V =>
                  match arrayIndex (fst kv) with Some _ => true | None => false end).
  assert (H : Permutation (map snd (indexEntries m)) (filter isIdx m)).
  { unfold indexEntries, isIdx. induction m as [|kv m IH]; [reflexivity|].
    cbn [fold_right filter]. destruct (arrayIndex (fst kv)) as [i|]; [|exact IH].
    rewrite (Permutation_map snd (insertIndex_perm i kv _)). cbn [map snd].
    now constructor. }
  rewrite H.
  rewrite (filter_ext (fun kv => match arrayIndex (fst kv) with None => true | Some _ => false end)
             (fun kv => negb (isIdx kv))).
  - apply filter_split_perm.
  - intros kv. unfold isIdx. now destruct (arrayIndex (fst kv)).
Qed.

Section Buckets.
Variable key : point -> string.

Lemma fill_keys (pts : list point) :
  forall b, NoDup (map fst b) -> NoDup (map fst (fill key pts b)).
Proof.
  induction pts as [|p pts IH]; intros b Hb; [exact Hb|].
  cbn [fill fold_left]. apply IH. now apply mapSet_keys_NoDup.
Qed.

Lemma fill_get (pts : list point) :
  forall b k,
    mapGet (fill key pts b) k
    = match mapGet b k, keyed key k pts with
      | None, [] => None
      | o, l => Some ((match o with Some l0 => l0 | None => [] end) ++ l)%list
      end.
Proof.
  induction pts as [|p pts IH]; intros b k.
  - cbn. destruct (mapGet b k); [now rewrite app_nil_r | reflexivity].
  - cbn [fill fold_left].
    match goal with |- mapGet (fold_left ?f pts ?b1) k = _ =>
      change (fold_left f pts b1) with (fill key pts b1) end.
    rewrite IH. unfold keyed. cbn [filter].
    destruct (String.eqb_spec (key p) k) as [E | Hne].
    + rewrite E, mapGet_mapSet_eq. fold (keyed key k pts).
      destruct (mapGet b k) as [l0|]; [now rewrite <- app_assoc | reflexivity].
    + rewrite mapGet_mapSet_neq by exact Hne. reflexivity.
Qed.

Lemma fill_entry (pts : list point) (kv : string * list point) :
  In kv (fill key pts []) -> snd kv = keyed key (fst kv) pts /\ snd kv <> [].
Proof.
  intros Hin.
  pose proof (@PivotFacts.In_mapGet _ _ kv (@fill_keys pts [] (NoDup_nil _)) Hin) as E.
  rewrite fill_get in E. cbn [mapGet app] in E.
  destruct (keyed key (fst kv) pts) as [|p0 l] eqn:Ek; [discriminate E|].
  injection E as E. rewrite <- E. split; [reflexivity | discriminate].
Qed.

Lemma fill_covers (pts : list point) (p : point) :
  In p pts -> In (key p) (map fst (fill key pts [])).
Proof.
  intros Hp. destruct (mapGet (fill key pts []) (key p)) eqn:E.
  - destruct (in_dec string_dec (key p) (map fst (fill key pts []))) as [H | H]; [exact H|].
    apply mapGet_None in H. congruence.
  - rewrite fill_get in E. cbn [mapGet] in E.
    assert (Hk : In p (keyed key (key p) pts))
      by (apply filter_In; split; [exact Hp | apply String.eqb_refl]).
    destruct (keyed key (key p) pts); [destruct Hk | discriminate E].
Qed.

Lemma keyed_perm (ks : list string) :
  forall pts : list point,
    NoDup ks -> (forall p, In p pts -> In (key p) ks) ->
    Permutation (List.concat (map (fun k => keyed key k pts) ks)) pts.
Proof.
  induction ks as [|k ks IH]; intros pts Hnd Hin.
  - destruct pts as [|p pts]; [reflexivity|]. destruct (Hin p (or_introl eq_refl)).
  - inversion Hnd as [|? ? Hk Hnd']; subst. cbn [map List.concat].
    set (rest := filter (fun p => negb (String.eqb (key p) k)) pts).
    rewrite (map_ext_in (fun k0 => keyed key k0 pts) (fun k0 => keyed key k0 rest)).
    + rewrite (IH rest Hnd').
      * apply filter_split_perm.
      * intros p Hp. apply filter_In in Hp. destruct Hp as [Hp Hne].
        apply negb_true_iff, String.eqb_neq in Hne.
        destruct (Hin p Hp) as [E | H]; [congruence | exact H].
    + intros k0 Hk0. unfold keyed, rest. induction pts as [|p pts IHp]; [reflexivity|].
      cbn [filter]. destruct (String.eqb_spec (key p) k) as [E | Hne]; cbn [negb filter].
      * destruct (String.eqb_spec (key p) k0) as [E0 | _].
        -- exfalso. apply Hk. congruence.
        -- apply IHp. intros q Hq. apply Hin. now right.
      * destruct (String.eqb (key p) k0); [f_equal|];
          apply IHp; intros q Hq; apply Hin; now right.
Qed.

Lemma fill_partition (pts : list point) :
  Permutation (List.concat (map snd (fill key pts []))) pts.
Proof.
  rewrite (map_ext_in snd (fun kv => keyed key (fst kv) pts)).
  - rewrite <- (map_map fst (fun k => keyed key k pts)).
    apply keyed_perm; [apply fill_keys; constructor|].
    intros p Hp. now apply fill_covers.
  - intros kv Hkv. now apply fill_entry.
Qed.
End Buckets.

Lemma concat_perm (A : Type) (l1 l2 : list (list A)) :
  Permutation l1 l2 -> Permutation (List.concat l1) (List.concat l2).
Proof.
  induction 1 as [|x l1 l2 _ IH|x y l|l1 l2 l3 _ IH1 _ IH2]; cbn [List.concat].
  - reflexivity.
  - now apply Permutation_app_head.
  - rewrite !app_assoc. apply Permutation_app_tail, Permutation_app_comm.
  - now transitivity (List.concat l2).
Qed.

Lemma key_of_entry (key : point -> string) (pts : list point) (kv : string * list point) :
  In kv (fill key pts []) -> exists p, In p pts /\ key p = fst kv.
Proof.
  intros Hin. destruct (fill_entry key pts kv Hin) as [E Hne].
  destruct (snd kv) as [|p l] eqn:Es; [congruence|].
  assert (Hp : In p (keyed key (fst kv) pts)) by (rewrite <- E; now left).
  apply filter_In in Hp. destruct Hp as [Hp Hk]. apply String.eqb_eq in Hk.
  now exists p.
Qed.

Lemma colourCounts_keys (pts : list point) :
  NoDup (map fst (colourCounts pts))
  /\ forall k, In k (map fst (colourCounts pts)) <-> In k (map p_c pts).
Proof.
  unfold colourCounts.
  assert (G : forall (l : list point) (m : list (string * float)),
             NoDup (map fst m) ->
             let m' := fold_left
                         (fun (counts : list (string * float)) p =>
                            mapSet counts (p_c p) (getOrZero counts (p_c p) + 1)%float)
                         l m in
             NoDup (map fst m')
             /\ forall k, In k (map fst m') <-> In k (map fst m) \/ In k (map p_c l)).
  { induction l as [|p l IH]; intros m Hm; cbn [fold_left map].
    - split; [exact Hm|]. intros k. cbn. tauto.
    - destruct (IH (mapSet m (p_c p) (getOrZero m (p_c p) + 1)%float)
                  (mapSet_keys_NoDup _ _ _ Hm)) as [Hnd Hin].
      split; [exact Hnd|]. intros k. cbv zeta in Hin. rewrite Hin, mapSet_keys_in.
      cbn [In]. intuition congruence. }
  destruct (G pts [] (NoDup_nil _)) as [Hnd Hin].
  split; [exact Hnd|]. intros k. cbv zeta in Hin. rewrite Hin. cbn. tauto.
Qed.

Lemma topColours_short (pts : list point) : (List.length (topColours pts) <= 8)%nat.
Proof.
  unfold topColours, slice0. cbn [Z.leb Z.compare]. rewrite length_map, length_firstn.
  change (Z.to_nat 8) with 8%nat. lia.
Qed.

(** With no more than eight colours every colour keeps its bucket. *)
Lemma topColours_all (pts : list point) (cats : list string) :
  (List.length cats <= 8)%nat -> Forall (fun p => In (p_c p) cats) pts ->
  Forall (fun p => includes (topColours pts) (p_c p) = true) pts.
Proof.
  intros Hlen Hcats.
  destruct (colourCounts_keys pts) as [Hnd Hin].
  assert (Hshort : (List.length (colourCounts pts) <= 8)%nat).
  { rewrite <- (length_map fst). etransitivity; [|exact Hlen].
    apply NoDup_incl_length; [exact Hnd|]. intros k Hk.
    apply Hin, in_map_iff in Hk. destruct Hk as (p & <- & Hp).
    rewrite Forall_forall in Hcats. now apply Hcats. }
  assert (HP : Permutation (topColours pts) (map fst (colourCounts pts))).
  { unfold topColours, slice0. cbn [Z.leb Z.compare]. apply Permutation_map.
    rewrite firstn_all2.
    - rewrite sort_perm. apply entries_perm.
    - rewrite (Permutation_length (sort_perm _ _)), (Permutation_length (entries_perm _)).
      change (Z.to_nat 8) with 8%nat. exact Hshort. }
  apply Forall_forall. intros p Hp. apply includes_In.
  apply (Permutation_in _ (Permutation_sym HP)), Hin. now apply in_map.
Qed.

Section Host.
Variable inherited : string -> bool.

Lemma groups_unfold (filtered : list point) (colorBy : string) :
  nonempty colorBy = false \/ Forall (fun p => inherited (p_c p) = false) filtered ->
  groups inherited filtered colorBy
  = Some (map (fun kv => {| name := fst kv; pts := snd kv |})
            (entries (fill (bucketKey (topColours filtered) colorBy) filtered []))).
Proof.
  intros H. unfold groups.
  replace (nonempty colorBy && existsb (fun p => inherited (p_c p)) filtered) with false.
  - reflexivity.
  - symmetry. destruct H as [-> | H]; [reflexivity|]. apply andb_false_iff. right.
    clear - H. induction H as [|p l Hp _ IH]; [reflexivity|].
    cbn [existsb]. now rewrite Hp, IH.
Qed.

(** X28. The colour groups split the points shown: when no colour is
    chosen, or no point's colour is a name that objects inherit, [groups]
    returns, every point is in exactly one group, and a group holds, in
    the order of the points, the points that fall in the bucket of its
    name.  The names are pairwise distinct, no group is empty and there
    are at most nine groups.  Without a colour column the points are in
    one group All; with one, every group not named Other is the points of
    the colour of its name, and so is every group when there are eight
    colours or fewer. *)
Theorem groups_partition (filtered : list point) (colorBy : string) :
  nonempty colorBy = false \/ Forall (fun p => inherited (p_c p) = false) filtered ->
  exists gs,
    groups inherited filtered colorBy = Some gs
    /\ Permutation (List.concat (map pts gs)) filtered
    /\ NoDup (map name gs)
    /\ Forall (fun g => pts g <> []) gs
    /\ (List.length gs <= 9)%nat
    /\ Forall (fun g => pts g = filter (fun p => String.eqb
                                                   (bucketKey (topColours filtered) colorBy p)
                                                   (name g))
                                filtered) gs
    /\ (nonempty colorBy = false -> Forall (fun g => name g = "All" /\ pts g = filtered) gs)
    /\ (nonempty colorBy = true ->
        Forall (fun g => name g <> "Other" ->
                         pts g = filter (fun p => String.eqb (p_c p) (name g)) filtered) gs)
    /\ (nonempty colorBy = true ->
        forall cats, (List.length cats <= 8)%nat ->
                     Forall (fun p => In (p_c p) cats) filtered ->
                     Forall (fun g => pts g = filter (fun p => String.eqb (p_c p) (name g)) filtered)
                       gs).
Proof.
  intros H. eexists. split; [now apply groups_unfold|].
  set (top := topColours filtered).
  set (key := bucketKey top colorBy).
  set (B := fill key filtered []).
  pose proof (entries_perm B) as HP.
  assert (Hentry : forall kv, In kv (entries B) ->
                              snd kv = keyed key (fst kv) filtered /\ snd kv <> []
                              /\ exists p, In p filtered /\ key p = fst kv).
  { intros kv Hkv. apply (Permutation_in _ HP) in Hkv.
    destruct (fill_entry key filtered kv Hkv) as [E Hne].
    split; [exact E|]. split; [exact Hne|]. now apply key_of_entry. }
  split; [|split; [|split; [|split; [|split; [|split; [|split]]]]]].
  - rewrite map_map. cbn [pts].
    rewrite (concat_perm (Permutation_map snd HP)). apply fill_partition.
  - rewrite map_map. cbn [name].
    apply (Permutation_NoDup (Permutation_sym (Permutation_map fst HP))).
    apply fill_keys. constructor.
  - apply Forall_map, Forall_forall. intros kv Hkv. cbn [pts]. now apply Hentry.
  - rewrite length_map, (Permutation_length HP), <- (length_map fst).
    transitivity (List.length (if nonempty colorBy then "Other" :: top else ["All"])).
    + apply NoDup_incl_length; [apply fill_keys; constructor|].
      intros k Hk. apply in_map_iff in Hk. destruct Hk as (kv & <- & Hkv).
      destruct (key_of_entry key filtered kv Hkv) as (p & _ & <-).
      unfold key, bucketKey. destruct (nonempty colorBy); [|now left].
      destruct (includes top (p_c p)) eqn:E; [|now left].
      right. now apply includes_In.
    + pose proof (topColours_short filtered) as Hs. fold top in Hs.
      destruct (nonempty colorBy); cbn [List.length]; lia.
  - apply Forall_map, Forall_forall. intros kv Hkv. cbn [name pts]. now apply Hentry.
  - intros Hc. apply Forall_map, Forall_forall. intros kv Hkv. cbn [name pts].
    destruct (Hentry kv Hkv) as (E & _ & p & _ & Hk).
    assert (Hall : forall q, key q = "All") by (intros q; unfold key, bucketKey; now rewrite Hc).
    rewrite Hall in Hk. split; [now symmetry|].
    rewrite E, <- Hk. unfold keyed.
    rewrite (filter_ext _ (fun _ => true)) by (intros q; now rewrite Hall).
    clear. induction filtered as [|q l IH]; [reflexivity|]. cbn [filter]. now f_equal.
  - intros Hc. apply Forall_map, Forall_forall. intros kv Hkv. cbn [name pts].
    intros Hno. destruct (Hentry kv Hkv) as (E & _ & p & _ & Hk).
    assert (Htop : includes top (fst kv) = true).
    { unfold key, bucketKey in Hk. rewrite Hc in Hk.
      destruct (includes top (p_c p)) eqn:Ei; [now rewrite <- Hk | congruence]. }
    rewrite E. unfold keyed. apply filter_ext. intros q.
    unfold key, bucketKey. rewrite Hc.
    destruct (includes top (p_c q)) eqn:Eq; [reflexivity|].
    destruct (String.eqb_spec "Other" (fst kv)) as [E1 | _]; [congruence|].
    destruct (String.eqb_spec (p_c q) (fst kv)) as [E2 | _]; [|reflexivity].
    rewrite E2 in Eq. congruence.
  - intros Hc cats Hlen Hcats.
    pose proof (@topColours_all filtered cats Hlen Hcats) as Hall. fold top in Hall.
    rewrite Forall_forall in Hall.
    apply Forall_map, Forall_forall. intros kv Hkv. cbn [name pts].
    destruct (Hentry kv Hkv) as (E & _). rewrite E. unfold keyed.
    apply filter_ext_in. intros q Hq. unfold key, bucketKey. now rewrite Hc, (Hall q Hq).
Qed.
End Host.

(** Three points of two colours, on a host with the standard inherited
    names. *)
Lemma groups_partition_witness :
  exists gs,
    groups objectPrototype Samples.colouredPoints "c" = Some gs
    /\ Permutation (List.concat (map pts gs)) Samples.colouredPoints.
Proof.
  assert (H : nonempty "c" = false
              \/ Forall (fun p => objectPrototype (p_c p) = false) Samples.colouredPoints)
    by (right; cbv; repeat constructor).
  destruct (@groups_partition objectPrototype Samples.colouredPoints "c" H)
    as (gs & H1 & H2 & _).
  now exists gs.
Defined.












Section Kept.
Variable inherited : string -> bool.

End Kept.


End PaletteFacts.
